(** * Workspace-edit application: a shallow embedding of
      [WorkspaceEditHandler] (handlers/workspace-edit)

    The development follows the handler function by function:
    [normalizeChanges], [validateEdit], [handleTextDocumentEdit],
    [handleResourceOperation], [getBuffer] and [handleDocumentChanges].

    - Code that may throw returns a [Result]; code that mutates a buffer
      returns the buffer it leaves.
    - The collaborators the handler calls (Atom's [Point], [Range] and
      [TextBuffer], the workspace, [fs.promises], [Convert]) are modelled
      at the interface the handler uses.
    - [handleDocumentChanges] is asynchronous: its closures suspend on
      [await getBuffer] and the event loop decides in which order they
      resume and when the reaction chained on [Promise.all] runs.  The
      model takes that order as a schedule, a list of events, and is
      defined for every schedule. *)

From Stdlib Require Import ZArith Ascii String DecimalString.
From stdpp Require Import base tactics option list sorting strings gmap.

Local Open Scope nat_scope.

(** ** Results of code that may throw *)

Inductive Error : Type :=
  | OverlapError (path : string)
  | OutOfRangeError (path : string) (line col : nat)
  | IoError (code path : string).

Inductive Result (A : Type) : Type :=
  | Return (a : A)
  | Throw (err : Error).
Arguments Return {A} a.
Arguments Throw {A} err.

#[global] Instance Error_eq_dec : EqDecision Error.
Proof. solve_decision. Defined.

Definition showNat (n : nat) : string :=
  NilEmpty.string_of_uint (Nat.to_uint n).

(** [err.message], as the template strings of the handler build it. *)
Definition message (err : Error) : string :=
  match err with
  | OverlapError path => "Found overlapping edit ranges in " +:+ path
  | OutOfRangeError path line col =>
      "Out of range edit on " +:+ path +:+ ":" +:+ showNat line
        +:+ ":" +:+ showNat col
  | IoError code path => code +:+ ": no such file or directory, " +:+ path
  end.

Definition isOverlapError (err : Error) : bool :=
  match err with OverlapError _ => true | _ => false end.

Definition isOutOfRangeError (err : Error) : bool :=
  match err with OutOfRangeError _ _ _ => true | _ => false end.

(** ** Atom's [Point] and [Range] *)

Module Point.

(** Modelled from the spec: a position "in document coordinates (row,
    column)" (spec, section 3), with the order Atom's [Point] gives
    positions. *)
Record t : Type := mk { row : nat; column : nat }.

#[global] Instance eq_dec : EqDecision t.
Proof. solve_decision. Defined.

(** [Point::compare]: rows first, then columns; the result is
    [-1], [0] or [1]. *)
Definition compare (p other : t) : Z :=
  if other.(row) <? p.(row) then 1%Z
  else if p.(row) <? other.(row) then (-1)%Z
  else if other.(column) <? p.(column) then 1%Z
  else if p.(column) <? other.(column) then (-1)%Z
  else 0%Z.

Definition isLessThanOrEqual (p other : t) : bool :=
  (compare p other <=? 0)%Z.

(** The order [compare] computes, as a proposition. *)
Definition lt (p q : t) : Prop :=
  p.(row) < q.(row) ∨ (p.(row) = q.(row) ∧ p.(column) < q.(column)).

Definition le (p q : t) : Prop :=
  p.(row) < q.(row) ∨ (p.(row) = q.(row) ∧ p.(column) ≤ q.(column)).

End Point.

Module Range.

(** Modelled from the spec: "a half-open range [start, end)" with the
    "invariant: start <= end" (spec, section 3), which Atom's [Range]
    constructor establishes, and the order Atom's [Range] gives ranges. *)
Record t : Type := mk { start : Point.t; end_ : Point.t }.

#[global] Instance eq_dec : EqDecision t.
Proof. solve_decision. Defined.

(** [new Range(pointA, pointB)]: the constructor orders its two
    points, so that [start] never lies after [end]. *)
Definition new (pointA pointB : Point.t) : t :=
  if Point.isLessThanOrEqual pointA pointB
  then mk pointA pointB
  else mk pointB pointA.

(** [Range::compare]: by start; for equal starts the range that ends
    later comes first. *)
Definition compare (r other : t) : Z :=
  let value := Point.compare r.(start) other.(start) in
  if (value =? 0)%Z then Point.compare other.(end_) r.(end_) else value.

Definition isEmpty (r : t) : bool :=
  bool_decide (r.(start) = r.(end_)).

End Range.

(** ** [Array.prototype.sort] with a comparator

    The sort is stable (ECMAScript 2019): elements the comparator does
    not separate keep their input order. *)

Section JsSort.

Context {A : Type} (compareFn : A → A → Z).

Fixpoint sortInsert (x : A) (l : list A) : list A :=
  match l with
  | [] => [x]
  | y :: l' =>
      if (compareFn x y <=? 0)%Z then x :: y :: l'
      else y :: sortInsert x l'
  end.

Fixpoint sort (l : list A) : list A :=
  match l with
  | [] => []
  | x :: l' => sortInsert x (sort l')
  end.

End JsSort.

(** [x] may stand before [y] in an array sorted with [compareFn]. *)
Definition before {A : Type} (compareFn : A → A → Z) (x y : A) : Prop :=
  (compareFn x y <= 0)%Z.

(** ** Atom's [TextBuffer] *)

(** The line separator of the modelled buffers. *)
Definition LF : ascii := "010"%char.

(** The lines of a text; a text always has at least one line. *)
Fixpoint splitLines (s : string) : list string :=
  match s with
  | EmptyString => [""]
  | String c s' =>
      if Ascii.eqb c LF then "" :: splitLines s'
      else match splitLines s' with
           | [] => [String c ""]
           | l :: ls => String c l :: ls
           end
  end.

(** The text of a list of lines. *)
Fixpoint joinLines (ls : list string) : string :=
  match ls with
  | [] => ""
  | [l] => l
  | l :: ls' => l +:+ String LF (joinLines ls')
  end.

(** An entry of the undo stack: a checkpoint marker, or a change with the
    lines it replaced. *)
Inductive HistoryEntry : Type :=
  | Checkpoint (id : nat)
  | Transaction (oldLines : list string).

(** Modelled from the spec: the document-buffer storage engine is an
    external collaborator (spec, section 1), consumed through
    [setTextInRange] ("replace text in [start, end) with the edit's
    replacement string"), [lineLengthForRow], [getPath] and the
    checkpoint contract (spec, section 3: a token "which can later be
    used to revert that buffer to its pre-batch state").  A buffer is its
    path, its lines (separated by line feeds; the normalization of line
    endings is left out), and an undo stack, newest entry first, on which
    checkpoints are markers and every change records the lines it
    replaced. *)
Record TextBuffer : Type := mkTextBuffer {
  path : option string;
  lines : list string;
  undoStack : list HistoryEntry;
  nextCheckpointId : nat
}.

(** A buffer freshly opened on a text. *)
Definition newTextBuffer (path : option string) (text : string) : TextBuffer :=
  {| path := path; lines := splitLines text; undoStack := [];
     nextCheckpointId := 1 |}.

Definition getText (b : TextBuffer) : string := joinLines b.(lines).

Definition getPath (b : TextBuffer) : option string := b.(path).

(** [lineLengthForRow]: [undefined] beyond the last row. *)
Definition lineLengthForRow (b : TextBuffer) (row : nat) : option nat :=
  String.length <$> (b.(lines) !! row).

Definition getLastRow (b : TextBuffer) : nat := pred (length b.(lines)).

(** The line of a row, empty beyond the last row. *)
Definition lineForRow (ls : list string) (row : nat) : string :=
  default "" (ls !! row).

(** [clipPosition]: the nearest position of the buffer, the end of the
    buffer beyond the last row, the end of the row beyond its length. *)
Definition clipPosition (ls : list string) (p : Point.t) : Point.t :=
  let lastRow := pred (length ls) in
  if lastRow <? p.(Point.row)
  then Point.mk lastRow (String.length (lineForRow ls lastRow))
  else
    let lineLength := String.length (lineForRow ls p.(Point.row)) in
    if lineLength <? p.(Point.column)
    then Point.mk p.(Point.row) lineLength
    else p.

(** [clipRange]: both ends clipped. *)
Definition clipRange (ls : list string) (r : Range.t) : Range.t :=
  let start := clipPosition ls r.(Range.start) in
  let end_ := clipPosition ls r.(Range.end_) in
  if bool_decide (r.(Range.start) = start) && bool_decide (r.(Range.end_) = end_)
  then r
  else Range.new start end_.

(** The lines with [suffix] appended to the last of them. *)
Fixpoint appendToLast (ls : list string) (suffix : string) : list string :=
  match ls with
  | [] => [suffix]
  | [l] => [l +:+ suffix]
  | l :: ls' => l :: appendToLast ls' suffix
  end.

(** The lines with [prefix] put before the first of them. *)
Definition prependToFirst (prefix : string) (ls : list string) : list string :=
  match ls with
  | [] => [prefix]
  | l :: ls' => (prefix +:+ l) :: ls'
  end.

(** The lines of the buffer once [newText] stands in place of the
    (clipped) range. *)
Definition replaceInLines (ls : list string) (r : Range.t) (newText : string)
  : list string :=
  let r := clipRange ls r in
  let s := r.(Range.start) in
  let e := r.(Range.end_) in
  let prefix := String.substring 0 s.(Point.column) (lineForRow ls s.(Point.row)) in
  let endLine := lineForRow ls e.(Point.row) in
  let suffix :=
    String.substring e.(Point.column)
      (String.length endLine - e.(Point.column)) endLine in
  take s.(Point.row) ls
    ++ appendToLast (prependToFirst prefix (splitLines newText)) suffix
    ++ drop (S e.(Point.row)) ls.

(** [setTextInRange]: substitute, and record the change on the undo
    stack. *)
Definition setTextInRange (b : TextBuffer) (r : Range.t) (newText : string)
  : TextBuffer :=
  {| path := b.(path);
     lines := replaceInLines b.(lines) r newText;
     undoStack := Transaction b.(lines) :: b.(undoStack);
     nextCheckpointId := b.(nextCheckpointId) |}.

(** [createCheckpoint]: a fresh marker on top of the undo stack. *)
Definition createCheckpoint (b : TextBuffer) : TextBuffer * nat :=
  let id := b.(nextCheckpointId) in
  ({| path := b.(path);
      lines := b.(lines);
      undoStack := Checkpoint id :: b.(undoStack);
      nextCheckpointId := S id |}, id).

(** Walk the undo stack from its top down to the checkpoint, undoing
    every change met on the way; [None] when the checkpoint is no
    longer on the stack. *)
Fixpoint unwindTo (id : nat) (stack : list HistoryEntry) (current : list string)
  : option (list string * list HistoryEntry) :=
  match stack with
  | [] => None
  | Checkpoint i :: rest =>
      if i =? id then Some (current, rest) else unwindTo id rest current
  | Transaction before :: rest => unwindTo id rest before
  end.

(** [revertToCheckpoint]: the lines are those of when the checkpoint was
    created; the checkpoint and everything above it leave the stack.  A
    checkpoint that is not on the stack changes nothing. *)
Definition revertToCheckpoint (b : TextBuffer) (id : nat) : TextBuffer * bool :=
  match unwindTo id b.(undoStack) b.(lines) with
  | Some (ls, rest) =>
      ({| path := b.(path); lines := ls; undoStack := rest;
          nextCheckpointId := b.(nextCheckpointId) |}, true)
  | None => (b, false)
  end.

(** Whether a change lies on the stack above the checkpoint. *)
Fixpoint changedSince (id : nat) (stack : list HistoryEntry) : bool :=
  match stack with
  | [] => false
  | Checkpoint i :: rest => if i =? id then false else changedSince id rest
  | Transaction _ :: _ => true
  end.

(** [groupChangesSinceCheckpoint]: the changes above the checkpoint
    become one transaction; the checkpoint itself stays. *)
Definition groupChangesSinceCheckpoint (b : TextBuffer) (id : nat)
  : TextBuffer * bool :=
  match unwindTo id b.(undoStack) b.(lines) with
  | Some (ls, rest) =>
      ({| path := b.(path);
          lines := b.(lines);
          undoStack :=
            if changedSince id b.(undoStack)
            then Transaction ls :: Checkpoint id :: rest
            else b.(undoStack);
          nextCheckpointId := b.(nextCheckpointId) |}, true)
  | None => (b, false)
  end.

(** ** JavaScript objects *)

(** A property of a JavaScript object: not there at all, there with the
    value [undefined] (or [null]), or there with a value. *)
Inductive Property (A : Type) : Type :=
  | NoProperty
  | UndefinedValue
  | Value (value : A).
Arguments NoProperty {A}.
Arguments UndefinedValue {A}.
Arguments Value {A} value.

(** [object.hasOwnProperty(name)], on the property of that name. *)
Definition hasOwnProperty {A : Type} (p : Property A) : bool :=
  match p with NoProperty => false | _ => true end.

(** [p || fallback]: arrays and objects are truthy, empty ones too. *)
Definition orElse {A : Type} (p : Property A) (fallback : A) : A :=
  match p with Value a => a | _ => fallback end.

(** An object used as a map, as the list of its entries in the order
    [Object.keys] lists them. *)
Definition JsObject (V : Type) : Type := list (string * V).

(** [Object.keys(o)]. *)
Definition objectKeys {V : Type} (o : JsObject V) : list string := map fst o.

(** [o[key]]. *)
Fixpoint getProperty {V : Type} (o : JsObject V) (key : string) : option V :=
  match o with
  | [] => None
  | (k, v) :: o' => if String.eqb k key then Some v else getProperty o' key
  end.

(** ** Protocol types (vscode-languageserver-protocol) *)

Module Lsp.

Record Position : Type := mkPosition { line : nat; character : nat }.

Record Range : Type := mkRange { start : Position; end_ : Position }.

Record TextEdit : Type := mkTextEdit { range : Range; newText : string }.

Record VersionedTextDocumentIdentifier : Type :=
  mkTextDocument { uri : string; version : option nat }.

Record TextDocumentEdit : Type := mkTextDocumentEdit {
  textDocument : VersionedTextDocumentIdentifier;
  edits : list TextEdit
}.

#[global] Instance Position_eq_dec : EqDecision Position.
Proof. solve_decision. Defined.
#[global] Instance Range_eq_dec : EqDecision Range.
Proof. solve_decision. Defined.
#[global] Instance TextEdit_eq_dec : EqDecision TextEdit.
Proof. solve_decision. Defined.

(** The options of [CreateFile] and [RenameFile]. *)
Record FileOptions : Type :=
  mkFileOptions { overwrite : option bool; ignoreIfExists : option bool }.

Record DeleteFileOptions : Type :=
  mkDeleteFileOptions { recursive : option bool; ignoreIfNotExists : option bool }.

(** An entry of [documentChanges]: a text-document batch or one of the
    three resource operations. *)
Inductive DocumentChange : Type :=
  | TextDocumentEditChange (edit : TextDocumentEdit)
  | CreateFile (uri : string) (options : option FileOptions)
  | RenameFile (oldUri newUri : string) (options : option FileOptions)
  | DeleteFile (uri : string) (options : option DeleteFileOptions).

(** A workspace edit, with its two optional properties. *)
Record WorkspaceEdit : Type := mkWorkspaceEdit {
  documentChanges : Property (list DocumentChange);
  changes : Property (JsObject (list TextEdit))
}.

End Lsp.

(** The editor-side edit ([atomIde.TextEdit]). *)
Module AtomIde.

Record TextEdit : Type := mkTextEdit { oldRange : Range.t; newText : string }.

#[global] Instance TextEdit_eq_dec : EqDecision TextEdit.
Proof. solve_decision. Defined.

End AtomIde.

Module Convert.

(** Modelled from the spec: [Convert.positionToPoint] is not among the
    sources; line and character are the row and the column (spec,
    section 6). *)
Definition positionToPoint (position : Lsp.Position) : Point.t :=
  Point.mk position.(Lsp.line) position.(Lsp.character).

(** Modelled from the spec: [Convert.lsRangeToAtomRange] is not among
    the sources; the range over the same two positions, built by the
    [Range] constructor. *)
Definition lsRangeToAtomRange (range : Lsp.Range) : Range.t :=
  Range.new (positionToPoint range.(Lsp.start))
            (positionToPoint range.(Lsp.end_)).

(** Modelled from the spec: [Convert.convertLsTextEdit] is not among the
    sources; a protocol edit keeps its replacement string and its range
    becomes an Atom range (spec, section 3: "a half-open range [start,
    end) in document coordinates (row, column) plus a replacement
    string. Invariant: start <= end"). *)
Definition convertLsTextEdit (textEdit : Lsp.TextEdit) : AtomIde.TextEdit :=
  AtomIde.mkTextEdit (lsRangeToAtomRange textEdit.(Lsp.range))
                     textEdit.(Lsp.newText).

End Convert.

(** ** The document edit applier *)

(** [validateEdit]: [Return tt] when the edit passes, [Throw] with the
    error the source raises otherwise. *)
Definition validateEdit (buffer : TextBuffer) (edit : AtomIde.TextEdit)
    (prevEdit : option AtomIde.TextEdit) : Result unit :=
  let path := default "" (getPath buffer) in
  let overlapping :=
    match prevEdit with
    | Some prev =>
        (0 <? Point.compare edit.(AtomIde.oldRange).(Range.end_)
                            prev.(AtomIde.oldRange).(Range.start))%Z
    | None => false
    end in
  if overlapping then Throw (OverlapError path)
  else
    let startRow := edit.(AtomIde.oldRange).(Range.start).(Point.row) in
    let startCol := edit.(AtomIde.oldRange).(Range.start).(Point.column) in
    match lineLengthForRow buffer startRow with
    | None => Throw (OutOfRangeError path (startRow + 1) (startCol + 1))
    | Some lineLength =>
        if lineLength <? startCol
        then Throw (OutOfRangeError path (startRow + 1) (startCol + 1))
        else Return tt
    end.

(** The [reduce] over the sorted edits: validate against the edit applied
    just before, substitute, carry the edit on.  A throw leaves the
    buffer as the edits applied so far made it. *)
Fixpoint reduceEdits (buffer : TextBuffer) (previous : option AtomIde.TextEdit)
    (atomEdits : list AtomIde.TextEdit)
  : TextBuffer * Result (option AtomIde.TextEdit) :=
  match atomEdits with
  | [] => (buffer, Return previous)
  | current :: rest =>
      match validateEdit buffer current previous with
      | Throw err => (buffer, Throw err)
      | Return _ =>
          reduceEdits
            (setTextInRange buffer current.(AtomIde.oldRange)
                            current.(AtomIde.newText))
            (Some current) rest
      end
  end.

(** The comparator handed to [sort]: reverse range order. *)
Definition reverseRangeOrder (edit1 edit2 : AtomIde.TextEdit) : Z :=
  (- Range.compare edit1.(AtomIde.oldRange) edit2.(AtomIde.oldRange))%Z.

(** [handleTextDocumentEdit]: the buffer after the call, and either the
    checkpoint returned or the error rethrown. *)
Definition handleTextDocumentEdit (buffer : TextBuffer)
    (edit : Lsp.TextDocumentEdit) : TextBuffer * Result nat :=
  let atomEdits := map Convert.convertLsTextEdit edit.(Lsp.edits) in
  let '(buffer, checkpoint) := createCheckpoint buffer in
  match reduceEdits buffer None (sort reverseRangeOrder atomEdits) with
  | (buffer, Return _) =>
      (fst (groupChangesSinceCheckpoint buffer checkpoint), Return checkpoint)
  | (buffer, Throw err) =>
      (fst (revertToCheckpoint buffer checkpoint), Throw err)
  end.

(** ** Workspace edits and their normalization *)

(** [isTextDocumentEdit]: the entry has edits. *)
Definition isTextDocumentEdit (edit : Lsp.DocumentChange) : bool :=
  match edit with Lsp.TextDocumentEditChange _ => true | _ => false end.

(** [normalizeChanges]: the [documentChanges] list, or, when that key is
    missing and [changes] is there, one batch per key of [changes],
    pushed in the order of the keys. *)
Definition normalizeChanges (workspaceEdit : Lsp.WorkspaceEdit) : list Lsp.DocumentChange :=
  let changes := orElse workspaceEdit.(Lsp.documentChanges) [] in
  if negb (hasOwnProperty workspaceEdit.(Lsp.documentChanges))
     && hasOwnProperty workspaceEdit.(Lsp.changes)
  then
    let uris := objectKeys (orElse workspaceEdit.(Lsp.changes) []) in
    fold_left
      (λ changes uri,
         changes ++
           [Lsp.TextDocumentEditChange
              (Lsp.mkTextDocumentEdit
                 (Lsp.mkTextDocument uri None)
                 (default []
                    (getProperty (orElse workspaceEdit.(Lsp.changes) []) uri)))])
      uris changes
  else changes.

(** ** Resource operations *)

(** Modelled from the spec: the file system behind [fs.promises] is a
    flat map from paths to file contents (spec, section 4.3: delete
    "fails if the path does not exist", rename "fails if the source is
    missing", create writes "an empty file", with "no existence check").
    [fs.promises.unlink] fails when there is no such file. *)
Definition unlink (path : string) (files : gmap string string)
  : gmap string string * Result unit :=
  match files !! path with
  | Some _ => (delete path files, Return tt)
  | None => (files, Throw (IoError "ENOENT" path))
  end.

(** Modelled from the spec: [fs.promises.rename], which fails when the
    source is missing and replaces the destination otherwise. *)
Definition rename (oldPath newPath : string) (files : gmap string string)
  : gmap string string * Result unit :=
  match files !! oldPath with
  | Some data => (<[newPath := data]> (delete oldPath files), Return tt)
  | None => (files, Throw (IoError "ENOENT" oldPath))
  end.

(** Modelled from the spec: [fs.promises.writeFile], which creates the
    file or replaces its content. *)
Definition writeFile (file data : string) (files : gmap string string)
  : gmap string string * Result unit :=
  (<[file := data]> files, Return tt).

(** A resolution of [file:] URIs, for the examples: the path is what
    follows the scheme; any other string is returned as it is. *)
Definition fileUriToPath (uri : string) : string :=
  if String.prefix "file://" uri
  then String.substring 7 (String.length uri - 7) uri
  else uri.

(** ** The workspace and the transaction coordinator *)

(** An error notification of the editor. *)
Record Notification : Type := mkNotification {
  title : string;
  description : string;
  detail : string
}.

(** What an apply call acts on: the buffers of the editor by path (a
    buffer is shared by reference, so it is named by its path), the files
    on disk, and the error notifications shown so far. *)
Record Workspace : Type := mkWorkspace {
  buffers : gmap string TextBuffer;
  files : gmap string string;
  notifications : list Notification
}.

(** [atom.workspace.open(path).getBuffer()]: the buffer already open for
    the path, or a buffer opened on the file's content (empty when there
    is no such file). *)
Definition openBuffer (workspace : Workspace) (path : string) : TextBuffer :=
  match workspace.(buffers) !! path with
  | Some buffer => buffer
  | None => newTextBuffer (Some path) (default "" (workspace.(files) !! path))
  end.

(** The workspace with the buffer of a path replaced. *)
Definition setBuffer (workspace : Workspace) (path : string) (buffer : TextBuffer)
  : Workspace :=
  {| buffers := <[path := buffer]> workspace.(buffers);
     files := workspace.(files);
     notifications := workspace.(notifications) |}.

(** [atom.notifications.addError]. *)
Definition addError (workspace : Workspace) (n : Notification) : Workspace :=
  {| buffers := workspace.(buffers);
     files := workspace.(files);
     notifications := workspace.(notifications) ++ [n] |}.

(** [buffer.revertToCheckpoint(checkpoint)] on the buffer a recorded
    checkpoint refers to. *)
Definition revertRecorded (workspace : Workspace) (entry : string * nat) : Workspace :=
  let '(path, checkpoint) := entry in
  setBuffer workspace path
    (fst (revertToCheckpoint (openBuffer workspace path) checkpoint)).

(** The state of one [handleDocumentChanges] call on the event loop:
    - [checkpoints]: the array the closures push to;
    - [resumed]: the tasks whose [await getBuffer] has returned;
    - [rejection]: the reason [Promise.all] rejected with, the first
      rejection among the mapped promises;
    - [applied]: the value of [applied], once the awaited chain has
      settled. *)
Record Call : Type := mkCall {
  workspace : Workspace;
  checkpoints : list (string * nat);
  resumed : list nat;
  rejection : option Error;
  applied : option bool
}.

(** What the event loop runs next for the call: the rest of the closure
    of a text-document task, whose buffer has been resolved, or the
    reaction chained on [Promise.all], which has something to do as soon
    as one promise is rejected. *)
Inductive Event : Type :=
  | Resume (task : nat)
  | React.


Section Handler.

(** [Convert.uriToPath] is not among the sources: the handler is
    modelled for every resolution of URIs to paths. *)
Context (uriToPath : string → string).

(** [handleResourceOperation]: the file system after the operation and
    how the promise it returns settles. *)
Definition handleResourceOperation (edit : Lsp.DocumentChange) (files : gmap string string)
  : gmap string string * Result unit :=
  match edit with
  | Lsp.DeleteFile uri _ => unlink (uriToPath uri) files
  | Lsp.RenameFile oldUri newUri _ => rename (uriToPath oldUri) (uriToPath newUri) files
  | Lsp.CreateFile uri _ => writeFile uri "" files
  | Lsp.TextDocumentEditChange _ => (files, Return tt)
  end.

(** [getBuffer]: the buffer of the document, named by the path the URI
    resolves to. *)
Definition getBuffer (workspace : Workspace) (uri : string) : string * TextBuffer :=
  let path := uriToPath uri in
  (path, openBuffer workspace path).

(** [changes.map(async (edit) => ...)] up to the first [await] of each
    closure: a text-document task suspends on [getBuffer]; a resource
    task calls [handleResourceOperation], drops the promise it returns
    and is fulfilled.  The effect of the operation on the files is taken
    at once, in the order of the list; how its promise settles is
    observed by nobody. *)
Definition launch (changes : list Lsp.DocumentChange) (ws : Workspace) : Call :=
  fold_left
    (λ call edit,
       if isTextDocumentEdit edit then call
       else
         let ws := call.(workspace) in
         {| workspace :=
              {| buffers := ws.(buffers);
                 files := fst (handleResourceOperation edit ws.(files));
                 notifications := ws.(notifications) |};
            checkpoints := call.(checkpoints);
            resumed := call.(resumed);
            rejection := call.(rejection);
            applied := call.(applied) |})
    changes
    {| workspace := ws; checkpoints := []; resumed := [];
       rejection := None; applied := None |}.

(** The closure of a text-document task from its [await] on: apply the
    batch to the buffer, then push the checkpoint; a throw rejects the
    task's promise, and [Promise.all] with it unless it is rejected
    already. *)
Definition resume (changes : list Lsp.DocumentChange) (task : nat) (call : Call) : Call :=
  if bool_decide (task ∈ call.(resumed)) then call
  else
    match changes !! task with
    | Some (Lsp.TextDocumentEditChange edit) =>
        let '(path, buffer) :=
          getBuffer call.(workspace) edit.(Lsp.textDocument).(Lsp.uri) in
        let '(buffer, outcome) := handleTextDocumentEdit buffer edit in
        let ws := setBuffer call.(workspace) path buffer in
        match outcome with
        | Return checkpoint =>
            {| workspace := ws;
               checkpoints := call.(checkpoints) ++ [(path, checkpoint)];
               resumed := task :: call.(resumed);
               rejection := call.(rejection);
               applied := call.(applied) |}
        | Throw err =>
            {| workspace := ws;
               checkpoints := call.(checkpoints);
               resumed := task :: call.(resumed);
               rejection :=
                 match call.(rejection) with
                 | Some first => Some first
                 | None => Some err
                 end;
               applied := call.(applied) |}
        end
    | _ => call
    end.

(** The [catch] callback: notify, revert every checkpoint recorded so
    far, and answer [false]. *)
Definition onRejected (err : Error) (call : Call) : Call :=
  let ws :=
    addError call.(workspace)
      (mkNotification "workspace/applyEdits failed" "Failed to apply edits."
                      (message err)) in
  {| workspace := fold_left revertRecorded call.(checkpoints) ws;
     checkpoints := call.(checkpoints);
     resumed := call.(resumed);
     rejection := call.(rejection);
     applied := Some false |}.

(** The reaction to a rejection of [Promise.all(promises)]: it runs
    once. *)
Definition react (call : Call) : Call :=
  match call.(applied), call.(rejection) with
  | None, Some err => onRejected err call
  | _, _ => call
  end.

(** One turn of the event loop for the call. *)
Definition step (changes : list Lsp.DocumentChange) (call : Call) (event : Event) : Call :=
  match event with
  | Resume task => resume changes task call
  | React => react call
  end.

(** Once every task has resumed every promise has settled:
    [Promise.all] is rejected, and the reaction runs unless it has, or
    it is fulfilled and [applied] is [true]. *)
Definition finish (call : Call) : Workspace * bool :=
  match (react call).(applied) with
  | Some applied => ((react call).(workspace), applied)
  | None => (call.(workspace), true)
  end.

(** [handleDocumentChanges]: the call under a schedule of the event
    loop.  Whatever the schedule leaves out comes after it: every task
    still suspended resumes, in the order of the list; so the call
    returns under every schedule. *)
Definition handleDocumentChanges (changes : list Lsp.DocumentChange)
    (schedule : list Event) (ws : Workspace) : Workspace * bool :=
  let call := launch changes ws in
  let call := fold_left (step changes) schedule call in
  let call := fold_left (step changes) (Resume <$> seq 0 (length changes)) call in
  finish call.

(** [handle]: normalize, then apply. *)
Definition handle (workspaceEdit : Lsp.WorkspaceEdit) (schedule : list Event)
    (ws : Workspace) : Workspace * bool :=
  let changes := normalizeChanges workspaceEdit in
  handleDocumentChanges changes schedule ws.

End Handler.

(** ** Predicates the statements use *)

(** [p] lies before [q], through [Point.compare] as the code uses it. *)
Definition pointLtb (p q : Point.t) : bool := (Point.compare p q <? 0)%Z.

(** Two half-open ranges truly overlap: each starts before the other
    ends. *)
Definition overlaps (r1 r2 : Range.t) : bool :=
  pointLtb r1.(Range.start) r2.(Range.end_)
  && pointLtb r2.(Range.start) r1.(Range.end_).

(** Two ranges are adjacent: one ends where the other starts. *)
Definition adjacent (r1 r2 : Range.t) : bool :=
  bool_decide (r1.(Range.end_) = r2.(Range.start))
  || bool_decide (r2.(Range.end_) = r1.(Range.start)).

(** An insertion sitting on the start of a non-empty range: the two
    ranges share their start and differ in their end. *)
Definition insertionAtStart (r1 r2 : Range.t) : bool :=
  bool_decide (r1.(Range.start) = r2.(Range.start))
  && negb (bool_decide (r1.(Range.end_) = r2.(Range.end_))).

(** The position exists in the lines: its row does, and its column is at
    most that row's length. *)
Definition positionInRange (ls : list string) (p : Point.t) : bool :=
  match ls !! p.(Point.row) with
  | Some l => p.(Point.column) <=? String.length l
  | None => false
  end.

(** The check of [validateEdit] on the start of an edit. *)
Definition startInRange (b : TextBuffer) (e : AtomIde.TextEdit) : bool :=
  positionInRange b.(lines) e.(AtomIde.oldRange).(Range.start).

(** Start and end of the edit are positions of the buffer. *)
Definition editInRange (b : TextBuffer) (e : AtomIde.TextEdit) : bool :=
  positionInRange b.(lines) e.(AtomIde.oldRange).(Range.start)
  && positionInRange b.(lines) e.(AtomIde.oldRange).(Range.end_).

(** [R] holds of every two entries of the list at different places. *)
Fixpoint pairwise {A : Type} (R : A → A → bool) (l : list A) : bool :=
  match l with
  | [] => true
  | x :: l' => forallb (R x) l' && pairwise R l'
  end.

(** The edits of a batch as [handleTextDocumentEdit] converts them. *)
Definition atomEditsOf (edits : list Lsp.TextEdit) : list AtomIde.TextEdit :=
  map Convert.convertLsTextEdit edits.

(** The ranges of the two edits truly overlap. *)
Definition editsOverlap (e1 e2 : AtomIde.TextEdit) : bool :=
  overlaps e1.(AtomIde.oldRange) e2.(AtomIde.oldRange).

(** The two edits cannot both pass [validateEdit]: their ranges
    overlap, or one is an insertion at the start of the other. *)
Definition editsConflict (e1 e2 : AtomIde.TextEdit) : bool :=
  overlaps e1.(AtomIde.oldRange) e2.(AtomIde.oldRange)
  || insertionAtStart e1.(AtomIde.oldRange) e2.(AtomIde.oldRange).

(** No overlap. *)
Definition disjointEdits (e1 e2 : AtomIde.TextEdit) : bool :=
  negb (editsOverlap e1 e2).

(** No conflict. *)
Definition compatibleEdits (e1 e2 : AtomIde.TextEdit) : bool :=
  negb (editsConflict e1 e2).

(** Two insertions at one position with different text. *)
Definition rivalInsertions (e1 e2 : AtomIde.TextEdit) : bool :=
  Range.isEmpty e1.(AtomIde.oldRange)
  && bool_decide (e1.(AtomIde.oldRange) = e2.(AtomIde.oldRange))
  && negb (bool_decide (e1.(AtomIde.newText) = e2.(AtomIde.newText))).

Definition noRivalInsertions (e1 e2 : AtomIde.TextEdit) : bool :=
  negb (rivalInsertions e1 e2).

(** The batch a key of the legacy map stands for. *)
Definition legacyBatch (entry : string * list Lsp.TextEdit) : Lsp.DocumentChange :=
  Lsp.TextDocumentEditChange
    (Lsp.mkTextDocumentEdit (Lsp.mkTextDocument entry.1 None) entry.2).

(** The text of the document at a path, open or not. *)
Definition textOf (ws : Workspace) (path : string) : string :=
  getText (openBuffer ws path).

(** ** Validation, as the proofs see it *)

(** The range of the edit has [start <= end]: the [Range] constructor
    sees to it. *)
Definition ordered (e : AtomIde.TextEdit) : Prop :=
  Point.le e.(AtomIde.oldRange).(Range.start) e.(AtomIde.oldRange).(Range.end_).

(** The overlap test of [validateEdit]. *)
Definition endsAfterStartOf (edit : AtomIde.TextEdit)
    (prevEdit : option AtomIde.TextEdit) : bool :=
  match prevEdit with
  | Some prev =>
      (0 <? Point.compare edit.(AtomIde.oldRange).(Range.end_)
                          prev.(AtomIde.oldRange).(Range.start))%Z
  | None => false
  end.

(** The out-of-range error [validateEdit] throws for an edit. *)
Definition outOfRangeAt (path : option string) (edit : AtomIde.TextEdit) : Error :=
  OutOfRangeError (default "" path)
    (edit.(AtomIde.oldRange).(Range.start).(Point.row) + 1)
    (edit.(AtomIde.oldRange).(Range.start).(Point.column) + 1).

(** What the lines of the buffer under mutation share with the lines of
    before the call, once the edit [prev] has been applied: every row
    above the start of [prev], and the start of [prev] is a position of
    both. *)
Definition tracks (ls ls0 : list string) (prev : option AtomIde.TextEdit) : Prop :=
  match prev with
  | None => ls = ls0
  | Some p =>
      let s := p.(AtomIde.oldRange).(Range.start) in
      (∀ row, row < s.(Point.row) → ls !! row = ls0 !! row)
      ∧ positionInRange ls s = true
      ∧ positionInRange ls0 s = true
  end.

(** Validation of a whole list against one fixed buffer. *)
Fixpoint validateAll (b : TextBuffer) (prev : option AtomIde.TextEdit)
    (es : list AtomIde.TextEdit) : Result (option AtomIde.TextEdit) :=
  match es with
  | [] => Return prev
  | cur :: rest =>
      match validateEdit b cur prev with
      | Throw err => Throw err
      | Return _ => validateAll b (Some cur) rest
      end
  end.

(** Every edit ends at or before the start of the edit in front of it. *)
Fixpoint chained (prev : option AtomIde.TextEdit) (es : list AtomIde.TextEdit) : Prop :=
  match es with
  | [] => True
  | cur :: rest => endsAfterStartOf cur prev = false ∧ chained (Some cur) rest
  end.

(** ** A call of two batches, as the proofs see it *)

(** Where a call of two text-document batches stands, the first of
    which succeeds and the second of which throws: the reaction to the
    rejection has not run, and [a], [b] tell which closures have resumed;
    or it ran with the first batch's checkpoint recorded; or it ran before
    the first closure resumed, and [a] tells whether that closure has
    resumed since. *)
Inductive Stage : Type :=
  | Pending (a b : bool)
  | Reverted
  | Missed (a : bool).

Definition advance (stage : Stage) (event : Event) : Stage :=
  match event with
  | Resume 0 =>
      match stage with
      | Pending _ b => Pending true b
      | Missed _ => Missed true
      | Reverted => Reverted
      end
  | Resume 1 =>
      match stage with
      | Pending a _ => Pending a true
      | _ => stage
      end
  | Resume _ => stage
  | React =>
      match stage with
      | Pending a true => if a then Reverted else Missed false
      | _ => stage
      end
  end.

(** The schedule lets the reaction to the second task's rejection run
    before the first task resumes; [second] tells whether the second task
    has resumed. *)
Fixpoint rejectionHandledFirst (second : bool) (schedule : list Event) : bool :=
  match schedule with
  | [] => false
  | Resume 0 :: _ => false
  | Resume 1 :: rest => rejectionHandledFirst true rest
  | Resume _ :: rest => rejectionHandledFirst second rest
  | React :: rest => second || rejectionHandledFirst second rest
  end.

(** What a stage says of the state of the call: [bufferA0] and
    [bufferB0] are the two buffers before the call, [bufferA1] is the
    first once its batch is applied. *)
Definition atStage (pathA pathB : string) (bufferA0 bufferA1 bufferB0 : TextBuffer)
    (checkpoint : nat) (err : Error) (stage : Stage) (call : Call) : Prop :=
  let ws := call.(workspace) in
  match stage with
  | Pending a b =>
      call.(applied) = None
      ∧ (0 ∈ call.(resumed) ↔ a = true)
      ∧ (1 ∈ call.(resumed) ↔ b = true)
      ∧ (if a
         then call.(checkpoints) = [(pathA, checkpoint)]
              ∧ ws.(buffers) !! pathA = Some bufferA1
         else call.(checkpoints) = [] ∧ openBuffer ws pathA = bufferA0)
      ∧ (if b
         then call.(rejection) = Some err
              ∧ textOf ws pathB = getText bufferB0
         else call.(rejection) = None ∧ openBuffer ws pathB = bufferB0)
  | Reverted =>
      call.(applied) = Some false
      ∧ 0 ∈ call.(resumed) ∧ 1 ∈ call.(resumed)
      ∧ textOf ws pathA = getText bufferA0
      ∧ textOf ws pathB = getText bufferB0
  | Missed a =>
      call.(applied) = Some false
      ∧ (0 ∈ call.(resumed) ↔ a = true)
      ∧ 1 ∈ call.(resumed)
      ∧ (if a then textOf ws pathA = getText bufferA1
         else openBuffer ws pathA = bufferA0)
      ∧ textOf ws pathB = getText bufferB0
  end.

(** ** Documents and batches of the scenarios *)

Definition lsEdit (r1 c1 r2 c2 : nat) (newText : string) : Lsp.TextEdit :=
  Lsp.mkTextEdit
    (Lsp.mkRange (Lsp.mkPosition r1 c1) (Lsp.mkPosition r2 c2)) newText.

Definition batch (uri : string) (edits : list Lsp.TextEdit) : Lsp.TextDocumentEdit :=
  Lsp.mkTextDocumentEdit (Lsp.mkTextDocument uri None) edits.

Definition helloWorld : TextBuffer := newTextBuffer None "hello world".

Definition hello : TextBuffer := newTextBuffer None "hello".

Definition twoRows : TextBuffer :=
  newTextBuffer None ("ab" +:+ String LF "cd").

Definition twoDocuments : Workspace :=
  {| buffers :=
       <["/a" := newTextBuffer (Some "/a") "hello"]>
         (<["/b" := newTextBuffer (Some "/b") "world"]> ∅);
     files := ∅;
     notifications := [] |}.

Definition editA : Lsp.TextDocumentEdit :=
  batch "file:///a" [lsEdit 0 0 0 5 "HELLO"].

Definition editB : Lsp.TextDocumentEdit :=
  batch "file:///b" [lsEdit 9 0 9 0 "x"].

Definition batchA : Lsp.DocumentChange := Lsp.TextDocumentEditChange editA.

Definition batchB : Lsp.DocumentChange := Lsp.TextDocumentEditChange editB.

Definition renameMissing : Lsp.DocumentChange :=
  Lsp.RenameFile "file:///missing" "file:///c" None.

(** ** Further predicates on calls *)

(** The notification the [catch] callback of [handleDocumentChanges]
    shows for an error. *)
Definition failureNotification (err : Error) : Notification :=
  mkNotification "workspace/applyEdits failed" "Failed to apply edits."
                 (message err).

(** The paths of the documents the text-document entries name. *)
Definition batchPaths (uriToPath : string → string)
    (changes : list Lsp.DocumentChange) : list string :=
  omap (λ edit,
          match edit with
          | Lsp.TextDocumentEditChange e =>
              Some (uriToPath e.(Lsp.textDocument).(Lsp.uri))
          | _ => None
          end) changes.

(** What every state of a call keeps, whatever the changes and the
    schedule: the files are those left by the launch, buffers outside the
    named documents are those of before the call, recorded checkpoints
    belong to named documents, and a notification is shown exactly when
    the reaction to a rejection has run. *)
Definition callInvariant (uriToPath : string → string)
    (changes : list Lsp.DocumentChange) (ws : Workspace) (call : Call) : Prop :=
  call.(workspace).(files) = (launch uriToPath changes ws).(workspace).(files)
  ∧ (∀ path, path ∉ batchPaths uriToPath changes →
       call.(workspace).(buffers) !! path = ws.(buffers) !! path)
  ∧ (∀ entry, entry ∈ call.(checkpoints) → entry.1 ∈ batchPaths uriToPath changes)
  ∧ call.(applied) ≠ Some true
  ∧ match call.(applied) with
    | None => call.(workspace).(notifications) = ws.(notifications)
    | Some _ =>
        ∃ err, call.(rejection) = Some err
               ∧ call.(workspace).(notifications)
                 = ws.(notifications) ++ [failureNotification err]
    end.

(** The path a text-document batch resolves to. *)
Definition batchPath (uriToPath : string → string) (edit : Lsp.TextDocumentEdit)
  : string :=
  uriToPath edit.(Lsp.textDocument).(Lsp.uri).

(** Where a call of text-document batches stands while none has thrown:
    the buffer of a batch whose closure has resumed holds the batch, the
    buffer of any other batch is as the call found it. *)
Definition committing (uriToPath : string → string)
    (edits : list Lsp.TextDocumentEdit) (ws : Workspace) (call : Call) : Prop :=
  call.(rejection) = None
  ∧ call.(applied) = None
  ∧ call.(workspace).(notifications) = ws.(notifications)
  ∧ ∀ task edit,
      edits !! task = Some edit →
      let path := batchPath uriToPath edit in
      if bool_decide (task ∈ call.(resumed))
      then call.(workspace).(buffers) !! path
           = Some (fst (handleTextDocumentEdit (openBuffer ws path) edit))
      else openBuffer call.(workspace) path = openBuffer ws path.

(** Where a call of text-document batches stands as long as the
    reaction to a rejection has not run: the buffer of a batch whose
    closure has resumed is the one the applier left, with its checkpoint
    recorded if the batch was applied and the call rejected if it threw;
    the buffer of any other batch is as the call found it.  No document
    has two checkpoints. *)
Definition settling (uriToPath : string → string)
    (edits : list Lsp.TextDocumentEdit) (ws : Workspace) (call : Call) : Prop :=
  call.(applied) = None
  ∧ NoDup (call.(checkpoints).*1)
  ∧ (∀ path checkpoint,
       (path, checkpoint) ∈ call.(checkpoints) →
       ∃ edit,
         edit ∈ edits ∧ path = batchPath uriToPath edit
         ∧ snd (handleTextDocumentEdit (openBuffer ws path) edit) = Return checkpoint)
  ∧ ∀ task edit,
      edits !! task = Some edit →
      let path := batchPath uriToPath edit in
      if bool_decide (task ∈ call.(resumed))
      then call.(workspace).(buffers) !! path
           = Some (fst (handleTextDocumentEdit (openBuffer ws path) edit))
           ∧ match snd (handleTextDocumentEdit (openBuffer ws path) edit) with
             | Return checkpoint => (path, checkpoint) ∈ call.(checkpoints)
             | Throw _ => is_Some call.(rejection)
             end
      else openBuffer call.(workspace) path = openBuffer ws path
           ∧ path ∉ call.(checkpoints).*1.

(** ** Diagnostics of the protocol *)

Module Diagnostics.

(** A diagnostic code ([DiagnosticCode]): a number or a string. *)
Inductive DiagnosticCode : Type :=
  | NumberCode (n : Z)
  | StringCode (s : string).

(** A diagnostic; [severity], [code] and [source] are optional. *)
Record Diagnostic : Type := mkDiagnostic {
  range : Lsp.Range;
  severity : option Z;
  code : option DiagnosticCode;
  source : option string;
  message : string
}.

Record PublishDiagnosticsParams : Type := mkPublishDiagnosticsParams {
  uri : string;
  diagnostics : list Diagnostic
}.

(** The severities the protocol numbers ([DiagnosticSeverity]). *)
Definition Error : Z := 1.
Definition Warning : Z := 2.
Definition Information : Z := 3.
Definition Hint : Z := 4.

End Diagnostics.

(** ** Messages of the linter *)

Module Linter.

Inductive Severity : Type := error | warning | info.

Record Location : Type := mkLocation {
  file : string;
  position : Range.t
}.

(** A linter message ([linter.Message]), with the properties the adapter
    sets. *)
Record Message : Type := mkMessage {
  location : Location;
  excerpt : string;
  linterName : option string;
  severity : Severity
}.

(** What a delegate ([linter.IndieDelegate]) shows: messages by file
    path. *)
Abbreviation Messages := (gmap string (list Message)).

(** The delegates there are, by identity, each with what it shows; a
    delegate that has been told nothing shows nothing. *)
Abbreviation Delegates := (gmap nat Messages).

Definition messagesOf (delegates : Delegates) (indie : nat) : Messages :=
  default ∅ (delegates !! indie).

(** [indie.setMessages(filePath, messages)]: the messages of the file are
    replaced. *)
Definition setMessages (indie : nat) (filePath : string) (messages : list Message)
    (delegates : Delegates) : Delegates :=
  <[indie := <[filePath := messages]> (messagesOf delegates indie)]> delegates.

(** [indie.clearMessages()]. *)
Definition clearMessages (indie : nat) (delegates : Delegates) : Delegates :=
  <[indie := ∅]> delegates.

End Linter.

(** ** The diagnostics adapter *)

Module LinterPushV2Adapter.

(** The adapter with the delegates it talks to: [_diagnosticMap] and
    [_diagnosticCodes] are the maps of the class, [_indies] its set of
    delegates in insertion order.  A code recorded as [None] is a code
    that was [undefined] in the diagnostic. *)
Record State : Type := mkState {
  _diagnosticMap : gmap string (list Linter.Message);
  _diagnosticCodes : gmap string (gmap string (option Diagnostics.DiagnosticCode));
  _indies : list nat;
  delegates : Linter.Delegates
}.

(** A new adapter, among the delegates there are. *)
Definition new (delegates : Linter.Delegates) : State :=
  {| _diagnosticMap := ∅; _diagnosticCodes := ∅; _indies := [];
     delegates := delegates |}.

(** [diagnosticSeverityToSeverity]. *)
Definition diagnosticSeverityToSeverity (severity : Z) : Linter.Severity :=
  if (severity =? Diagnostics.Error)%Z then Linter.error
  else if (severity =? Diagnostics.Warning)%Z then Linter.warning
  else if (severity =? Diagnostics.Information)%Z then Linter.info
  else if (severity =? Diagnostics.Hint)%Z then Linter.info
  else Linter.info.

(** [diagnostic.severity || -1]: a severity that is missing or zero
    counts as [-1]. *)
Definition severityOrMinusOne (severity : option Z) : Z :=
  match severity with
  | Some s => if (s =? 0)%Z then (-1)%Z else s
  | None => (-1)%Z
  end.

(** [diagnosticToV2Message]. *)
Definition diagnosticToV2Message (path : string) (diagnostic : Diagnostics.Diagnostic)
  : Linter.Message :=
  {| Linter.location :=
       {| Linter.file := path;
          Linter.position :=
            Convert.lsRangeToAtomRange diagnostic.(Diagnostics.range) |};
     Linter.excerpt := diagnostic.(Diagnostics.message);
     Linter.linterName := diagnostic.(Diagnostics.source);
     Linter.severity :=
       diagnosticSeverityToSeverity
         (severityOrMinusOne diagnostic.(Diagnostics.severity)) |}.

(** Whether a code is truthy: any number but zero, any string but the
    empty one. *)
Definition truthy (code : Diagnostics.DiagnosticCode) : bool :=
  match code with
  | Diagnostics.NumberCode n => negb (n =? 0)%Z
  | Diagnostics.StringCode s => negb (bool_decide (s = ""))
  end.

(** [value || null], for what [Map.get] returns: [None] for a key that
    is not there. *)
Definition orNull (value : option (option Diagnostics.DiagnosticCode))
  : option Diagnostics.DiagnosticCode :=
  match value with
  | Some (Some code) => if truthy code then Some code else None
  | _ => None
  end.

(** What the adapter is asked to do, for the statements about its whole
    life: [Destroyed] is the callback [attach] registers with
    [onDidDestroy]. *)
Inductive Operation : Type :=
  | Attach (indie : nat)
  | DetachAll
  | Capture (params : Diagnostics.PublishDiagnosticsParams)
  | Destroyed (indie : nat).

Section Adapter.

(** Neither [Convert.uriToPath] nor [getCodeKey] is among the sources:
    the adapter is modelled for every resolution of URIs and every key
    function. *)
Context (uriToPath : string → string).
Context (getCodeKey : Range.t → string → string).

(** [attach]: the delegate joins the set and is sent every entry of
    [_diagnosticMap]. *)
Definition attach (indie : nat) (s : State) : State :=
  {| _diagnosticMap := s.(_diagnosticMap);
     _diagnosticCodes := s.(_diagnosticCodes);
     _indies :=
       if bool_decide (indie ∈ s.(_indies)) then s.(_indies)
       else s.(_indies) ++ [indie];
     delegates :=
       map_fold (λ key value delegates, Linter.setMessages indie key value delegates)
         s.(delegates) s.(_diagnosticMap) |}.

(** The callback registered with [indie.onDidDestroy]. *)
Definition onDidDestroy (indie : nat) (s : State) : State :=
  {| _diagnosticMap := s.(_diagnosticMap);
     _diagnosticCodes := s.(_diagnosticCodes);
     _indies := filter (λ i, i ≠ indie) s.(_indies);
     delegates := s.(delegates) |}.

(** [detachAll]: every delegate of the set is cleared, and the set
    emptied. *)
Definition detachAll (s : State) : State :=
  {| _diagnosticMap := s.(_diagnosticMap);
     _diagnosticCodes := s.(_diagnosticCodes);
     _indies := [];
     delegates :=
       fold_left (λ delegates i, Linter.clearMessages i delegates)
         s.(_indies) s.(delegates) |}.

(** [dispose]. *)
Definition dispose (s : State) : State := detachAll s.

(** The key under which [captureDiagnostics] records the code of a
    diagnostic of a path. *)
Definition codeKey (path : string) (d : Diagnostics.Diagnostic) : string :=
  getCodeKey
    (diagnosticToV2Message path d).(Linter.location).(Linter.position)
    d.(Diagnostics.message).

(** [captureDiagnostics]: the messages and the codes of the path are
    replaced, and every delegate of the set is sent the messages. *)
Definition captureDiagnostics (params : Diagnostics.PublishDiagnosticsParams)
    (s : State) : State :=
  let path := uriToPath params.(Diagnostics.uri) in
  let codeMap :=
    fold_left (λ codeMap d, <[codeKey path d := d.(Diagnostics.code)]> codeMap)
      params.(Diagnostics.diagnostics) ∅ in
  let messages := map (diagnosticToV2Message path) params.(Diagnostics.diagnostics) in
  {| _diagnosticMap := <[path := messages]> s.(_diagnosticMap);
     _diagnosticCodes := <[path := codeMap]> s.(_diagnosticCodes);
     _indies := s.(_indies);
     delegates :=
       fold_left (λ delegates i, Linter.setMessages i path messages delegates)
         s.(_indies) s.(delegates) |}.

(** [getDiagnosticCode], for an editor whose [getPath()] is
    [editorPath]. *)
Definition getDiagnosticCode (editorPath : option string) (range : Range.t)
    (text : string) (s : State) : option Diagnostics.DiagnosticCode :=
  match editorPath with
  | Some path =>
      match s.(_diagnosticCodes) !! path with
      | Some diagnosticCodes => orNull (diagnosticCodes !! getCodeKey range text)
      | None => None
      end
  | None => None
  end.

Definition perform (s : State) (operation : Operation) : State :=
  match operation with
  | Attach indie => attach indie s
  | DetachAll => detachAll s
  | Capture params => captureDiagnostics params s
  | Destroyed indie => onDidDestroy indie s
  end.

(** The adapter after a sequence of operations. *)
Definition run (operations : list Operation) (s : State) : State :=
  fold_left perform operations s.

(** The diagnostics published last for each path, in a sequence of
    operations. *)
Definition published (operations : list Operation)
  : gmap string (list Diagnostics.Diagnostic) :=
  fold_left
    (λ latest operation,
       match operation with
       | Capture params =>
           <[uriToPath params.(Diagnostics.uri) := params.(Diagnostics.diagnostics)]>
             latest
       | _ => latest
       end)
    operations ∅.

(** Every delegate of the set shows, for every path of [_diagnosticMap],
    the messages recorded there. *)
Definition inSync (s : State) : Prop :=
  ∀ indie path messages,
    indie ∈ s.(_indies) →
    s.(_diagnosticMap) !! path = Some messages →
    Linter.messagesOf s.(delegates) indie !! path = Some messages.

End Adapter.

End LinterPushV2Adapter.

(** ** The rename adapter that answers with a map *)

Module RenameMapAdapter.

(** What [convertDocumentChanges] is handed: a workspace edit, as its
    signature says, or the array of document changes, which is what
    [getRename] passes. *)
Inductive Argument : Type :=
  | EditObject (workspaceEdit : Lsp.WorkspaceEdit)
  | ChangeArray (documentChanges : list Lsp.DocumentChange).

(** [argument.documentChanges]: an array has no property of that name. *)
Definition documentChangesOf (argument : Argument)
  : Property (list Lsp.DocumentChange) :=
  match argument with
  | EditObject workspaceEdit => workspaceEdit.(Lsp.documentChanges)
  | ChangeArray _ => NoProperty
  end.

(** A call returns, or throws a [TypeError]: a property read on
    [undefined], or a call of what is not a function. *)
Inductive Outcome (A : Type) : Type :=
  | Returns (value : A)
  | TypeError.
Arguments Returns {A} value.
Arguments TypeError {A}.

Section Adapter.

(** [Convert.uriToPath] and [Convert.convertLsTextEdits] are not among
    the sources. *)
Context (uriToPath : string → string).
Context (convertLsTextEdits : list Lsp.TextEdit → list AtomIde.TextEdit).

(** The [forEach] of [convertDocumentChanges]: an entry without
    [textDocument] makes [documentEdit.textDocument.uri] throw. *)
Fixpoint setEach (documentChanges : list Lsp.DocumentChange)
    (result : gmap string (list AtomIde.TextEdit))
  : Outcome (gmap string (list AtomIde.TextEdit)) :=
  match documentChanges with
  | [] => Returns result
  | Lsp.TextDocumentEditChange documentEdit :: rest =>
      setEach rest
        (<[uriToPath documentEdit.(Lsp.textDocument).(Lsp.uri)
           := convertLsTextEdits documentEdit.(Lsp.edits)]> result)
  | _ :: _ => TypeError
  end.

(** [convertDocumentChanges]: [?.forEach] does nothing when the property
    is missing or undefined. *)
Definition convertDocumentChanges (workspaceEdit : Argument)
  : Outcome (gmap string (list AtomIde.TextEdit)) :=
  match documentChangesOf workspaceEdit with
  | Value documentChanges => setEach documentChanges ∅
  | _ => Returns ∅
  end.

(** [getRename], from the answer of [connection.rename] on; [None] is
    [null].  The class defines no [convertChanges]: the call made for an
    answer with [changes] and without [documentChanges] throws. *)
Definition getRename (edit : option Lsp.WorkspaceEdit)
  : Outcome (option (gmap string (list AtomIde.TextEdit))) :=
  match edit with
  | None => Returns None
  | Some edit =>
      match edit.(Lsp.documentChanges) with
      | Value documentChanges =>
          match convertDocumentChanges (ChangeArray documentChanges) with
          | Returns result => Returns (Some result)
          | TypeError => TypeError
          end
      | _ =>
          match edit.(Lsp.changes) with
          | Value _ => TypeError
          | _ => Returns None
          end
      end
  end.

End Adapter.

End RenameMapAdapter.

(** ** The rename prompt *)

Module RenameView.

(** An element of the document: the element of the mini editor, the view
    of the workspace, or another one. *)
Inductive Element : Type :=
  | MiniEditorElement
  | WorkspaceView
  | OtherElement (id : nat).

(** A text editor of the workspace, with the position of its cursor. *)
Record TextEditor : Type := mkTextEditor {
  id : nat;
  cursorBufferPosition : Point.t
}.

(** A call of [RenameAdapter.getRename]. *)
Record Request : Type := mkRequest {
  editor : TextEditor;
  position : Point.t;
  newName : string
}.

(** The view and what it sees of the editor:
    - [panelVisible]: [this._panel.isVisible()];
    - [miniEditorText]: the text of the mini editor;
    - [activeElement]: [document.activeElement];
    - [attached]: whether an element has a [parentElement];
    - [activeTextEditor]: [atom.workspace.getActiveTextEditor()];
    - [requests]: the rename requests made so far. *)
Record State : Type := mkState {
  panelVisible : bool;
  miniEditorText : string;
  _previouslyFocusedElement : option Element;
  activeElement : option Element;
  attached : Element → bool;
  activeTextEditor : option TextEditor;
  requests : list Request
}.

(** [element.focus()]: the element becomes the active one. *)
Definition focus (element : Element) (s : State) : State :=
  {| panelVisible := s.(panelVisible);
     miniEditorText := s.(miniEditorText);
     _previouslyFocusedElement := s.(_previouslyFocusedElement);
     activeElement := Some element;
     attached := s.(attached);
     activeTextEditor := s.(activeTextEditor);
     requests := s.(requests) |}.

(** [this._panel.show()] and [this._panel.hide()]; hiding leaves
    [document.activeElement] as it is. *)
Definition setVisible (visible : bool) (s : State) : State :=
  {| panelVisible := visible;
     miniEditorText := s.(miniEditorText);
     _previouslyFocusedElement := s.(_previouslyFocusedElement);
     activeElement := s.(activeElement);
     attached := s.(attached);
     activeTextEditor := s.(activeTextEditor);
     requests := s.(requests) |}.

(** [this._miniEditor.setText(text)]. *)
Definition setText (text : string) (s : State) : State :=
  {| panelVisible := s.(panelVisible);
     miniEditorText := text;
     _previouslyFocusedElement := s.(_previouslyFocusedElement);
     activeElement := s.(activeElement);
     attached := s.(attached);
     activeTextEditor := s.(activeTextEditor);
     requests := s.(requests) |}.

(** [this.getEditorElement().hasFocus()]. *)
Definition hasFocus (s : State) : bool :=
  match s.(activeElement) with
  | Some MiniEditorElement => true
  | _ => false
  end.

(** [storeFocusedElement]. *)
Definition storeFocusedElement (s : State) : State :=
  {| panelVisible := s.(panelVisible);
     miniEditorText := s.(miniEditorText);
     _previouslyFocusedElement := s.(activeElement);
     activeElement := s.(activeElement);
     attached := s.(attached);
     activeTextEditor := s.(activeTextEditor);
     requests := s.(requests) |}.

(** [restoreFocus]: back to the element stored, if it is still in the
    document, to the view of the workspace otherwise. *)
Definition restoreFocus (s : State) : State :=
  match s.(_previouslyFocusedElement) with
  | Some element =>
      if s.(attached) element then focus element s else focus WorkspaceView s
  | None => focus WorkspaceView s
  end.

(** [open]. *)
Definition open (s : State) : State :=
  if s.(panelVisible) || negb (bool_decide (is_Some s.(activeTextEditor))) then s
  else focus MiniEditorElement (setVisible true (storeFocusedElement s)).

(** [close]. *)
Definition close (s : State) : State :=
  if negb s.(panelVisible) then s
  else
    let s := setVisible false (setText "" s) in
    if hasFocus s then restoreFocus s else s.

(** [toggle]. *)
Definition toggle (s : State) : State :=
  if s.(panelVisible) then close s else open s.

(** [rename], up to the call of [RenameAdapter.getRename]. *)
Definition rename (s : State) : State :=
  let newName := s.(miniEditorText) in
  match s.(activeTextEditor) with
  | Some editor =>
      if String.length newName =? 0 then s
      else
        {| panelVisible := s.(panelVisible);
           miniEditorText := s.(miniEditorText);
           _previouslyFocusedElement := s.(_previouslyFocusedElement);
           activeElement := s.(activeElement);
           attached := s.(attached);
           activeTextEditor := s.(activeTextEditor);
           requests :=
             s.(requests)
             ++ [mkRequest editor editor.(cursorBufferPosition) newName] |}
  | None => s
  end.

(** The listener of [core:confirm]. *)
Definition confirm (s : State) : State := close (rename s).

(** The listener of [core:cancel]. *)
Definition cancel (s : State) : State := close s.

(** The callback [rename] chains on the answer: an edit is handed to
    [WorkspaceEditHandler.handle], [null] is dropped.  The workspace
    after the callback and the call it started. *)
Definition renamed (uriToPath : string → string) (edit : option Lsp.WorkspaceEdit)
    (schedule : list Event) (ws : Workspace) : Workspace :=
  match edit with
  | Some edit => fst (handle uriToPath edit schedule ws)
  | None => ws
  end.

End RenameView.

(** A key function for the examples: row, column, row, column and text,
    joined by commas. *)
Definition commaKey (range : Range.t) (text : string) : string :=
  showNat range.(Range.start).(Point.row) +:+ ","
  +:+ showNat range.(Range.start).(Point.column) +:+ ","
  +:+ showNat range.(Range.end_).(Point.row) +:+ ","
  +:+ showNat range.(Range.end_).(Point.column) +:+ "," +:+ text.

(** Two diagnostics for the examples, on the same range with the same
    message, and a third one elsewhere whose code is zero. *)
Definition unusedFirst : Diagnostics.Diagnostic :=
  Diagnostics.mkDiagnostic
    (Lsp.mkRange (Lsp.mkPosition 0 0) (Lsp.mkPosition 0 5))
    (Some 2%Z) (Some (Diagnostics.StringCode "W1")) (Some "tsc") "unused".

Definition unusedSecond : Diagnostics.Diagnostic :=
  Diagnostics.mkDiagnostic
    (Lsp.mkRange (Lsp.mkPosition 0 0) (Lsp.mkPosition 0 5))
    (Some 1%Z) (Some (Diagnostics.StringCode "E7")) (Some "tsc") "unused".

Definition zeroCode : Diagnostics.Diagnostic :=
  Diagnostics.mkDiagnostic
    (Lsp.mkRange (Lsp.mkPosition 1 0) (Lsp.mkPosition 1 2))
    None (Some (Diagnostics.NumberCode 0)) None "odd".

(** Two publications for the examples. *)
Definition publishedForA : Diagnostics.PublishDiagnosticsParams :=
  Diagnostics.mkPublishDiagnosticsParams "file:///a"
    [unusedFirst; unusedSecond; zeroCode].

Definition publishedForB : Diagnostics.PublishDiagnosticsParams :=
  Diagnostics.mkPublishDiagnosticsParams "file:///b" [zeroCode].

(** ** The text of a document, by offsets *)

(** The first [n] characters of a text. *)
Fixpoint takeString (n : nat) (s : string) : string :=
  match n, s with
  | S n', String c s' => String c (takeString n' s')
  | _, _ => ""
  end.

(** The text from its character [n] on. *)
Fixpoint dropString (n : nat) (s : string) : string :=
  match n, s with
  | S n', String c s' => dropString n' s'
  | _, _ => s
  end.

(** The number of characters of the text before a position: the rows
    above it, each with its line feed, and the columns before it. *)
Definition offsetOf (ls : list string) (p : Point.t) : nat :=
  sum_list_with (λ l, S (String.length l)) (take p.(Point.row) ls)
  + p.(Point.column).

(** The rows, each followed by a line feed. *)
Fixpoint leading (ls : list string) : string :=
  match ls with
  | [] => ""
  | l :: ls' => l +:+ String LF (leading ls')
  end.

(** The rows, each after a line feed. *)
Fixpoint trailing (ls : list string) : string :=
  match ls with
  | [] => ""
  | l :: ls' => String LF (l +:+ trailing ls')
  end.

(** The text once every edit of the list, which lists the edits from
    the last one of the document to the first, has replaced its range,
    up to the character [limit] of the text; the ranges are all read on
    the lines [ls] of the text. *)
Fixpoint splice (text : string) (ls : list string) (es : list AtomIde.TextEdit)
    (limit : nat) : string :=
  match es with
  | [] => takeString limit text
  | e :: rest =>
      let from := offsetOf ls e.(AtomIde.oldRange).(Range.start) in
      let to := offsetOf ls (clipPosition ls e.(AtomIde.oldRange).(Range.end_)) in
      splice text ls rest from
      +:+ e.(AtomIde.newText)
      +:+ takeString (limit - to) (dropString to text)
  end.

(** ** Proof automation *)

(** Order goals on points and ranges, by cases on the comparisons. *)
Ltac point_order :=
  repeat match goal with
    | p : Point.t |- _ => destruct p
    | r : Range.t |- _ => destruct r
    | e : AtomIde.TextEdit |- _ => destruct e
    end;
  unfold editsOverlap, editsConflict, overlaps, insertionAtStart, adjacent,
    pointLtb, reverseRangeOrder, Range.compare, Range.new,
    Point.isLessThanOrEqual, Point.compare, Point.lt, Point.le in *;
  simpl in *;
  repeat match goal with
    | |- context [?a <? ?b] => destruct (Nat.ltb_spec a b); simpl in *
    | H : context [?a <? ?b] |- _ => destruct (Nat.ltb_spec a b); simpl in *
    end;
  repeat match goal with
    | |- context [bool_decide ?P] => destruct (bool_decide_reflect P); simpl in *
    | H : context [bool_decide ?P] |- _ =>
        destruct (bool_decide_reflect P); simpl in *
    end;
  simplify_eq; simpl in *;
  try (intuition (congruence || lia));
  try (exfalso;
       match goal with
       | n : _ ≠ _ |- _ => apply n; repeat f_equal; lia
       end).

(** * Properties *)

(** ** Order facts on points and ranges *)

Lemma Point_compare_le (p q : Point.t) :
  (0 <? Point.compare p q)%Z = false ↔ Point.le p q.
Proof. point_order. Qed.

Lemma pointLtb_lt (p q : Point.t) : pointLtb p q = true ↔ Point.lt p q.
Proof. point_order. Qed.

Lemma Point_le_trans (p q r : Point.t) : Point.le p q → Point.le q r → Point.le p r.
Proof. point_order. Qed.

Lemma Point_lt_not_le (p q : Point.t) : Point.lt p q → ¬ Point.le q p.
Proof. point_order. Qed.

Lemma Range_new_ordered (a b : Point.t) :
  Point.le (Range.new a b).(Range.start) (Range.new a b).(Range.end_).
Proof. point_order. Qed.

(** ** The sort *)

Section SortFacts.

Context {A : Type} (compareFn : A → A → Z).

Lemma sortInsert_perm (x : A) (l : list A) :
  sortInsert compareFn x l ≡ₚ x :: l.
Proof.
  induction l as [|y l IH]; simpl; [done|].
  destruct (compareFn x y <=? 0)%Z; [done|].
  rewrite IH. apply perm_swap.
Qed.

Lemma sort_perm (l : list A) : sort compareFn l ≡ₚ l.
Proof.
  induction l as [|x l IH]; simpl; [done|].
  by rewrite sortInsert_perm, IH.
Qed.

Hypothesis before_total : ∀ x y, before compareFn x y ∨ before compareFn y x.
Hypothesis before_trans :
  ∀ x y z, before compareFn x y → before compareFn y z → before compareFn x z.

Lemma sortInsert_sorted (x : A) (l : list A) :
  StronglySorted (before compareFn) l →
  StronglySorted (before compareFn) (sortInsert compareFn x l).
Proof.
  induction 1 as [|y l Hl IH Hy]; simpl.
  { repeat constructor. }
  destruct (Z.leb_spec (compareFn x y) 0) as [Hxy|Hxy].
  - constructor; [by constructor|].
    constructor; [done|].
    eapply Forall_impl; [exact Hy|]. intros z Hz. by eapply before_trans.
  - constructor; [done|].
    rewrite sortInsert_perm. constructor; [|done].
    destruct (before_total x y) as [H|H]; [|done].
    unfold before in H. lia.
Qed.

Lemma sort_sorted (l : list A) :
  StronglySorted (before compareFn) (sort compareFn l).
Proof.
  induction l as [|x l IH]; simpl; [constructor|].
  by apply sortInsert_sorted.
Qed.

(** Two sorted arrangements of the same elements coincide as soon as
    the comparator never ties two different elements. *)
Lemma sorted_perm_unique (l1 l2 : list A) :
  (∀ x y, x ∈ l1 → y ∈ l1 →
          before compareFn x y → before compareFn y x → x = y) →
  StronglySorted (before compareFn) l1 → StronglySorted (before compareFn) l2 →
  l1 ≡ₚ l2 → l1 = l2.
Proof.
  revert l2. induction l1 as [|x l1 IH]; intros l2 Hanti H1 H2 Hp.
  { by apply Permutation_nil_l in Hp. }
  destruct l2 as [|y l2].
  { by apply Permutation_nil_r in Hp. }
  apply StronglySorted_inv in H1 as [H1 Hx].
  apply StronglySorted_inv in H2 as [H2 Hy].
  assert (x = y) as ->.
  { assert (x ∈ y :: l2) as Hxin by (rewrite <- Hp; left).
    assert (y ∈ x :: l1) as Hyin by (rewrite Hp; left).
    apply elem_of_cons in Hxin as [?|Hxin]; [done|].
    apply elem_of_cons in Hyin as [?|Hyin]; [done|].
    rewrite Forall_forall in Hx, Hy.
    apply Hanti; [left|by right|by apply Hx|by apply Hy]. }
  f_equal. apply IH; [|done..|by eapply Permutation_cons_inv].
  intros a b Ha Hb. apply Hanti; by right.
Qed.

Lemma sort_permutation_invariant (l1 l2 : list A) :
  (∀ x y, x ∈ l1 → y ∈ l1 → compareFn x y = 0%Z → x = y) →
  (∀ x y, (compareFn x y <= 0)%Z → (compareFn y x <= 0)%Z → compareFn x y = 0%Z) →
  l1 ≡ₚ l2 → sort compareFn l1 = sort compareFn l2.
Proof.
  intros Hties Hanti Hp.
  apply sorted_perm_unique; [|apply sort_sorted..|].
  - intros x y Hx Hy Hxy Hyx. rewrite sort_perm in Hx, Hy.
    apply Hties; [done..|]. by apply Hanti.
  - by rewrite !sort_perm.
Qed.

End SortFacts.

Lemma reverseRangeOrder_total (e1 e2 : AtomIde.TextEdit) :
  before reverseRangeOrder e1 e2 ∨ before reverseRangeOrder e2 e1.
Proof. unfold before. point_order. Qed.

Lemma reverseRangeOrder_trans (e1 e2 e3 : AtomIde.TextEdit) :
  before reverseRangeOrder e1 e2 → before reverseRangeOrder e2 e3 →
  before reverseRangeOrder e1 e3.
Proof. unfold before. point_order. Qed.

Lemma reverseRangeOrder_antisym (e1 e2 : AtomIde.TextEdit) :
  (reverseRangeOrder e1 e2 <= 0)%Z → (reverseRangeOrder e2 e1 <= 0)%Z →
  reverseRangeOrder e1 e2 = 0%Z.
Proof. point_order. Qed.

Lemma reverseRangeOrder_tie (e1 e2 : AtomIde.TextEdit) :
  reverseRangeOrder e1 e2 = 0%Z ↔ e1.(AtomIde.oldRange) = e2.(AtomIde.oldRange).
Proof.
  split; intros H.
  - point_order; repeat f_equal; lia.
  - destruct e1 as [r1 ?], e2 as [r2 ?]; simpl in H; subst r2. point_order.
Qed.

(** ** The buffer: strings, clipping, substitution *)

Lemma length_append (s1 s2 : string) :
  String.length (s1 +:+ s2) = String.length s1 + String.length s2.
Proof.
  induction s1 as [|c s1 IH]; [done|].
  unfold String.append; fold String.append. simpl. by rewrite <- IH.
Qed.

Lemma length_substring_prefix (n : nat) (s : string) :
  n ≤ String.length s → String.length (String.substring 0 n s) = n.
Proof.
  revert s. induction n as [|n IH]; intros [|c s] Hn; simpl in *; try done; try lia.
  rewrite IH; lia.
Qed.

Lemma splitLines_nonempty (s : string) : splitLines s ≠ [].
Proof.
  destruct s as [|c s]; simpl; [done|].
  destruct (Ascii.eqb c LF); [done|]. by destruct (splitLines s).
Qed.

(** Splitting a text into lines loses nothing. *)
Lemma joinLines_splitLines (s : string) : joinLines (splitLines s) = s.
Proof.
  induction s as [|c s IH]; simpl; [done|].
  pose proof (splitLines_nonempty s) as Hne.
  destruct (Ascii.eqb_spec c LF) as [->|_];
    destruct (splitLines s) as [|l ls]; try done; simpl in *.
  - by rewrite IH.
  - destruct ls; simpl in *; by rewrite <- IH.
Qed.

Lemma getText_newTextBuffer (path : option string) (text : string) :
  getText (newTextBuffer path text) = text.
Proof. apply joinLines_splitLines. Qed.

Example splitLines_two_rows :
  splitLines ("ab" +:+ String LF "cd") = ["ab"; "cd"].
Proof. reflexivity. Qed.

Example clipRange_beyond_the_row :
  clipRange ["hello"] (Range.mk (Point.mk 0 3) (Point.mk 0 99))
  = Range.mk (Point.mk 0 3) (Point.mk 0 5).
Proof. reflexivity. Qed.

Example replaceInLines_across_rows :
  replaceInLines ["ab"; "cd"] (Range.mk (Point.mk 0 1) (Point.mk 1 1))
    ("x" +:+ String LF "y")
  = ["ax"; "yd"].
Proof. reflexivity. Qed.

(** A row has no length exactly when it lies beyond the last row. *)
Lemma lineLengthForRow_None (b : TextBuffer) (row : nat) :
  lines b ≠ [] →
  lineLengthForRow b row = None ↔ getLastRow b < row.
Proof.
  intros Hne. unfold lineLengthForRow, getLastRow.
  rewrite fmap_None, lookup_ge_None.
  destruct (lines b); [done|]. simpl. lia.
Qed.

Lemma positionInRange_spec (ls : list string) (p : Point.t) :
  positionInRange ls p = true ↔
  ∃ l, ls !! p.(Point.row) = Some l ∧ p.(Point.column) ≤ String.length l.
Proof.
  unfold positionInRange. destruct (ls !! Point.row p) as [l|] eqn:Hl.
  - rewrite Nat.leb_le. split; [by exists l|]. by intros (? & [= <-] & ?).
  - split; [done|]. by intros (? & ? & _).
Qed.

Lemma clipPosition_inRange (ls : list string) (p : Point.t) :
  positionInRange ls p = true → clipPosition ls p = p.
Proof.
  intros (l & Hl & Hc)%positionInRange_spec. unfold clipPosition, lineForRow.
  pose proof (lookup_lt_Some _ _ _ Hl) as Hlt.
  destruct (Nat.ltb_spec (pred (length ls)) (Point.row p)); [lia|].
  rewrite Hl. simpl. by destruct (Nat.ltb_spec (String.length l) (Point.column p)); [lia|].
Qed.

(** Clipping never moves a position before an in-range position that
    precedes it. *)
Lemma clipPosition_le (ls : list string) (s e : Point.t) :
  positionInRange ls s = true → Point.le s e → Point.le s (clipPosition ls e).
Proof.
  intros (l & Hl & Hc)%positionInRange_spec Hle. unfold clipPosition, lineForRow.
  pose proof (lookup_lt_Some _ _ _ Hl) as Hlt.
  destruct s as [sr sc], e as [er ec]; unfold Point.le in *; simpl in *.
  destruct (Nat.ltb_spec (pred (length ls)) er); simpl.
  - destruct (decide (sr = pred (length ls))) as [->|]; [|lia].
    right. rewrite Hl. simpl. lia.
  - destruct (Nat.ltb_spec (String.length (default "" (ls !! er))) ec); simpl; [|done].
    destruct Hle as [?|[-> ?]]; [by left|]. right. rewrite Hl. simpl. lia.
Qed.

Lemma clipRange_start (ls : list string) (r : Range.t) :
  positionInRange ls r.(Range.start) = true →
  Point.le r.(Range.start) r.(Range.end_) →
  (clipRange ls r).(Range.start) = r.(Range.start).
Proof.
  intros Hs Hle. unfold clipRange.
  rewrite (clipPosition_inRange _ _ Hs).
  pose proof (clipPosition_le ls _ _ Hs Hle) as Hc.
  destruct (bool_decide _ && bool_decide _); [done|].
  unfold Range.new, Point.isLessThanOrEqual.
  destruct (Z.leb_spec (Point.compare (Range.start r) (clipPosition ls (Range.end_ r))) 0)
    as [?|Hgt]; [done|].
  exfalso. apply Point_compare_le in Hc. apply Z.ltb_ge in Hc. lia.
Qed.

Lemma append_assoc (s1 s2 s3 : string) :
  (s1 +:+ s2) +:+ s3 = s1 +:+ (s2 +:+ s3).
Proof.
  induction s1 as [|c s1 IH]; [done|].
  unfold String.append; fold String.append. by rewrite IH.
Qed.

Lemma spliced_head (prefix suffix : string) (inserted : list string) :
  ∃ l rest,
    appendToLast (prependToFirst prefix inserted) suffix = (prefix +:+ l) :: rest.
Proof.
  destruct inserted as [|l [|l' ls]]; simpl.
  - exists suffix, []. done.
  - exists (l +:+ suffix), []. by rewrite append_assoc.
  - by eexists l, _.
Qed.

Section Replace.

Context (ls : list string) (r : Range.t) (newText : string).
Hypothesis start_ok : positionInRange ls r.(Range.start) = true.
Hypothesis range_ordered : Point.le r.(Range.start) r.(Range.end_).

(** Rows above the start row are left alone. *)
Lemma replaceInLines_above (row : nat) :
  row < r.(Range.start).(Point.row) →
  replaceInLines ls r newText !! row = ls !! row.
Proof using start_ok range_ordered.
  intros Hrow. unfold replaceInLines. rewrite clipRange_start by done.
  apply positionInRange_spec in start_ok as (l & Hl & _).
  pose proof (lookup_lt_Some _ _ _ Hl).
  rewrite lookup_app_l by (rewrite length_take; lia).
  by rewrite lookup_take_lt.
Qed.

(** The start row keeps at least the columns before the start. *)
Lemma replaceInLines_start :
  positionInRange (replaceInLines ls r newText) r.(Range.start) = true.
Proof using start_ok range_ordered.
  apply positionInRange_spec. unfold replaceInLines.
  rewrite clipRange_start by done.
  apply positionInRange_spec in start_ok as (l & Hl & Hc).
  pose proof (lookup_lt_Some _ _ _ Hl).
  set (prefix := String.substring 0 _ _).
  destruct (spliced_head prefix
    (String.substring (Point.column (Range.end_ (clipRange ls r)))
       (String.length (lineForRow ls (Point.row (Range.end_ (clipRange ls r))))
        - Point.column (Range.end_ (clipRange ls r)))
       (lineForRow ls (Point.row (Range.end_ (clipRange ls r)))))
    (splitLines newText)) as (l' & rest & ->).
  exists (prefix +:+ l'). split.
  - rewrite lookup_app_r by (rewrite length_take; lia).
    rewrite length_take. by replace (_ - _) with 0 by lia.
  - rewrite length_append. unfold prefix, lineForRow. rewrite Hl. simpl.
    rewrite length_substring_prefix by done. lia.
Qed.

End Replace.

(** ** The buffer: checkpoints *)

Lemma reduceEdits_unwindTo (id : nat) (es : list AtomIde.TextEdit) :
  ∀ b prev,
    let b' := fst (reduceEdits b prev es) in
    unwindTo id (undoStack b') (lines b') = unwindTo id (undoStack b) (lines b).
Proof.
  induction es as [|cur rest IH]; intros b prev; simpl; [done|].
  destruct (validateEdit b cur prev); simpl; [|done].
  specialize (IH (setTextInRange b (AtomIde.oldRange cur) (AtomIde.newText cur))
                 (Some cur)).
  simpl in IH. by rewrite IH.
Qed.

Lemma reduceEdits_path (es : list AtomIde.TextEdit) :
  ∀ b prev, path (fst (reduceEdits b prev es)) = path b.
Proof.
  induction es as [|cur rest IH]; intros b prev; simpl; [done|].
  destruct (validateEdit b cur prev); simpl; [|done]. by rewrite IH.
Qed.

Lemma reduceEdits_nextCheckpointId (es : list AtomIde.TextEdit) :
  ∀ b prev,
    nextCheckpointId (fst (reduceEdits b prev es)) = nextCheckpointId b.
Proof.
  induction es as [|cur rest IH]; intros b prev; simpl; [done|].
  destruct (validateEdit b cur prev); simpl; [|done]. by rewrite IH.
Qed.

(** After a throw the buffer is the buffer of before the call, up to the
    checkpoint counter. *)
Lemma handleTextDocumentEdit_throw (b : TextBuffer) (edit : Lsp.TextDocumentEdit)
    (err : Error) :
  snd (handleTextDocumentEdit b edit) = Throw err →
  fst (handleTextDocumentEdit b edit)
  = {| path := path b; lines := lines b; undoStack := undoStack b;
       nextCheckpointId := S (nextCheckpointId b) |}.
Proof.
  unfold handleTextDocumentEdit. simpl.
  set (b0 := {| path := path b; lines := lines b;
                undoStack := Checkpoint (nextCheckpointId b) :: undoStack b;
                nextCheckpointId := S (nextCheckpointId b) |}).
  pose proof (reduceEdits_unwindTo (nextCheckpointId b)
    (sort reverseRangeOrder (map Convert.convertLsTextEdit (Lsp.edits edit)))
    b0 None) as Hu.
  pose proof (reduceEdits_path
    (sort reverseRangeOrder (map Convert.convertLsTextEdit (Lsp.edits edit)))
    b0 None) as Hp.
  pose proof (reduceEdits_nextCheckpointId
    (sort reverseRangeOrder (map Convert.convertLsTextEdit (Lsp.edits edit)))
    b0 None) as Hn.
  destruct (reduceEdits b0 None _) as [b' [prev|err']]; simpl in *; [done|].
  intros _. unfold revertToCheckpoint. rewrite Hu. simpl.
  rewrite Nat.eqb_refl. simpl. by rewrite Hp, Hn.
Qed.

(** After a success the lines of before the call are one
    [revertToCheckpoint] away. *)
Lemma handleTextDocumentEdit_return (b : TextBuffer) (edit : Lsp.TextDocumentEdit)
    (checkpoint : nat) :
  snd (handleTextDocumentEdit b edit) = Return checkpoint →
  checkpoint = nextCheckpointId b ∧
  path (fst (handleTextDocumentEdit b edit)) = path b ∧
  unwindTo checkpoint (undoStack (fst (handleTextDocumentEdit b edit)))
    (lines (fst (handleTextDocumentEdit b edit)))
  = Some (lines b, undoStack b).
Proof.
  unfold handleTextDocumentEdit. simpl.
  set (b0 := {| path := path b; lines := lines b;
                undoStack := Checkpoint (nextCheckpointId b) :: undoStack b;
                nextCheckpointId := S (nextCheckpointId b) |}).
  pose proof (reduceEdits_unwindTo (nextCheckpointId b)
    (sort reverseRangeOrder (map Convert.convertLsTextEdit (Lsp.edits edit)))
    b0 None) as Hu.
  pose proof (reduceEdits_path
    (sort reverseRangeOrder (map Convert.convertLsTextEdit (Lsp.edits edit)))
    b0 None) as Hp.
  destruct (reduceEdits b0 None _) as [b' [prev|err']]; simpl in *; [|done].
  intros [= <-]. split; [done|].
  unfold groupChangesSinceCheckpoint. rewrite Hu. simpl.
  rewrite Nat.eqb_refl. simpl. split; [done|].
  destruct (changedSince _ _); simpl; [by rewrite Nat.eqb_refl|].
  rewrite Hu. simpl. by rewrite Nat.eqb_refl.
Qed.

(** ** Validation against the buffer under mutation is validation
       against the buffer of before the call *)

Lemma convertLsTextEdit_ordered (textEdit : Lsp.TextEdit) :
  ordered (Convert.convertLsTextEdit textEdit).
Proof. apply Range_new_ordered. Qed.

Lemma atomEditsOf_ordered (edits : list Lsp.TextEdit) :
  Forall ordered (atomEditsOf edits).
Proof.
  unfold atomEditsOf. apply Forall_forall. intros e (x & -> & _)%list_elem_of_fmap.
  apply convertLsTextEdit_ordered.
Qed.

Lemma validateEdit_cases (b : TextBuffer) (edit : AtomIde.TextEdit)
    (prevEdit : option AtomIde.TextEdit) :
  validateEdit b edit prevEdit =
  if endsAfterStartOf edit prevEdit then Throw (OverlapError (default "" (path b)))
  else if startInRange b edit then Return tt
  else Throw (outOfRangeAt (path b) edit).
Proof.
  unfold validateEdit, endsAfterStartOf, startInRange, positionInRange,
    lineLengthForRow, outOfRangeAt, getPath.
  destruct prevEdit as [prev|]; simpl.
  - destruct (0 <? _)%Z; [done|].
    destruct (lines b !! _) as [l|]; simpl; [|done].
    destruct (Nat.ltb_spec (String.length l)
                (Point.column (Range.start (AtomIde.oldRange edit))));
      destruct (Nat.leb_spec (Point.column (Range.start (AtomIde.oldRange edit)))
                  (String.length l)); done || lia.
  - destruct (lines b !! _) as [l|]; simpl; [|done].
    destruct (Nat.ltb_spec (String.length l)
                (Point.column (Range.start (AtomIde.oldRange edit))));
      destruct (Nat.leb_spec (Point.column (Range.start (AtomIde.oldRange edit)))
                  (String.length l)); done || lia.
Qed.

Lemma tracks_startInRange (ls ls0 : list string) (prev : option AtomIde.TextEdit)
    (cur : AtomIde.TextEdit) :
  tracks ls ls0 prev → ordered cur → endsAfterStartOf cur prev = false →
  positionInRange ls cur.(AtomIde.oldRange).(Range.start)
  = positionInRange ls0 cur.(AtomIde.oldRange).(Range.start).
Proof.
  destruct prev as [p|]; simpl; [|by intros ->].
  intros (Habove & Hp & Hp0) Hord Hend%Point_compare_le.
  pose proof (Point_le_trans _ _ _ Hord Hend) as Hle.
  apply positionInRange_spec in Hp as (l & Hl & Hc).
  apply positionInRange_spec in Hp0 as (l0 & Hl0 & Hc0).
  destruct Hle as [Hrow|[Hrow Hcol]].
  - unfold positionInRange. by rewrite Habove.
  - transitivity true; [|symmetry]; apply positionInRange_spec;
      rewrite Hrow; eexists; (split; [done|lia]).
Qed.

Lemma tracks_step (ls ls0 : list string) (prev : option AtomIde.TextEdit)
    (cur : AtomIde.TextEdit) :
  tracks ls ls0 prev → ordered cur → endsAfterStartOf cur prev = false →
  positionInRange ls cur.(AtomIde.oldRange).(Range.start) = true →
  tracks (replaceInLines ls cur.(AtomIde.oldRange) cur.(AtomIde.newText)) ls0 (Some cur).
Proof.
  intros Htr Hord Hend Hin. simpl. split; [|split].
  - intros row Hrow. rewrite replaceInLines_above by done.
    destruct prev as [p|]; simpl in *; [|by subst].
    destruct Htr as (Habove & _ & _). apply Habove.
    apply Point_compare_le in Hend.
    pose proof (Point_le_trans _ _ _ Hord Hend) as [?|[? _]]; lia.
  - by apply replaceInLines_start.
  - by rewrite <- (tracks_startInRange ls ls0 prev cur).
Qed.

Lemma reduceEdits_validateAll (b0 : TextBuffer) (es : list AtomIde.TextEdit) :
  Forall ordered es →
  ∀ b prev,
    path b = path b0 → tracks (lines b) (lines b0) prev →
    snd (reduceEdits b prev es) = validateAll b0 prev es.
Proof.
  induction 1 as [|cur rest Hord Hrest IH]; intros b prev Hpath Htr; simpl; [done|].
  rewrite !validateEdit_cases, Hpath.
  destruct (endsAfterStartOf cur prev) eqn:Hend; [done|].
  unfold startInRange.
  rewrite <- (tracks_startInRange _ _ _ _ Htr Hord Hend).
  destruct (positionInRange (lines b) _) eqn:Hin; [|done].
  apply IH; [done|]. by apply (tracks_step _ _ prev).
Qed.

(** The outcome of [handleTextDocumentEdit] is the outcome of validating
    the sorted edits against the buffer as it is before the call. *)
Lemma handleTextDocumentEdit_outcome (b : TextBuffer) (edit : Lsp.TextDocumentEdit) :
  snd (handleTextDocumentEdit b edit) =
  match validateAll b None (sort reverseRangeOrder (atomEditsOf edit.(Lsp.edits))) with
  | Return _ => Return b.(nextCheckpointId)
  | Throw err => Throw err
  end.
Proof.
  unfold handleTextDocumentEdit. simpl.
  set (b0 := {| path := path b; lines := lines b;
                undoStack := Checkpoint (nextCheckpointId b) :: undoStack b;
                nextCheckpointId := S (nextCheckpointId b) |}).
  pose proof (reduceEdits_validateAll b
    (sort reverseRangeOrder (atomEditsOf (Lsp.edits edit)))) as Hv.
  unfold atomEditsOf in *.
  rewrite <- (Hv ltac:(rewrite sort_perm; apply atomEditsOf_ordered) b0 None eq_refl eq_refl).
  by destruct (reduceEdits b0 None _) as [b' [prev|err']].
Qed.

Lemma validateAll_return (b : TextBuffer) (es : list AtomIde.TextEdit) :
  ∀ prev,
    (∃ last, validateAll b prev es = Return last) ↔
    chained prev es ∧ Forall (λ e, startInRange b e = true) es.
Proof.
  induction es as [|cur rest IH]; intros prev; simpl.
  { split; [done|]. by exists prev. }
  rewrite validateEdit_cases.
  destruct (endsAfterStartOf cur prev) eqn:Hend.
  { split; [by intros [? ?]|]. by intros [[? _] _]. }
  destruct (startInRange b cur) eqn:Hin.
  - rewrite IH. rewrite Forall_cons. tauto.
  - split; [by intros [? ?]|]. rewrite Forall_cons. intros [_ [? _]]. congruence.
Qed.

Lemma validateAll_throw (b : TextBuffer) (es : list AtomIde.TextEdit) (err : Error) :
  ∀ prev,
    validateAll b prev es = Throw err →
    (err = OverlapError (default "" (path b)) ∧ ¬ chained prev es)
    ∨ (∃ e, e ∈ es ∧ startInRange b e = false ∧ err = outOfRangeAt (path b) e).
Proof.
  induction es as [|cur rest IH]; intros prev; simpl; [done|].
  rewrite validateEdit_cases.
  destruct (endsAfterStartOf cur prev) eqn:Hend.
  { intros [= <-]. left. split; [done|]. by intros [? _]. }
  destruct (startInRange b cur) eqn:Hin.
  - intros [[-> Hch]|(e & He & Hout & ->)]%IH.
    + left. split; [done|]. intros [_ ?]. by apply Hch.
    + right. exists e. split; [by right|done].
  - intros [= <-]. right. exists cur. split; [left|done].
Qed.

Lemma validateAll_decided (b : TextBuffer) (prev : option AtomIde.TextEdit)
    (es : list AtomIde.TextEdit) :
  (∃ last, validateAll b prev es = Return last)
  ∨ (∃ err, validateAll b prev es = Throw err).
Proof. destruct (validateAll b prev es); [left|right]; by eexists. Qed.

(** ** Pairs of a list *)

Section Pairwise.

Context {A : Type} (R : A → A → bool).
Hypothesis R_sym : ∀ x y, R x y = R y x.

Lemma forallb_perm (P : A → bool) (l1 l2 : list A) :
  l1 ≡ₚ l2 → forallb P l1 = forallb P l2.
Proof.
  induction 1 as [|x l1 l2 _ IH|x y l|l1 l2 l3 _ IH1 _ IH2]; simpl.
  - done.
  - by rewrite IH.
  - by destruct (P x), (P y).
  - by rewrite IH1.
Qed.

Lemma pairwise_perm (l1 l2 : list A) :
  l1 ≡ₚ l2 → pairwise R l1 = pairwise R l2.
Proof using R_sym.
  induction 1 as [|x l1 l2 Hp IH|x y l|l1 l2 l3 _ IH1 _ IH2]; simpl.
  - done.
  - by rewrite IH, (forallb_perm _ _ _ Hp).
  - rewrite (R_sym y x).
    destruct (R x y), (forallb (R x) l), (forallb (R y) l); done.
  - by rewrite IH1.
Qed.

Lemma pairwise_lookup (l : list A) (i j : nat) (a b : A) :
  pairwise R l = true → i ≠ j → l !! i = Some a → l !! j = Some b →
  R a b = true.
Proof using R_sym.
  revert i j. induction l as [|x l IH]; intros i j Hl Hij Hi Hj; [done|].
  simpl in Hl. apply andb_true_iff in Hl as [Hx Hl].
  rewrite forallb_forall in Hx.
  destruct i as [|i], j as [|j]; simplify_eq/=.
  - apply Hx. apply list_elem_of_In. by eapply list_elem_of_lookup_2.
  - rewrite R_sym. apply Hx. apply list_elem_of_In. by eapply list_elem_of_lookup_2.
  - eapply IH; [done| |done..]. lia.
Qed.

End Pairwise.

(** ** Edits that overlap or conflict *)

Lemma disjointEdits_sym (e1 e2 : AtomIde.TextEdit) :
  disjointEdits e1 e2 = disjointEdits e2 e1.
Proof.
  unfold disjointEdits, editsOverlap, overlaps. f_equal. apply andb_comm.
Qed.

Lemma compatibleEdits_sym (e1 e2 : AtomIde.TextEdit) :
  compatibleEdits e1 e2 = compatibleEdits e2 e1.
Proof.
  unfold compatibleEdits, editsConflict, overlaps, insertionAtStart.
  f_equal. f_equal; [apply andb_comm|].
  f_equal; [|f_equal]; apply bool_decide_ext; naive_solver.
Qed.

(** A chain of ordered edits has no two edits that overlap. *)
Lemma chained_disjoint (es : list AtomIde.TextEdit) :
  Forall ordered es →
  ∀ prev,
    chained prev es →
    pairwise disjointEdits es = true
    ∧ ∀ p e, prev = Some p → e ∈ es →
        Point.le e.(AtomIde.oldRange).(Range.end_) p.(AtomIde.oldRange).(Range.start).
Proof.
  induction 1 as [|cur rest Hord Hrest IH]; intros prev Hch; simpl.
  { split; [done|]. intros p e _ He. by apply elem_of_nil in He. }
  destruct Hch as [Hend Hch].
  destruct (IH _ Hch) as [Hpw Hle]. split.
  - rewrite Hpw, andb_true_r. apply forallb_forall. intros e He%list_elem_of_In.
    specialize (Hle cur e eq_refl He).
    unfold disjointEdits, editsOverlap, overlaps.
    apply negb_true_iff, andb_false_iff. left.
    apply not_true_iff_false. intros Hlt%pointLtb_lt.
    by eapply Point_lt_not_le.
  - intros p e -> [->|He]%elem_of_cons.
    + by apply Point_compare_le in Hend.
    + apply Point_compare_le in Hend.
      eapply Point_le_trans; [|exact Hend].
      eapply Point_le_trans; [|exact Hord]. by apply (Hle cur).
Qed.

Lemma compatible_sorted_pair (p cur : AtomIde.TextEdit) :
  ordered p → before reverseRangeOrder p cur → compatibleEdits p cur = true →
  endsAfterStartOf cur (Some p) = false.
Proof.
  unfold ordered, before, compatibleEdits, endsAfterStartOf. intros Hord Hbefore Hc.
  apply negb_true_iff in Hc. point_order.
Qed.

(** Sorted in reverse range order, edits of which no two conflict form a
    chain. *)
Lemma sorted_compatible_chained (es : list AtomIde.TextEdit) :
  StronglySorted (before reverseRangeOrder) es → Forall ordered es →
  pairwise compatibleEdits es = true → chained None es.
Proof.
  destruct es as [|e es]; [done|]. simpl.
  intros Hs Ho Hpw. split; [done|].
  revert e Hs Ho Hpw. induction es as [|cur rest IH]; intros p Hs Ho Hpw; [done|].
  simpl in *.
  apply StronglySorted_inv in Hs as [Hs Hp].
  apply Forall_cons in Hp as [Hpc _].
  apply Forall_cons in Ho as [Hop Ho].
  apply andb_true_iff in Hpw as [Hpw1 Hpw].
  apply andb_true_iff in Hpw1 as [Hpc' _].
  split; [by apply compatible_sorted_pair|].
  by apply IH.
Qed.

(** ** The document edit applier: outcomes *)

Lemma handleTextDocumentEdit_throw_text (b : TextBuffer) (edit : Lsp.TextDocumentEdit)
    (err : Error) :
  snd (handleTextDocumentEdit b edit) = Throw err →
  getText (fst (handleTextDocumentEdit b edit)) = getText b.
Proof. intros H. by rewrite (handleTextDocumentEdit_throw _ _ _ H). Qed.

(** A batch with two overlapping edits throws. *)
Lemma overlapping_pair_throws (b : TextBuffer) (edit : Lsp.TextDocumentEdit) :
  pairwise disjointEdits (atomEditsOf edit.(Lsp.edits)) = false →
  ∃ err, snd (handleTextDocumentEdit b edit) = Throw err.
Proof.
  intros Hpw. rewrite handleTextDocumentEdit_outcome.
  destruct (validateAll_decided b None
    (sort reverseRangeOrder (atomEditsOf (Lsp.edits edit)))) as [Hret|[err ->]];
    [|by exists err].
  apply validateAll_return in Hret as [Hch _].
  apply chained_disjoint in Hch as [Hd _];
    [|rewrite sort_perm; apply atomEditsOf_ordered].
  rewrite (pairwise_perm _ disjointEdits_sym _ _ (sort_perm _ _)) in Hd. congruence.
Qed.

(** A batch with an edit that starts outside the buffer throws. *)
Lemma out_of_range_start_throws (b : TextBuffer) (edit : Lsp.TextDocumentEdit) :
  forallb (startInRange b) (atomEditsOf edit.(Lsp.edits)) = false →
  ∃ err, snd (handleTextDocumentEdit b edit) = Throw err.
Proof.
  intros Hall. rewrite handleTextDocumentEdit_outcome.
  destruct (validateAll_decided b None
    (sort reverseRangeOrder (atomEditsOf (Lsp.edits edit)))) as [Hret|[err ->]];
    [|by exists err].
  apply validateAll_return in Hret as [_ Hin].
  rewrite sort_perm in Hin. rewrite Forall_forall in Hin.
  assert (forallb (startInRange b) (atomEditsOf (Lsp.edits edit)) = true); [|congruence].
  apply forallb_forall. intros e He%list_elem_of_In. by apply Hin.
Qed.

(** The error thrown is one of the two of [validateEdit]; which one is
    settled by the edits. *)
Lemma thrown_error_kind (b : TextBuffer) (edit : Lsp.TextDocumentEdit) (err : Error) :
  snd (handleTextDocumentEdit b edit) = Throw err →
  (isOverlapError err = true
   ∧ err = OverlapError (default "" (path b))
   ∧ pairwise compatibleEdits (atomEditsOf edit.(Lsp.edits)) = false)
  ∨ (isOutOfRangeError err = true
     ∧ forallb (startInRange b) (atomEditsOf edit.(Lsp.edits)) = false).
Proof.
  rewrite handleTextDocumentEdit_outcome.
  destruct (validateAll b None _) as [last|err'] eqn:Hv; [done|].
  intros [= ->].
  apply validateAll_throw in Hv as [[-> Hch]|(e & He & Hout & ->)].
  - left. split; [done|]. split; [done|].
    apply not_true_iff_false. intros Hpw. apply Hch.
    apply sorted_compatible_chained.
    + apply sort_sorted;
        [apply reverseRangeOrder_total|apply reverseRangeOrder_trans].
    + rewrite sort_perm. apply atomEditsOf_ordered.
    + by rewrite (pairwise_perm _ compatibleEdits_sym _ _ (sort_perm _ _)).
  - right. split; [done|].
    apply not_true_iff_false. intros Hall. rewrite forallb_forall in Hall.
    rewrite sort_perm in He. apply list_elem_of_In in He.
    specialize (Hall _ He). congruence.
Qed.

(** The edit sorted first starts at or after every other edit. *)
Lemma sort_head_latest (es : list AtomIde.TextEdit) (e : AtomIde.TextEdit) :
  e ∈ es →
  ∃ first rest,
    sort reverseRangeOrder es = first :: rest
    ∧ e.(AtomIde.oldRange).(Range.start).(Point.row)
      ≤ first.(AtomIde.oldRange).(Range.start).(Point.row).
Proof.
  intros He. rewrite <- (sort_perm reverseRangeOrder) in He.
  pose proof (sort_sorted reverseRangeOrder reverseRangeOrder_total
                reverseRangeOrder_trans es) as Hs.
  destruct (sort reverseRangeOrder es) as [|first rest]; [by apply elem_of_nil in He|].
  exists first, rest. split; [done|].
  apply elem_of_cons in He as [->|He]; [done|].
  apply StronglySorted_inv in Hs as [_ Hf]. rewrite Forall_forall in Hf.
  specialize (Hf _ He). unfold before in Hf. clear -Hf. point_order.
Qed.

(** When an edit starts beyond the last row, the error is the
    out-of-range one. *)
Lemma start_row_beyond_last_row (b : TextBuffer) (edit : Lsp.TextDocumentEdit)
    (e : AtomIde.TextEdit) :
  e ∈ atomEditsOf edit.(Lsp.edits) →
  lineLengthForRow b e.(AtomIde.oldRange).(Range.start).(Point.row) = None →
  ∃ err, snd (handleTextDocumentEdit b edit) = Throw err
         ∧ isOutOfRangeError err = true.
Proof.
  intros He Hrow. rewrite handleTextDocumentEdit_outcome.
  destruct (sort_head_latest _ _ He) as (first & rest & -> & Hle).
  simpl. rewrite validateEdit_cases. simpl.
  unfold lineLengthForRow in Hrow. apply fmap_None, lookup_ge_None in Hrow.
  unfold startInRange, positionInRange.
  rewrite (proj2 (lookup_ge_None _ _)) by lia.
  by eexists.
Qed.

(** A batch of which no two edits conflict and every edit starts inside
    the buffer is applied. *)
Lemma compatible_batch_returns (b : TextBuffer) (edit : Lsp.TextDocumentEdit) :
  pairwise compatibleEdits (atomEditsOf edit.(Lsp.edits)) = true →
  forallb (startInRange b) (atomEditsOf edit.(Lsp.edits)) = true →
  snd (handleTextDocumentEdit b edit) = Return b.(nextCheckpointId).
Proof.
  intros Hpw Hall.
  destruct (snd (handleTextDocumentEdit b edit)) as [checkpoint|err] eqn:Hout.
  - by apply handleTextDocumentEdit_return in Hout as [-> _].
  - destruct (thrown_error_kind _ _ _ Hout) as [(_ & _ & ?)|[_ ?]]; congruence.
Qed.

(** The descending order of the applier. *)
Example sort_descending :
  sort reverseRangeOrder
    (atomEditsOf [lsEdit 0 0 0 5 "a"; lsEdit 2 0 2 1 "b"; lsEdit 0 6 0 11 "c"])
  = atomEditsOf [lsEdit 2 0 2 1 "b"; lsEdit 0 6 0 11 "c"; lsEdit 0 0 0 5 "a"].
Proof. reflexivity. Qed.

Lemma adjacent_edits_compatible (e1 e2 : AtomIde.TextEdit) :
  ordered e1 → ordered e2 →
  e1.(AtomIde.oldRange).(Range.end_) = e2.(AtomIde.oldRange).(Range.start) →
  insertionAtStart e1.(AtomIde.oldRange) e2.(AtomIde.oldRange) = false →
  compatibleEdits e1 e2 = true.
Proof.
  unfold ordered, compatibleEdits. intros H1 H2 Hadj Hins.
  apply negb_true_iff. point_order.
Qed.

Lemma noRivalInsertions_sym (e1 e2 : AtomIde.TextEdit) :
  noRivalInsertions e1 e2 = noRivalInsertions e2 e1.
Proof.
  unfold noRivalInsertions, rivalInsertions, Range.isEmpty.
  destruct e1 as [[s1 f1] t1], e2 as [[s2 f2] t2]; simpl.
  repeat match goal with
    | |- context [bool_decide ?P] => destruct (bool_decide_reflect P); simpl
    end; simplify_eq; done.
Qed.

(** Edits tied by the comparator are one and the same edit when no two
    edits overlap or are rival insertions. *)
Lemma tied_edits_equal (es : list AtomIde.TextEdit) (x y : AtomIde.TextEdit) :
  Forall ordered es →
  pairwise disjointEdits es = true →
  pairwise noRivalInsertions es = true →
  x ∈ es → y ∈ es → reverseRangeOrder x y = 0%Z → x = y.
Proof.
  intros Hord Hd Hr [i Hi]%list_elem_of_lookup [j Hj]%list_elem_of_lookup
    Htie%reverseRangeOrder_tie.
  destruct (decide (i = j)) as [->|Hij]; [congruence|].
  pose proof (pairwise_lookup _ disjointEdits_sym _ _ _ _ _ Hd Hij Hi Hj) as Hxy.
  pose proof (pairwise_lookup _ noRivalInsertions_sym _ _ _ _ _ Hr Hij Hi Hj) as Hxy'.
  rewrite Forall_forall in Hord.
  assert (ordered x) as Hx by (apply Hord; by eapply list_elem_of_lookup_2).
  clear -Htie Hxy Hxy' Hx.
  unfold ordered, disjointEdits, noRivalInsertions, rivalInsertions, Range.isEmpty in *.
  destruct x as [[s1 f1] t1], y as [[s2 f2] t2]; simpl in *. simplify_eq.
  apply negb_true_iff in Hxy, Hxy'.
  destruct (decide (t1 = t2)) as [->|Ht]; [done|].
  rewrite (bool_decide_eq_true_2 _ eq_refl) in Hxy'.
  rewrite (bool_decide_eq_false_2 _ Ht) in Hxy'. simpl in Hxy'.
  rewrite !andb_true_r in Hxy'. apply bool_decide_eq_false in Hxy'.
  exfalso. clear Ht. point_order.
Qed.

(** ** Claims on the document edit applier *)

(** C8: on "hello world", the batch replacing columns 0-5 of row 0 by
    "goodbye" and columns 6-11 of row 0 by "earth" succeeds and leaves
    "goodbye earth". *)
Theorem hello_world_becomes_goodbye_earth :
  let result :=
    handleTextDocumentEdit helloWorld
      (batch "file:///a" [lsEdit 0 0 0 5 "goodbye"; lsEdit 0 6 0 11 "earth"]) in
  snd result = Return 1 ∧ getText (fst result) = "goodbye earth".
Proof. vm_compute. done. Qed.

(** C10: a batch with no edit succeeds on every buffer, returns the
    checkpoint it created and leaves the text as it was. *)
Theorem empty_batch_succeeds (buffer : TextBuffer)
    (textDocument : Lsp.VersionedTextDocumentIdentifier) :
  let result :=
    handleTextDocumentEdit buffer (Lsp.mkTextDocumentEdit textDocument []) in
  snd result = Return (snd (createCheckpoint buffer))
  ∧ getText (fst result) = getText buffer
  ∧ fst result = fst (createCheckpoint buffer).
Proof.
  unfold handleTextDocumentEdit, groupChangesSinceCheckpoint. simpl.
  rewrite Nat.eqb_refl. done.
Qed.

(** C3, as amended: a batch with two edits whose ranges truly overlap
    throws and leaves the text unchanged; the error is the overlap error
    whenever every edit starts inside the buffer (an edit starting outside
    can be reported first otherwise).  A batch in which no two edits
    overlap or share their start with different ends never throws the
    overlap error; edits that are adjacent, one ending where the other
    starts, with different starts are among them. *)
Theorem overlapping_edits_rejected (buffer : TextBuffer) (edit : Lsp.TextDocumentEdit) :
  (∀ i j e1 e2,
      i ≠ j →
      atomEditsOf edit.(Lsp.edits) !! i = Some e1 →
      atomEditsOf edit.(Lsp.edits) !! j = Some e2 →
      editsOverlap e1 e2 = true →
      ∃ err,
        snd (handleTextDocumentEdit buffer edit) = Throw err
        ∧ getText (fst (handleTextDocumentEdit buffer edit)) = getText buffer
        ∧ (forallb (startInRange buffer) (atomEditsOf edit.(Lsp.edits)) = true →
           err = OverlapError (default "" (getPath buffer))))
  ∧ (pairwise compatibleEdits (atomEditsOf edit.(Lsp.edits)) = true →
     ∀ err, snd (handleTextDocumentEdit buffer edit) = Throw err →
            isOverlapError err = false).
Proof.
  split.
  - intros i j e1 e2 Hij Hi Hj Hov.
    destruct (overlapping_pair_throws buffer edit) as [err Herr].
    { apply not_true_iff_false. intros Hpw.
      pose proof (pairwise_lookup _ disjointEdits_sym _ _ _ _ _ Hpw Hij Hi Hj) as Hd.
      unfold disjointEdits in Hd. rewrite Hov in Hd. done. }
    exists err. split; [done|]. split; [by eapply handleTextDocumentEdit_throw_text|].
    intros Hall.
    destruct (thrown_error_kind _ _ _ Herr) as [(_ & -> & _)|[_ Hout]]; [done|congruence].
  - intros Hpw err Herr.
    destruct (thrown_error_kind _ _ _ Herr) as [(_ & _ & Hc)|[Hout _]]; [congruence|].
    by destruct err.
Qed.

Lemma overlapping_edits_rejected_witness :
  (∃ err,
      snd (handleTextDocumentEdit hello
             (batch "file:///a" [lsEdit 0 0 0 3 "a"; lsEdit 0 1 0 4 "b"])) = Throw err
      ∧ getText (fst (handleTextDocumentEdit hello
             (batch "file:///a" [lsEdit 0 0 0 3 "a"; lsEdit 0 1 0 4 "b"])))
        = getText hello
      ∧ err = OverlapError "")
  ∧ snd (handleTextDocumentEdit hello
           (batch "file:///a" [lsEdit 0 0 0 3 "a"; lsEdit 0 3 0 5 "b"]))
    ≠ Throw (OverlapError "").
Proof.
  split.
  - destruct (proj1 (overlapping_edits_rejected hello
                (batch "file:///a" [lsEdit 0 0 0 3 "a"; lsEdit 0 1 0 4 "b"]))
                0 1 (Convert.convertLsTextEdit (lsEdit 0 0 0 3 "a"))
                    (Convert.convertLsTextEdit (lsEdit 0 1 0 4 "b")))
      as (err & Hthrow & Htext & Hkind);
      [lia|reflexivity|reflexivity|reflexivity|].
    exists err. split; [exact Hthrow|]. split; [exact Htext|].
    apply Hkind. reflexivity.
  - intros Hthrow.
    pose proof (proj2 (overlapping_edits_rejected hello
                  (batch "file:///a" [lsEdit 0 0 0 3 "a"; lsEdit 0 3 0 5 "b"]))
                  eq_refl _ Hthrow) as Hkind.
    discriminate Hkind.
Defined.

(** C3 as stated fails on the kind of the error: a batch with two
    overlapping edits throws the out-of-range error, not the overlap
    error, when another of its edits starts outside the buffer and comes
    first in the descending order. *)
Lemma overlap_claim_counterexample :
  editsOverlap (Convert.convertLsTextEdit (lsEdit 0 0 0 3 "a"))
               (Convert.convertLsTextEdit (lsEdit 0 1 0 4 "b")) = true
  ∧ snd (handleTextDocumentEdit hello
           (batch "file:///a"
              [lsEdit 0 0 0 3 "a"; lsEdit 0 1 0 4 "b"; lsEdit 5 0 5 0 "c"]))
    = Throw (OutOfRangeError "" 6 1).
Proof. vm_compute. done. Qed.

(** A defect of the comparator's tie-break: an insertion at the start
    of a replacement is adjacent to it and does not overlap it, yet the
    batch is thrown out, because the empty range is sorted first; the same
    insertion at the end of the replacement is applied. *)
Example insertion_beside_a_replacement :
  adjacent (Convert.lsRangeToAtomRange (Lsp.range (lsEdit 0 1 0 1 "x")))
           (Convert.lsRangeToAtomRange (Lsp.range (lsEdit 0 1 0 5 "y"))) = true
  ∧ editsOverlap (Convert.convertLsTextEdit (lsEdit 0 1 0 1 "x"))
                 (Convert.convertLsTextEdit (lsEdit 0 1 0 5 "y")) = false
  ∧ snd (handleTextDocumentEdit hello
           (batch "file:///a" [lsEdit 0 1 0 1 "x"; lsEdit 0 1 0 5 "y"]))
    = Throw (OverlapError "")
  ∧ getText (fst (handleTextDocumentEdit hello
                    (batch "file:///a" [lsEdit 0 5 0 5 "x"; lsEdit 0 1 0 5 "y"])))
    = "hyx".
Proof. vm_compute. done. Qed.

(** C5, as amended: a batch with an edit whose start row exceeds the last
    row, or whose start column exceeds the length of its row, throws and
    leaves the text unchanged.  The error is the out-of-range error when
    the start row exceeds the last row, and when no two edits of the batch
    conflict (an overlap met earlier in the descending order is reported
    first otherwise). *)
Theorem out_of_range_edit_rejected (buffer : TextBuffer) (edit : Lsp.TextDocumentEdit)
    (e : AtomIde.TextEdit) :
  e ∈ atomEditsOf edit.(Lsp.edits) →
  startInRange buffer e = false →
  ∃ err,
    snd (handleTextDocumentEdit buffer edit) = Throw err
    ∧ getText (fst (handleTextDocumentEdit buffer edit)) = getText buffer
    ∧ (lineLengthForRow buffer e.(AtomIde.oldRange).(Range.start).(Point.row) = None →
       isOutOfRangeError err = true)
    ∧ (pairwise compatibleEdits (atomEditsOf edit.(Lsp.edits)) = true →
       isOutOfRangeError err = true).
Proof.
  intros He Hout.
  destruct (out_of_range_start_throws buffer edit) as [err Herr].
  { apply not_true_iff_false. intros Hall. rewrite forallb_forall in Hall.
    apply list_elem_of_In in He. specialize (Hall _ He). congruence. }
  exists err. split; [done|]. split; [by eapply handleTextDocumentEdit_throw_text|].
  split.
  - intros Hrow.
    destruct (start_row_beyond_last_row buffer edit e He Hrow) as (err' & Herr' & Hk).
    congruence.
  - intros Hpw.
    destruct (thrown_error_kind _ _ _ Herr) as [(_ & _ & Hc)|[Hk _]]; [congruence|done].
Qed.

Lemma out_of_range_edit_rejected_witness :
  ∃ err,
    snd (handleTextDocumentEdit hello
           (batch "file:///a" [lsEdit 0 0 0 3 "a"; lsEdit 5 0 5 0 "c"])) = Throw err
    ∧ getText (fst (handleTextDocumentEdit hello
           (batch "file:///a" [lsEdit 0 0 0 3 "a"; lsEdit 5 0 5 0 "c"])))
      = getText hello
    ∧ isOutOfRangeError err = true.
Proof.
  destruct (out_of_range_edit_rejected hello
              (batch "file:///a" [lsEdit 0 0 0 3 "a"; lsEdit 5 0 5 0 "c"])
              (Convert.convertLsTextEdit (lsEdit 5 0 5 0 "c")))
    as (err & Hthrow & Htext & Hrow & _).
  - right. left.
  - reflexivity.
  - exists err. split; [exact Hthrow|]. split; [exact Htext|].
    apply Hrow. reflexivity.
Defined.

(** C5 as stated fails: the third edit starts at column 5 of a row of
    length 2, yet the batch throws the overlap error, met first. *)
Lemma out_of_range_claim_counterexample :
  startInRange twoRows (Convert.convertLsTextEdit (lsEdit 0 5 0 6 "z")) = false
  ∧ lineLengthForRow twoRows 0 = Some 2
  ∧ snd (handleTextDocumentEdit twoRows
           (batch "file:///a"
              [lsEdit 1 0 1 2 "x"; lsEdit 1 1 1 2 "y"; lsEdit 0 5 0 6 "z"]))
    = Throw (OverlapError "").
Proof. vm_compute. done. Qed.

(** C4, as amended: for edits of which no two overlap and no two are
    insertions at one position with different text, any two orderings of
    the batch give the same outcome, the same buffer and so the same
    final text. *)
Theorem edit_order_independence (buffer : TextBuffer)
    (textDocument : Lsp.VersionedTextDocumentIdentifier)
    (edits1 edits2 : list Lsp.TextEdit) :
  edits1 ≡ₚ edits2 →
  pairwise disjointEdits (atomEditsOf edits1) = true →
  pairwise noRivalInsertions (atomEditsOf edits1) = true →
  handleTextDocumentEdit buffer (Lsp.mkTextDocumentEdit textDocument edits1)
  = handleTextDocumentEdit buffer (Lsp.mkTextDocumentEdit textDocument edits2)
  ∧ getText (fst (handleTextDocumentEdit buffer
                    (Lsp.mkTextDocumentEdit textDocument edits1)))
    = getText (fst (handleTextDocumentEdit buffer
                      (Lsp.mkTextDocumentEdit textDocument edits2))).
Proof.
  intros Hp Hd Hr.
  assert (sort reverseRangeOrder (atomEditsOf edits1)
          = sort reverseRangeOrder (atomEditsOf edits2)) as Hsort.
  { apply sort_permutation_invariant.
    - apply reverseRangeOrder_total.
    - apply reverseRangeOrder_trans.
    - intros x y. by apply tied_edits_equal; [apply atomEditsOf_ordered|..].
    - apply reverseRangeOrder_antisym.
    - unfold atomEditsOf. by apply Permutation_map. }
  unfold handleTextDocumentEdit, atomEditsOf in *. simpl. by rewrite Hsort.
Qed.

Lemma edit_order_independence_witness :
  handleTextDocumentEdit helloWorld
    (batch "file:///a" [lsEdit 0 0 0 5 "goodbye"; lsEdit 0 6 0 11 "earth"])
  = handleTextDocumentEdit helloWorld
      (batch "file:///a" [lsEdit 0 6 0 11 "earth"; lsEdit 0 0 0 5 "goodbye"])
  ∧ getText (fst (handleTextDocumentEdit helloWorld
      (batch "file:///a" [lsEdit 0 0 0 5 "goodbye"; lsEdit 0 6 0 11 "earth"])))
    = getText (fst (handleTextDocumentEdit helloWorld
        (batch "file:///a" [lsEdit 0 6 0 11 "earth"; lsEdit 0 0 0 5 "goodbye"]))).
Proof.
  apply (edit_order_independence helloWorld (Lsp.mkTextDocument "file:///a" None)
           [lsEdit 0 0 0 5 "goodbye"; lsEdit 0 6 0 11 "earth"]
           [lsEdit 0 6 0 11 "earth"; lsEdit 0 0 0 5 "goodbye"]).
  - apply perm_swap.
  - reflexivity.
  - reflexivity.
Defined.

(** C4 as stated fails: two insertions at one position neither overlap
    nor leave the buffer's range, and the two orderings give different
    texts. *)
Lemma order_independence_counterexample :
  [lsEdit 0 1 0 1 "x"; lsEdit 0 1 0 1 "y"] ≡ₚ [lsEdit 0 1 0 1 "y"; lsEdit 0 1 0 1 "x"]
  ∧ pairwise disjointEdits
      (atomEditsOf [lsEdit 0 1 0 1 "x"; lsEdit 0 1 0 1 "y"]) = true
  ∧ forallb (editInRange hello)
      (atomEditsOf [lsEdit 0 1 0 1 "x"; lsEdit 0 1 0 1 "y"]) = true
  ∧ getText (fst (handleTextDocumentEdit hello
       (batch "file:///a" [lsEdit 0 1 0 1 "x"; lsEdit 0 1 0 1 "y"]))) = "hyxello"
  ∧ getText (fst (handleTextDocumentEdit hello
       (batch "file:///a" [lsEdit 0 1 0 1 "y"; lsEdit 0 1 0 1 "x"]))) = "hxyello".
Proof. split; [apply perm_swap|]. vm_compute. done. Qed.

(** ** Claims on normalization *)

Lemma fold_left_push {A B : Type} (f : A → B) (l : list A) :
  ∀ acc, fold_left (λ acc x, acc ++ [f x]) l acc = acc ++ map f l.
Proof.
  induction l as [|x l IH]; intros acc; simpl; [by rewrite app_nil_r|].
  by rewrite IH, <- app_assoc.
Qed.

Lemma getProperty_entry {V : Type} (o : JsObject V) (key : string) (v : V) :
  NoDup (objectKeys o) → (key, v) ∈ o → getProperty o key = Some v.
Proof.
  induction o as [|[k w] o IH]; intros Hnd Hin; [by apply elem_of_nil in Hin|].
  simpl in *. apply NoDup_cons in Hnd as [Hk Hnd].
  apply elem_of_cons in Hin as [[= -> ->]|Hin].
  - by rewrite String.eqb_refl.
  - destruct (String.eqb_spec k key) as [->|_]; [|by apply IH].
    exfalso. apply Hk. unfold objectKeys. apply list_elem_of_fmap. by exists (key, v).
Qed.

(** C6: a legacy-shape edit (a [changes] map, no [documentChanges] key)
    normalizes to one batch per key of the map, in the order of the keys,
    each with that key as its document, version null and that key's
    edits; these are the batches the per-batch shape with version null
    normalizes to. *)
Theorem legacy_changes_normalized (changes : JsObject (list Lsp.TextEdit)) :
  NoDup (objectKeys changes) →
  normalizeChanges (Lsp.mkWorkspaceEdit NoProperty (Value changes))
  = map legacyBatch changes
  ∧ normalizeChanges (Lsp.mkWorkspaceEdit NoProperty (Value changes))
    = normalizeChanges
        (Lsp.mkWorkspaceEdit (Value (map legacyBatch changes)) NoProperty).
Proof.
  intros Hnd.
  assert (normalizeChanges (Lsp.mkWorkspaceEdit NoProperty (Value changes))
          = map legacyBatch changes) as Heq; [|by rewrite Heq].
  unfold normalizeChanges. simpl. rewrite fold_left_push. simpl.
  unfold objectKeys. rewrite map_map. apply map_ext_in.
  intros [uri edits] Hin%list_elem_of_In. simpl.
  by rewrite (getProperty_entry _ _ _ Hnd Hin).
Qed.

Lemma legacy_changes_normalized_witness :
  normalizeChanges
    (Lsp.mkWorkspaceEdit NoProperty (Value [("file:///a", [lsEdit 0 0 0 1 "x"])]))
  = map legacyBatch [("file:///a", [lsEdit 0 0 0 1 "x"])]
  ∧ normalizeChanges
      (Lsp.mkWorkspaceEdit NoProperty (Value [("file:///a", [lsEdit 0 0 0 1 "x"])]))
    = normalizeChanges
        (Lsp.mkWorkspaceEdit
           (Value (map legacyBatch [("file:///a", [lsEdit 0 0 0 1 "x"])])) NoProperty).
Proof.
  apply (legacy_changes_normalized [("file:///a", [lsEdit 0 0 0 1 "x"])]).
  apply NoDup_cons. split; [|apply NoDup_nil_2].
  intros H. by apply elem_of_nil in H.
Defined.

(** C9: the shape is chosen by the presence of the [documentChanges]
    key, whatever its value: with the key present the [changes] map is
    ignored, and the result is the value of the key, or the empty list
    when that value is undefined. *)
Theorem documentChanges_key_decides_the_shape
    (changes : Property (JsObject (list Lsp.TextEdit)))
    (batches : list Lsp.DocumentChange) :
  normalizeChanges (Lsp.mkWorkspaceEdit UndefinedValue changes) = []
  ∧ normalizeChanges (Lsp.mkWorkspaceEdit (Value []) changes) = []
  ∧ normalizeChanges (Lsp.mkWorkspaceEdit (Value batches) changes) = batches.
Proof. done. Qed.

(** ** Claims on resource operations *)

(** C7 fails on the code: [CreateFile] writes the empty file at the URI
    string as it is given, whatever the resolution of URIs to paths and
    whatever the options; when the URI resolves to another path, no
    file appears at the resolved path. *)
Theorem create_writes_at_the_unresolved_uri (uriToPath : string → string)
    (uri : string) (options : option Lsp.FileOptions) (files : gmap string string) :
  handleResourceOperation uriToPath (Lsp.CreateFile uri options) files
  = (<[uri := ""]> files, Return tt)
  ∧ (uriToPath uri ≠ uri →
     fst (handleResourceOperation uriToPath (Lsp.CreateFile uri options) files)
       !! uriToPath uri
     = files !! uriToPath uri).
Proof.
  split; [done|]. intros Hne. simpl. by rewrite lookup_insert_ne.
Qed.

(** Delete and rename act on the resolved path. *)
Lemma delete_resolves_the_uri (uriToPath : string → string) (uri : string)
    (options : option Lsp.DeleteFileOptions) (files : gmap string string) :
  handleResourceOperation uriToPath (Lsp.DeleteFile uri options) files
  = unlink (uriToPath uri) files.
Proof. done. Qed.

Lemma rename_resolves_the_uris (uriToPath : string → string) (oldUri newUri : string)
    (options : option Lsp.FileOptions) (files : gmap string string) :
  handleResourceOperation uriToPath (Lsp.RenameFile oldUri newUri options) files
  = rename (uriToPath oldUri) (uriToPath newUri) files.
Proof. done. Qed.

(** On the URI file:///tmp/c: the file created is not at /tmp/c, and
    deleting the same URI right after fails for want of /tmp/c. *)
Example create_then_delete_the_same_uri :
  let files :=
    fst (handleResourceOperation fileUriToPath (Lsp.CreateFile "file:///tmp/c" None) ∅) in
  fileUriToPath "file:///tmp/c" = "/tmp/c"
  ∧ files !! "/tmp/c" = None
  ∧ files !! "file:///tmp/c" = Some ""
  ∧ snd (handleResourceOperation fileUriToPath (Lsp.DeleteFile "file:///tmp/c" None) files)
    = Throw (IoError "ENOENT" "/tmp/c").
Proof. vm_compute. done. Qed.

(** ** The stages of a call of two batches *)

Lemma stage_first_resumed (events : list Event) :
  ∀ stage,
    stage = Reverted ∨ (∃ b, stage = Pending true b) →
    fold_left advance (events ++ [Resume 0; Resume 1; React]) stage = Reverted.
Proof.
  induction events as [|event events IH]; intros stage Hstage; simpl.
  - by destruct Hstage as [->|[[|] ->]].
  - apply IH. destruct Hstage as [->|[b ->]].
    + left. by destruct event as [[|[|?]]|].
    + destruct event as [[|[|?]]|]; simpl; eauto. destruct b; eauto.
Qed.

Lemma stage_missed (events : list Event) :
  ∀ a,
    fold_left advance (events ++ [Resume 0; Resume 1; React]) (Missed a)
    = Missed true.
Proof.
  induction events as [|event events IH]; intros a; simpl; [done|].
  destruct event as [[|[|?]]|]; simpl; apply IH.
Qed.

Lemma stage_after (schedule : list Event) :
  ∀ second,
    fold_left advance (schedule ++ [Resume 0; Resume 1; React]) (Pending false second)
    = if rejectionHandledFirst second schedule then Missed true else Reverted.
Proof.
  induction schedule as [|event schedule IH]; intros second; simpl; [done|].
  destruct event as [[|[|task]]|]; simpl.
  - apply stage_first_resumed. eauto.
  - apply IH.
  - apply IH.
  - destruct second; simpl; [apply stage_missed|apply IH].
Qed.

Lemma stage_after_schedule (schedule : list Event) :
  fold_left advance (schedule ++ [Resume 0; Resume 1; React]) (Pending false false)
  = if rejectionHandledFirst false schedule then Missed true else Reverted.
Proof. apply stage_after. Qed.

(** ** The transaction coordinator *)

Section CoordinatorFacts.

Context (uriToPath : string → string).

Lemma launch_pending (changes : list Lsp.DocumentChange) (ws : Workspace) :
  (launch uriToPath changes ws).(rejection) = None
  ∧ (launch uriToPath changes ws).(applied) = None
  ∧ (launch uriToPath changes ws).(checkpoints) = []
  ∧ (launch uriToPath changes ws).(workspace).(buffers) = ws.(buffers)
  ∧ (launch uriToPath changes ws).(workspace).(notifications) = ws.(notifications).
Proof.
  unfold launch.
  set (call0 := {| workspace := ws; checkpoints := []; resumed := [];
                   rejection := None; applied := None |}).
  assert (rejection call0 = None ∧ applied call0 = None ∧ checkpoints call0 = []
          ∧ buffers (workspace call0) = buffers ws
          ∧ notifications (workspace call0) = notifications ws) as H by done.
  revert H. generalize call0. clear call0.
  induction changes as [|edit changes IH]; intros call H; simpl; [done|].
  apply IH. by destruct (isTextDocumentEdit edit).
Qed.

(** A call made of resource operations alone answers [applied: true]
    and notifies nothing, whether the operations fail or not. *)
Lemma resource_operations_never_reject (changes : list Lsp.DocumentChange)
    (schedule : list Event) (ws : Workspace) :
  forallb (λ edit, negb (isTextDocumentEdit edit)) changes = true →
  snd (handleDocumentChanges uriToPath changes schedule ws) = true
  ∧ (fst (handleDocumentChanges uriToPath changes schedule ws)).(notifications)
    = ws.(notifications).
Proof.
  intros Hres. unfold handleDocumentChanges.
  destruct (launch_pending changes ws) as (Hr & Ha & _ & _ & Hn).
  assert (∀ events call,
            rejection call = None →
            fold_left (step uriToPath changes) events call = call) as Hidle.
  { induction events as [|event events IH]; intros call Hcall; simpl; [done|].
    assert (step uriToPath changes call event = call) as ->; [|by apply IH].
    destruct event as [task|]; simpl.
    - unfold resume. destruct (bool_decide _); [done|].
      destruct (changes !! task) as [[edit| | |]|] eqn:Hl; try done.
      rewrite forallb_forall in Hres.
      apply list_elem_of_lookup_2, list_elem_of_In, Hres in Hl. done.
    - unfold react. rewrite Hcall. by destruct (applied call). }
  rewrite (Hidle schedule) by done. rewrite Hidle by done.
  unfold finish, react. rewrite Ha, Hr. simpl. by rewrite Ha.
Qed.

(** [revertToCheckpoint] after a successful batch gives the buffer its
    text of before the batch back. *)
Lemma revert_after_return (b : TextBuffer) (edit : Lsp.TextDocumentEdit)
    (checkpoint : nat) :
  snd (handleTextDocumentEdit b edit) = Return checkpoint →
  getText (fst (revertToCheckpoint (fst (handleTextDocumentEdit b edit)) checkpoint))
  = getText b.
Proof.
  intros (_ & _ & Hu)%handleTextDocumentEdit_return.
  unfold revertToCheckpoint. by rewrite Hu.
Qed.

(** Two batches under every schedule *)

Lemma openBuffer_setBuffer (ws : Workspace) (path : string) (buffer : TextBuffer) :
  openBuffer (setBuffer ws path buffer) path = buffer.
Proof. unfold openBuffer, setBuffer. simpl. by rewrite lookup_insert_eq. Qed.

Lemma openBuffer_setBuffer_ne (ws : Workspace) (path other : string)
    (buffer : TextBuffer) :
  path ≠ other →
  openBuffer (setBuffer ws path buffer) other = openBuffer ws other.
Proof. intros. unfold openBuffer, setBuffer. simpl. by rewrite lookup_insert_ne. Qed.

Section TwoBatches.

Context (ws : Workspace) (editA editB : Lsp.TextDocumentEdit).
Context (checkpoint : nat) (err : Error).

Let pathA : string := uriToPath editA.(Lsp.textDocument).(Lsp.uri).
Let pathB : string := uriToPath editB.(Lsp.textDocument).(Lsp.uri).
Let bufferA1 : TextBuffer := fst (handleTextDocumentEdit (openBuffer ws pathA) editA).
Let changes : list Lsp.DocumentChange :=
  [Lsp.TextDocumentEditChange editA; Lsp.TextDocumentEditChange editB].

Hypothesis paths_differ : pathA ≠ pathB.
Hypothesis A_returns :
  snd (handleTextDocumentEdit (openBuffer ws pathA) editA) = Return checkpoint.
Hypothesis B_throws :
  snd (handleTextDocumentEdit (openBuffer ws pathB) editB) = Throw err.

Let at_ : Stage → Call → Prop :=
  atStage pathA pathB (openBuffer ws pathA) bufferA1 (openBuffer ws pathB)
    checkpoint err.

Lemma launch_at_stage : at_ (Pending false false) (launch uriToPath changes ws).
Proof using All.
  unfold at_, atStage, launch. simpl.
  repeat split; try done; by intros ?%elem_of_nil.
Qed.

Lemma resume_A (call : Call) :
  0 ∉ call.(resumed) →
  openBuffer call.(workspace) pathA = openBuffer ws pathA →
  resume uriToPath changes 0 call
  = {| workspace := setBuffer call.(workspace) pathA bufferA1;
       checkpoints := call.(checkpoints) ++ [(pathA, checkpoint)];
       resumed := 0 :: call.(resumed);
       rejection := call.(rejection);
       applied := call.(applied) |}.
Proof using All.
  intros Hnot Hopen. unfold resume.
  rewrite bool_decide_eq_false_2 by done. simpl. fold pathA. rewrite Hopen.
  unfold bufferA1.
  by destruct (handleTextDocumentEdit (openBuffer ws pathA) editA) as [b out];
    simpl in *; subst out.
Qed.

Lemma resume_B (call : Call) :
  1 ∉ call.(resumed) →
  openBuffer call.(workspace) pathB = openBuffer ws pathB →
  ∃ bufferB1,
    getText bufferB1 = getText (openBuffer ws pathB)
    ∧ resume uriToPath changes 1 call
      = {| workspace := setBuffer call.(workspace) pathB bufferB1;
           checkpoints := call.(checkpoints);
           resumed := 1 :: call.(resumed);
           rejection :=
             match call.(rejection) with
             | Some first => Some first
             | None => Some err
             end;
           applied := call.(applied) |}.
Proof using All.
  intros Hnot Hopen. unfold resume.
  rewrite bool_decide_eq_false_2 by done. simpl. fold pathB. rewrite Hopen.
  pose proof (handleTextDocumentEdit_throw_text _ _ _ B_throws) as Htext.
  destruct (handleTextDocumentEdit (openBuffer ws pathB) editB) as [b out].
  simpl in *. subst out. by exists b.
Qed.

Lemma step_advances (stage : Stage) (call : Call) (event : Event) :
  at_ stage call → at_ (advance stage event) (step uriToPath changes call event).
Proof using All.
  pose proof (revert_after_return _ _ _ A_returns) as Hrevert. fold bufferA1 in Hrevert.
  destruct stage as [a b| |a]; intros Hat.
  - (* the reaction has not run *)
    destruct Hat as (Happlied & Ha & Hb & HA & HB).
    destruct event as [[|[|task]]|]; simpl.
    + (* the first closure resumes *)
      destruct a.
      { unfold resume. rewrite bool_decide_eq_true_2 by by apply Ha.
        unfold at_, atStage; simpl; tauto. }
      destruct HA as [Hcps Hopen].
      rewrite resume_A; [|by intros ?%Ha|done].
      unfold at_, atStage. simpl. rewrite Hcps. simpl.
      split; [done|]. split; [split; [done|intros _; left]|].
      split.
      { rewrite elem_of_cons. rewrite Hb. split; [by intros [?|?]|by right]. }
      split.
      { split; [done|]. unfold setBuffer. simpl. by rewrite lookup_insert_eq. }
      destruct b.
      * destruct HB as [Hrej Htext]. split; [done|].
        unfold textOf in *. by rewrite openBuffer_setBuffer_ne.
      * destruct HB as [Hrej HopenB]. split; [done|].
        by rewrite openBuffer_setBuffer_ne.
    + (* the second closure resumes *)
      destruct b.
      { unfold resume. rewrite bool_decide_eq_true_2 by by apply Hb.
        unfold at_, atStage; simpl; tauto. }
      destruct HB as [Hrej Hopen].
      destruct (resume_B call) as (bufferB1 & Htext & ->); [by intros ?%Hb|done|].
      unfold at_, atStage. simpl. rewrite Hrej.
      split; [done|]. split.
      { rewrite elem_of_cons. rewrite Ha. split; [by intros [?|?]|by right]. }
      split; [split; [done|intros _; left]|].
      split.
      * destruct a.
        -- destruct HA as [Hcps HbufA]. split; [done|].
           unfold setBuffer. simpl. by rewrite lookup_insert_ne.
        -- destruct HA as [Hcps HopenA]. split; [done|].
           by rewrite openBuffer_setBuffer_ne.
      * split; [done|]. unfold textOf. by rewrite openBuffer_setBuffer.
    + (* no such task *)
      unfold resume. destruct (bool_decide _); [unfold at_, atStage; simpl; tauto|].
      unfold at_, atStage; simpl; tauto.
    + (* the reaction *)
      unfold react. rewrite Happlied.
      destruct b.
      * destruct HB as [Hrej Htext]. rewrite Hrej.
        destruct a.
        -- destruct HA as [Hcps HbufA].
           unfold at_, atStage, onRejected. simpl. rewrite Hcps. simpl.
           split; [done|]. split; [by apply Ha|]. split; [by apply Hb|].
           unfold textOf in *. split.
           ++ rewrite openBuffer_setBuffer.
              unfold openBuffer at 1. simpl. by rewrite HbufA.
           ++ by rewrite openBuffer_setBuffer_ne.
        -- destruct HA as [Hcps HopenA].
           unfold at_, atStage, onRejected. simpl. rewrite Hcps. simpl.
           split; [done|]. split; [done|]. split; [by apply Hb|].
           by split.
      * destruct HB as [Hrej HopenB]. rewrite Hrej.
        destruct a; unfold at_, atStage; simpl; tauto.
  - (* the first batch has been reverted *)
    destruct Hat as (Happlied & H0 & H1 & HtextA & HtextB).
    destruct event as [[|[|task]]|]; simpl.
    + unfold resume. rewrite bool_decide_eq_true_2 by done. unfold at_, atStage; simpl; tauto.
    + unfold resume. rewrite bool_decide_eq_true_2 by done. unfold at_, atStage; simpl; tauto.
    + unfold resume. destruct (bool_decide _); unfold at_, atStage; simpl; tauto.
    + unfold react. rewrite Happlied. unfold at_, atStage; simpl; tauto.
  - (* the reaction ran before the first closure resumed *)
    destruct Hat as (Happlied & Ha & H1 & HA & HtextB).
    destruct event as [[|[|task]]|]; simpl.
    + destruct a.
      { unfold resume. rewrite bool_decide_eq_true_2 by by apply Ha.
        unfold at_, atStage; simpl; tauto. }
      rewrite resume_A; [|by intros ?%Ha|done].
      unfold at_, atStage. simpl.
      split; [done|]. split; [split; [done|intros _; left]|].
      split; [by right|].
      unfold textOf in *. rewrite openBuffer_setBuffer.
      split; [done|]. by rewrite openBuffer_setBuffer_ne.
    + unfold resume. rewrite bool_decide_eq_true_2 by done. unfold at_, atStage; simpl; tauto.
    + unfold resume. destruct (bool_decide _); unfold at_, atStage; simpl; tauto.
    + unfold react. rewrite Happlied. unfold at_, atStage; simpl; tauto.
Qed.

Lemma run_advances (events : list Event) :
  ∀ stage call,
    at_ stage call →
    at_ (fold_left advance events stage)
        (fold_left (step uriToPath changes) events call).
Proof using All.
  induction events as [|event events IH]; intros stage call Hat; simpl; [done|].
  by apply IH, step_advances.
Qed.

(** Document B is never changed and the call answers
    [applied: false]; document A gets its text of before the call back,
    unless the schedule lets the rejection be handled before A's closure
    resumes: then A keeps the text its batch gave it. *)
Lemma two_batches_under_every_schedule (schedule : list Event) :
  snd (handleDocumentChanges uriToPath changes schedule ws) = false
  ∧ textOf (fst (handleDocumentChanges uriToPath changes schedule ws)) pathB
    = textOf ws pathB
  ∧ textOf (fst (handleDocumentChanges uriToPath changes schedule ws)) pathA
    = if rejectionHandledFirst false schedule
      then getText bufferA1
      else textOf ws pathA.
Proof using All.
  unfold handleDocumentChanges. simpl length. simpl seq. simpl fmap.
  rewrite <- fold_left_app.
  set (call := fold_left (step uriToPath changes) (schedule ++ [Resume 0; Resume 1])
                 (launch uriToPath changes ws)).
  assert (at_ (if rejectionHandledFirst false schedule then Missed true else Reverted)
              (react call)) as Hat.
  { rewrite <- stage_after_schedule.
    replace (schedule ++ [Resume 0; Resume 1; React])
      with ((schedule ++ [Resume 0; Resume 1]) ++ [React])
      by (by rewrite <- app_assoc).
    rewrite fold_left_app. simpl.
    apply (step_advances _ _ React), run_advances, launch_at_stage. }
  unfold finish.
  destruct (rejectionHandledFirst false schedule);
    destruct Hat as (Happlied & Hrest); rewrite Happlied; simpl;
    unfold textOf in *; tauto.
Qed.

End TwoBatches.

End CoordinatorFacts.

(** ** Claims on the transaction coordinator *)

(** C1 fails on the code: document A's batch succeeds and document B's
    batch throws, but B's buffer is resolved first and the rejection is
    handled before A's closure resumes.  The call answers
    [applied: false]; A's batch is applied afterwards, its checkpoint is
    pushed to an array nobody reads any more, and A keeps the edit.  In
    the order of the list A is reverted. *)
Theorem late_batch_is_not_reverted :
  snd (handleTextDocumentEdit (openBuffer twoDocuments "/a") editA) = Return 1
  ∧ snd (handleTextDocumentEdit (openBuffer twoDocuments "/b") editB)
    = Throw (OutOfRangeError "/b" 10 1)
  ∧ textOf twoDocuments "/a" = "hello"
  ∧ snd (handleDocumentChanges fileUriToPath [batchA; batchB]
           [Resume 1; React] twoDocuments) = false
  ∧ textOf (fst (handleDocumentChanges fileUriToPath [batchA; batchB]
                   [Resume 1; React] twoDocuments)) "/a" = "HELLO"
  ∧ textOf (fst (handleDocumentChanges fileUriToPath [batchA; batchB]
                   [] twoDocuments)) "/a" = "hello".
Proof. vm_compute. done. Qed.

(** The scenario of C1 under every schedule. *)
Example two_documents_under_every_schedule (schedule : list Event) :
  snd (handleDocumentChanges fileUriToPath [batchA; batchB] schedule twoDocuments)
  = false
  ∧ textOf (fst (handleDocumentChanges fileUriToPath [batchA; batchB] schedule
                   twoDocuments)) "/a"
    = if rejectionHandledFirst false schedule then "HELLO" else "hello".
Proof.
  destruct (two_batches_under_every_schedule fileUriToPath twoDocuments editA editB
              1 (OutOfRangeError "/b" 10 1)) with (schedule := schedule)
    as (Happlied & _ & HtextA); [done|by vm_compute|by vm_compute|].
  split; [exact Happlied|].
  unfold batchA, batchB.
  change "/a" with (fileUriToPath (Lsp.uri (Lsp.textDocument editA))).
  rewrite HtextA.
  by destruct (rejectionHandledFirst false schedule).
Qed.

(** C2 fails on the code: the rename of a missing file fails, yet under
    every schedule the call answers [applied: true], notifies nothing
    and document A keeps the edit of its batch: the promise of the
    resource operation is dropped, so its failure reaches nobody. *)
Theorem failed_rename_goes_unnoticed (schedule : list Event) :
  snd (handleResourceOperation fileUriToPath renameMissing twoDocuments.(files))
  = Throw (IoError "ENOENT" "/missing")
  ∧ textOf twoDocuments "/a" = "hello"
  ∧ snd (handleDocumentChanges fileUriToPath [batchA; renameMissing]
           schedule twoDocuments) = true
  ∧ textOf (fst (handleDocumentChanges fileUriToPath [batchA; renameMissing]
                   schedule twoDocuments)) "/a" = "HELLO"
  ∧ (fst (handleDocumentChanges fileUriToPath [batchA; renameMissing]
            schedule twoDocuments)).(notifications) = [].
Proof.
  split; [by vm_compute|]. split; [by vm_compute|].
  unfold handleDocumentChanges.
  set (changes := [batchA; renameMissing]).
  set (call0 := launch fileUriToPath changes twoDocuments).
  set (call1 := resume fileUriToPath changes 0 call0).
  assert (∀ call event, call = call0 ∨ call = call1 →
            step fileUriToPath changes call event = call0
            ∨ step fileUriToPath changes call event = call1) as Hstep.
  { intros call [[|[|task]]|] [-> | ->]; simpl;
      solve [by left | by right | right; by vm_compute]. }
  assert (∀ events call, call = call0 ∨ call = call1 →
            fold_left (step fileUriToPath changes) events call = call0
            ∨ fold_left (step fileUriToPath changes) events call = call1) as Hrun.
  { induction events as [|event events IH]; intros call Hcall; simpl; [done|].
    apply IH, Hstep, Hcall. }
  destruct (Hrun schedule call0 (or_introl eq_refl)) as [-> | ->];
    by vm_compute.
Qed.

(** * Further properties of the handler *)

(** ** The document edit applier: when a batch is applied *)

Lemma chained_pair_compatible (p e : AtomIde.TextEdit) :
  ordered p → ordered e → before reverseRangeOrder p e →
  Point.le e.(AtomIde.oldRange).(Range.end_) p.(AtomIde.oldRange).(Range.start) →
  compatibleEdits p e = true.
Proof.
  unfold ordered, before, compatibleEdits. intros Hp He Hbefore Hle.
  apply negb_true_iff. point_order.
Qed.

(** A chain in descending order holds no two edits that conflict. *)
Lemma chained_sorted_compatible (es : list AtomIde.TextEdit) :
  StronglySorted (before reverseRangeOrder) es → Forall ordered es →
  chained None es → pairwise compatibleEdits es = true.
Proof.
  intros Hs Ho Hch.
  assert (∀ prev, chained prev es → pairwise compatibleEdits es = true) as H;
    [|by apply (H None)].
  clear Hch. induction Hs as [|p rest Hs IH Hp]; intros prev Hch; simpl; [done|].
  apply Forall_cons in Ho as [Hop Ho]. destruct Hch as [_ Hch].
  rewrite (IH Ho _ Hch), andb_true_r.
  destruct (chained_disjoint rest Ho _ Hch) as [_ Hle].
  apply forallb_forall. intros e He%list_elem_of_In.
  rewrite Forall_forall in Hp, Ho.
  apply chained_pair_compatible; [done|by apply Ho|by apply Hp|by apply (Hle p)].
Qed.

(** X1. A batch is applied exactly when no two of its edits conflict and
    every edit starts at a position of the buffer; the checkpoint returned
    is then the one the buffer hands out next. *)
Theorem batch_applied_iff (b : TextBuffer) (edit : Lsp.TextDocumentEdit) :
  snd (handleTextDocumentEdit b edit) = Return b.(nextCheckpointId)
  ↔ pairwise compatibleEdits (atomEditsOf edit.(Lsp.edits)) = true
    ∧ forallb (startInRange b) (atomEditsOf edit.(Lsp.edits)) = true.
Proof.
  split; [|intros [Hpw Hall]; by apply compatible_batch_returns].
  rewrite handleTextDocumentEdit_outcome.
  destruct (validateAll b None _) as [last|err] eqn:Hv; [intros _|done].
  assert (∃ l, validateAll b None
                 (sort reverseRangeOrder (atomEditsOf (Lsp.edits edit))) = Return l)
    as [Hch Hin]%validateAll_return by by exists last.
  split.
  - rewrite <- (pairwise_perm compatibleEdits compatibleEdits_sym _ _
                  (sort_perm reverseRangeOrder _)).
    apply chained_sorted_compatible; [| |done].
    + apply sort_sorted; [apply reverseRangeOrder_total|apply reverseRangeOrder_trans].
    + rewrite sort_perm. apply atomEditsOf_ordered.
  - rewrite <- (forallb_perm _ _ _ (sort_perm reverseRangeOrder _)).
    apply forallb_forall. intros e He%list_elem_of_In.
    rewrite Forall_forall in Hin. by apply Hin.
Qed.

(** ** The document edit applier: checkpoints and the undo history *)

Lemma reduceEdits_top (es : list AtomIde.TextEdit) :
  ∀ b prev last,
    reduceEdits b prev es = (fst (reduceEdits b prev es), Return last) →
    es ≠ [] →
    ∃ ls rest, undoStack (fst (reduceEdits b prev es)) = Transaction ls :: rest.
Proof.
  induction es as [|cur rest IH]; intros b prev last Hr Hne; [done|].
  simpl in *. destruct (validateEdit b cur prev); [|done].
  destruct rest as [|next rest']; [simpl; by eexists _, _|].
  by apply (IH _ _ last).
Qed.

(** X2. A batch that has been applied is taken back by reverting to the
    checkpoint it returned: lines and undo history are those of before the
    call, and the revert reports success. *)
Theorem applied_batch_reverts (b : TextBuffer) (edit : Lsp.TextDocumentEdit)
    (checkpoint : nat) :
  snd (handleTextDocumentEdit b edit) = Return checkpoint →
  revertToCheckpoint (fst (handleTextDocumentEdit b edit)) checkpoint
  = ({| path := path b; lines := lines b; undoStack := undoStack b;
        nextCheckpointId := S (nextCheckpointId b) |}, true).
Proof.
  intros Hout.
  assert (nextCheckpointId (fst (handleTextDocumentEdit b edit))
          = S (nextCheckpointId b)) as Hnext.
  { revert Hout. unfold handleTextDocumentEdit. simpl.
    set (b0 := {| path := path b; lines := lines b;
                  undoStack := Checkpoint (nextCheckpointId b) :: undoStack b;
                  nextCheckpointId := S (nextCheckpointId b) |}).
    pose proof (reduceEdits_nextCheckpointId
      (sort reverseRangeOrder (map Convert.convertLsTextEdit (Lsp.edits edit)))
      b0 None) as Hn.
    destruct (reduceEdits b0 None _) as [b' [last|err]]; simpl in *; [|done].
    intros _. unfold groupChangesSinceCheckpoint.
    destruct (unwindTo _ _ _) as [[ls rest]|]; simpl; exact Hn. }
  destruct (handleTextDocumentEdit_return _ _ _ Hout) as (-> & Hpath & Hu).
  unfold revertToCheckpoint. by rewrite Hu, Hpath, Hnext.
Qed.

Lemma applied_batch_reverts_witness :
  snd (handleTextDocumentEdit (newTextBuffer (Some "/a") "hello world")
         (batch "file:///a" [lsEdit 0 0 0 5 "goodbye"])) = Return 1
  ∧ getText (fst (revertToCheckpoint
       (fst (handleTextDocumentEdit (newTextBuffer (Some "/a") "hello world")
               (batch "file:///a" [lsEdit 0 0 0 5 "goodbye"]))) 1))
    = "hello world".
Proof.
  split; [reflexivity|].
  rewrite (applied_batch_reverts (newTextBuffer (Some "/a") "hello world")
             (batch "file:///a" [lsEdit 0 0 0 5 "goodbye"]) 1); reflexivity.
Defined.

(** X3. A batch that throws, for whatever reason, leaves nothing behind
    but a used checkpoint number: path, lines and undo history are those
    of before the call. *)
Theorem failed_batch_leaves_no_trace (b : TextBuffer) (edit : Lsp.TextDocumentEdit)
    (err : Error) :
  snd (handleTextDocumentEdit b edit) = Throw err →
  let b' := fst (handleTextDocumentEdit b edit) in
  path b' = path b ∧ lines b' = lines b ∧ undoStack b' = undoStack b
  ∧ getText b' = getText b
  ∧ nextCheckpointId b' = S (nextCheckpointId b).
Proof.
  intros Hout. simpl. by rewrite (handleTextDocumentEdit_throw _ _ _ Hout).
Qed.

Lemma failed_batch_leaves_no_trace_witness :
  snd (handleTextDocumentEdit (newTextBuffer (Some "/a") "hello world")
         (batch "file:///a" [lsEdit 0 0 0 5 "goodbye"; lsEdit 0 3 0 8 "x"]))
  = Throw (OverlapError "/a")
  ∧ undoStack (fst (handleTextDocumentEdit (newTextBuffer (Some "/a") "hello world")
         (batch "file:///a" [lsEdit 0 0 0 5 "goodbye"; lsEdit 0 3 0 8 "x"])))
    = [].
Proof.
  split; [reflexivity|].
  destruct (failed_batch_leaves_no_trace (newTextBuffer (Some "/a") "hello world")
              (batch "file:///a" [lsEdit 0 0 0 5 "goodbye"; lsEdit 0 3 0 8 "x"])
              (OverlapError "/a")) as (_ & _ & Hstack & _); [reflexivity|].
  exact Hstack.
Defined.

(** X4. A batch of one edit or more that has been applied is one step of
    the undo history, whatever the number of its edits: one transaction
    holding the lines of before the call, on top of the checkpoint. *)
Theorem applied_batch_is_one_undo_step (b : TextBuffer) (edit : Lsp.TextDocumentEdit)
    (checkpoint : nat) :
  snd (handleTextDocumentEdit b edit) = Return checkpoint →
  edit.(Lsp.edits) ≠ [] →
  undoStack (fst (handleTextDocumentEdit b edit))
  = Transaction (lines b) :: Checkpoint checkpoint :: undoStack b.
Proof.
  intros Hout Hne.
  destruct (handleTextDocumentEdit_return _ _ _ Hout) as (-> & _ & Hu).
  revert Hout Hu. unfold handleTextDocumentEdit. simpl.
  set (b0 := {| path := path b; lines := lines b;
                undoStack := Checkpoint (nextCheckpointId b) :: undoStack b;
                nextCheckpointId := S (nextCheckpointId b) |}).
  set (es := sort reverseRangeOrder (map Convert.convertLsTextEdit (Lsp.edits edit))).
  assert (es ≠ []) as Hes.
  { intros Hnil. apply Hne. apply (fmap_nil_inv Convert.convertLsTextEdit).
    apply Permutation_nil_r. rewrite <- Hnil. unfold es. by rewrite sort_perm. }
  pose proof (reduceEdits_unwindTo (nextCheckpointId b) es b0 None) as Hunwind.
  pose proof (reduceEdits_top es b0 None) as Htop.
  destruct (reduceEdits b0 None es) as [b' [last|err]]; simpl in *; [|done].
  intros _. destruct (Htop last eq_refl Hes) as (ls & rest & Hstack).
  rewrite Nat.eqb_refl in Hunwind.
  unfold groupChangesSinceCheckpoint. rewrite Hunwind. simpl.
  by rewrite Hstack.
Qed.

Lemma applied_batch_is_one_undo_step_witness :
  undoStack (fst (handleTextDocumentEdit helloWorld
                    (batch "file:///a" [lsEdit 0 0 0 5 "goodbye";
                                        lsEdit 0 6 0 11 "earth"])))
  = [Transaction ["hello world"]; Checkpoint 1].
Proof.
  apply (applied_batch_is_one_undo_step helloWorld
           (batch "file:///a" [lsEdit 0 0 0 5 "goodbye"; lsEdit 0 6 0 11 "earth"])
           1); [reflexivity|discriminate].
Defined.

(** X5. The error of a batch that throws names the path of the buffer,
    or the empty string when the buffer has none; an out-of-range error
    gives the start of an edit of the batch that does start outside the
    buffer, row and column counted from one. *)
Theorem thrown_error_names_the_place (b : TextBuffer) (edit : Lsp.TextDocumentEdit)
    (err : Error) :
  snd (handleTextDocumentEdit b edit) = Throw err →
  err = OverlapError (default "" (getPath b))
  ∨ ∃ e, e ∈ atomEditsOf edit.(Lsp.edits)
         ∧ startInRange b e = false
         ∧ err = OutOfRangeError (default "" (getPath b))
                   (e.(AtomIde.oldRange).(Range.start).(Point.row) + 1)
                   (e.(AtomIde.oldRange).(Range.start).(Point.column) + 1).
Proof.
  rewrite handleTextDocumentEdit_outcome.
  destruct (validateAll b None _) as [last|err'] eqn:Hv; [done|].
  intros [= ->].
  apply validateAll_throw in Hv as [[-> _]|(e & He & Hout & ->)]; [by left|].
  right. exists e. split; [|done]. by rewrite sort_perm in He.
Qed.

Lemma thrown_error_names_the_place_witness :
  message (OutOfRangeError "/a" 10 1) = "Out of range edit on /a:10:1"
  ∧ (OutOfRangeError "/a" 10 1 = OverlapError "/a"
     ∨ ∃ e, e ∈ atomEditsOf [lsEdit 9 0 9 0 "x"]
            ∧ startInRange (newTextBuffer (Some "/a") "hello") e = false
            ∧ OutOfRangeError "/a" 10 1
              = OutOfRangeError "/a"
                  (e.(AtomIde.oldRange).(Range.start).(Point.row) + 1)
                  (e.(AtomIde.oldRange).(Range.start).(Point.column) + 1)).
Proof.
  split; [reflexivity|].
  apply (thrown_error_names_the_place (newTextBuffer (Some "/a") "hello")
           (batch "file:///a" [lsEdit 9 0 9 0 "x"]) (OutOfRangeError "/a" 10 1)).
  reflexivity.
Defined.

(** ** The transaction coordinator: what every call keeps *)

Section CallFacts.

Context (uriToPath : string → string).

Lemma batchPaths_lookup (changes : list Lsp.DocumentChange) (task : nat)
    (edit : Lsp.TextDocumentEdit) :
  changes !! task = Some (Lsp.TextDocumentEditChange edit) →
  uriToPath edit.(Lsp.textDocument).(Lsp.uri) ∈ batchPaths uriToPath changes.
Proof.
  intros Hl. unfold batchPaths. apply list_elem_of_omap.
  exists (Lsp.TextDocumentEditChange edit). split; [|done].
  by apply list_elem_of_lookup_2 in Hl.
Qed.

Lemma revertRecorded_frame (entries : list (string * nat)) :
  ∀ ws,
    (fold_left revertRecorded entries ws).(files) = ws.(files)
    ∧ (fold_left revertRecorded entries ws).(notifications) = ws.(notifications)
    ∧ ∀ path, (∀ entry, entry ∈ entries → entry.1 ≠ path) →
        (fold_left revertRecorded entries ws).(buffers) !! path
        = ws.(buffers) !! path.
Proof.
  induction entries as [|[p cp] entries IH]; intros ws; simpl; [done|].
  destruct (IH (setBuffer ws p
                  (fst (revertToCheckpoint (openBuffer ws p) cp))))
    as (Hf & Hn & Hb).
  split; [done|]. split; [done|]. intros path Hne.
  rewrite Hb by (intros entry He; apply Hne; by right).
  simpl. apply lookup_insert_ne. apply (Hne (p, cp)). by left.
Qed.

Lemma callInvariant_launch (changes : list Lsp.DocumentChange) (ws : Workspace) :
  callInvariant uriToPath changes ws (launch uriToPath changes ws).
Proof.
  destruct (launch_pending uriToPath changes ws) as (Hr & Ha & Hc & Hb & Hn).
  unfold callInvariant. rewrite Ha, Hc, Hb.
  split; [done|]. split; [done|]. split; [|done].
  intros entry He. by apply elem_of_nil in He.
Qed.

Lemma callInvariant_step (changes : list Lsp.DocumentChange) (ws : Workspace)
    (call : Call) (event : Event) :
  callInvariant uriToPath changes ws call →
  callInvariant uriToPath changes ws (step uriToPath changes call event).
Proof.
  intros Hcall. pose proof Hcall as (Hf & Hb & Hc & Ha & Hn).
  destruct event as [task|]; simpl.
  - unfold resume. destruct (bool_decide _); [done|].
    destruct (changes !! task) as [[edit| | |]|] eqn:Hl; try done.
    apply batchPaths_lookup in Hl. simpl.
    destruct (handleTextDocumentEdit _ edit) as [buffer [checkpoint|err]]; simpl.
    + repeat split; simpl; try done.
      * intros path Hp. rewrite lookup_insert_ne; [by apply Hb|]. congruence.
      * intros entry [He| ->%list_elem_of_singleton]%elem_of_app; [by apply Hc|done].
    + repeat split; simpl; try done.
      * intros path Hp. rewrite lookup_insert_ne; [by apply Hb|]. congruence.
      * destruct (applied call); [|done].
        destruct Hn as (first & -> & Hn). by exists first.
  - unfold react. destruct (applied call) eqn:Happ; [done|].
    destruct (rejection call) as [err|] eqn:Hrej; [|done].
    unfold onRejected.
    destruct (revertRecorded_frame (checkpoints call)
                (addError (workspace call) (failureNotification err)))
      as (Hf' & Hn' & Hb').
    unfold failureNotification in *.
    repeat split; simpl; try done.
    + by rewrite Hf'.
    + intros path Hp. rewrite Hb'; [by apply Hb|].
      intros entry He <-. by apply Hp, Hc.
    + exists err. split; [done|]. rewrite Hn'. simpl. by rewrite Hn.
Qed.

Lemma callInvariant_run (changes : list Lsp.DocumentChange) (ws : Workspace)
    (events : list Event) :
  ∀ call,
    callInvariant uriToPath changes ws call →
    callInvariant uriToPath changes ws (fold_left (step uriToPath changes) events call).
Proof.
  induction events as [|event events IH]; intros call Hcall; simpl; [done|].
  by apply IH, callInvariant_step.
Qed.

(** The call just before [finish], under a schedule. *)
Lemma callInvariant_settled (changes : list Lsp.DocumentChange)
    (schedule : list Event) (ws : Workspace) :
  ∃ call,
    callInvariant uriToPath changes ws call
    ∧ handleDocumentChanges uriToPath changes schedule ws = finish call.
Proof.
  eexists. split; [|reflexivity].
  by apply callInvariant_run, callInvariant_run, callInvariant_launch.
Qed.

Lemma finish_cases (call : Call) :
  (react call).(applied) ≠ Some true →
  (snd (finish call) = true ∧ fst (finish call) = call.(workspace)
   ∧ call.(applied) = None)
  ∨ (snd (finish call) = false ∧ fst (finish call) = (react call).(workspace)
     ∧ (react call).(applied) = Some false).
Proof.
  unfold finish. intros Hne.
  destruct (applied (react call)) as [[|]|] eqn:Happ; [done|by right|left].
  split; [done|]. split; [done|].
  revert Happ. unfold react.
  destruct (applied call) eqn:Hcall; [simpl; congruence|done].
Qed.

(** X6. A call shows an error notification exactly when it answers
    [applied: false], and then exactly one, with the message of an error
    as its detail; a call that answers [applied: true] shows none. *)
Theorem one_notification_per_failed_call (changes : list Lsp.DocumentChange)
    (schedule : list Event) (ws : Workspace) :
  let out := handleDocumentChanges uriToPath changes schedule ws in
  if snd out then (fst out).(notifications) = ws.(notifications)
  else ∃ err,
         (fst out).(notifications)
         = ws.(notifications)
           ++ [mkNotification "workspace/applyEdits failed"
                 "Failed to apply edits." (message err)].
Proof.
  destruct (callInvariant_settled changes schedule ws) as (call & Hcall & ->).
  pose proof (callInvariant_step changes ws call React Hcall) as Hreact.
  simpl in Hreact. simpl.
  destruct (finish_cases call) as [(-> & -> & Ha)|(-> & -> & Ha)].
  - by destruct Hreact as (_ & _ & _ & ? & _).
  - destruct Hcall as (_ & _ & _ & _ & Hn). by rewrite Ha in Hn.
  - destruct Hreact as (_ & _ & _ & _ & Hn). rewrite Ha in Hn.
    destruct Hn as (err & _ & Hn). by exists err.
Qed.

(** X7. Under every schedule, a call leaves the buffers of the editor
    outside the documents its batches name as they were: none is opened,
    changed or closed. *)
Theorem unnamed_documents_untouched (changes : list Lsp.DocumentChange)
    (schedule : list Event) (ws : Workspace) (path : string) :
  path ∉ batchPaths uriToPath changes →
  (fst (handleDocumentChanges uriToPath changes schedule ws)).(buffers) !! path
  = ws.(buffers) !! path.
Proof.
  intros Hp.
  destruct (callInvariant_settled changes schedule ws) as (call & Hcall & ->).
  pose proof (callInvariant_step changes ws call React Hcall) as Hreact.
  simpl in Hreact.
  destruct (finish_cases call) as [(_ & -> & _)|(_ & -> & _)].
  - by destruct Hreact as (_ & _ & _ & ? & _).
  - destruct Hcall as (_ & Hb & _). by apply Hb.
  - destruct Hreact as (_ & Hb & _). by apply Hb.
Qed.

Lemma launch_text_only (changes : list Lsp.DocumentChange) (ws : Workspace) :
  forallb isTextDocumentEdit changes = true →
  launch uriToPath changes ws
  = {| workspace := ws; checkpoints := []; resumed := [];
       rejection := None; applied := None |}.
Proof.
  unfold launch. generalize {| workspace := ws; checkpoints := []; resumed := [];
                               rejection := None; applied := None |}.
  induction changes as [|edit changes IH]; intros call Hall; simpl; [done|].
  simpl in Hall. apply andb_true_iff in Hall as [-> Hall]. by apply IH.
Qed.

(** X8. A call made of text-document batches alone writes nothing to
    disk, whether it succeeds or not: the edits stay in the buffers. *)
Theorem text_batches_write_no_file (changes : list Lsp.DocumentChange)
    (schedule : list Event) (ws : Workspace) :
  forallb isTextDocumentEdit changes = true →
  (fst (handleDocumentChanges uriToPath changes schedule ws)).(files) = ws.(files).
Proof.
  intros Hall.
  destruct (callInvariant_settled changes schedule ws) as (call & Hcall & ->).
  pose proof (callInvariant_step changes ws call React Hcall) as Hreact.
  simpl in Hreact.
  unfold callInvariant in Hcall, Hreact.
  rewrite (launch_text_only _ _ Hall) in Hcall, Hreact.
  destruct (finish_cases call) as [(_ & -> & _)|(_ & -> & _)].
  - by destruct Hreact as (_ & _ & _ & ? & _).
  - by destruct Hcall as (Hf & _).
  - by destruct Hreact as (Hf & _).
Qed.

(** ** The transaction coordinator: calls that end well, and calls of one batch *)

Lemma text_changes_only (edits : list Lsp.TextDocumentEdit) :
  forallb isTextDocumentEdit (Lsp.TextDocumentEditChange <$> edits) = true.
Proof. by induction edits. Qed.

Lemma committing_resume (edits : list Lsp.TextDocumentEdit) (ws : Workspace)
    (task : nat) (call : Call) :
  NoDup (batchPath uriToPath <$> edits) →
  (∀ edit, edit ∈ edits →
     ∃ checkpoint,
       snd (handleTextDocumentEdit (openBuffer ws (batchPath uriToPath edit)) edit)
       = Return checkpoint) →
  committing uriToPath edits ws call →
  let call' := resume uriToPath (Lsp.TextDocumentEditChange <$> edits) task call in
  committing uriToPath edits ws call'
  ∧ (∀ t, t ∈ call.(resumed) → t ∈ call'.(resumed))
  ∧ (task < length edits → task ∈ call'.(resumed)).
Proof.
  intros Hnodup Hok Hcall. pose proof Hcall as (Hrej & Happ & Hnote & Hbuf). simpl.
  unfold resume. case_bool_decide as Hin; [done|].
  rewrite list_lookup_fmap.
  destruct (edits !! task) as [edit|] eqn:Hl; simpl.
  2:{ split; [done|]. split; [done|]. intros Hlt.
      apply lookup_ge_None in Hl. lia. }
  specialize (Hbuf task edit Hl) as Hopen. simpl in Hopen.
  rewrite bool_decide_eq_false_2 in Hopen by done.
  fold (batchPath uriToPath edit). rewrite Hopen.
  destruct (Hok edit) as [checkpoint Hret]; [by apply list_elem_of_lookup_2 in Hl|].
  destruct (handleTextDocumentEdit (openBuffer ws (batchPath uriToPath edit)) edit)
    as [buffer outcome] eqn:Hout.
  simpl in Hret. subst outcome. simpl.
  split; [|split; [intros t Ht; by right|intros _; by left]].
  split; [done|]. split; [done|]. split; [done|]. simpl.
  intros task' edit' Hl'.
  destruct (decide (task' = task)) as [->|Hne].
  - assert (edit' = edit) as -> by congruence.
    rewrite bool_decide_eq_true_2 by by left.
    by rewrite lookup_insert_eq, Hout.
  - assert (batchPath uriToPath edit ≠ batchPath uriToPath edit') as Hpath.
    { intros Heq. apply Hne.
      eapply NoDup_lookup; [exact Hnodup| |].
      - by rewrite list_lookup_fmap, Hl'.
      - rewrite list_lookup_fmap, Hl. simpl. by rewrite Heq. }
    specialize (Hbuf task' edit' Hl'). simpl in Hbuf.
    case_bool_decide as Hin'.
    + rewrite bool_decide_eq_true_2 by by right.
      by rewrite lookup_insert_ne.
    + rewrite bool_decide_eq_false_2.
      * change (openBuffer (setBuffer (workspace call) (batchPath uriToPath edit) buffer)
                  (batchPath uriToPath edit') = openBuffer ws (batchPath uriToPath edit')).
        by rewrite openBuffer_setBuffer_ne.
      * intros [?|?]%elem_of_cons; done.
Qed.

Lemma committing_run (edits : list Lsp.TextDocumentEdit) (ws : Workspace)
    (events : list Event) :
  NoDup (batchPath uriToPath <$> edits) →
  (∀ edit, edit ∈ edits →
     ∃ checkpoint,
       snd (handleTextDocumentEdit (openBuffer ws (batchPath uriToPath edit)) edit)
       = Return checkpoint) →
  ∀ call,
    committing uriToPath edits ws call →
    let call' :=
      fold_left (step uriToPath (Lsp.TextDocumentEditChange <$> edits)) events call in
    committing uriToPath edits ws call'
    ∧ (∀ t, t ∈ call.(resumed) → t ∈ call'.(resumed))
    ∧ (∀ t, Resume t ∈ events → t < length edits → t ∈ call'.(resumed)).
Proof.
  intros Hnodup Hok.
  induction events as [|event events IH]; intros call Hcall; simpl.
  { split; [done|]. split; [done|]. intros t Ht. by apply elem_of_nil in Ht. }
  destruct event as [task|]; simpl.
  - destruct (committing_resume edits ws task call Hnodup Hok Hcall)
      as (Hcall' & Hmono & Htask).
    destruct (IH _ Hcall') as (Hend & Hmono' & Hall).
    split; [done|]. split; [by intros t Ht; apply Hmono', Hmono|].
    intros t [[= ->]|Ht]%elem_of_cons Hlt; [by apply Hmono', Htask|by apply Hall].
  - assert (react call = call) as ->.
    { unfold react. by destruct Hcall as (-> & -> & _). }
    destruct (IH _ Hcall) as (Hend & Hmono' & Hall).
    split; [done|]. split; [done|].
    intros t [[=]|Ht]%elem_of_cons Hlt. by apply Hall.
Qed.

(** X9. Batches for different documents, each of which its document
    accepts, are all applied under every schedule: the call answers
    [applied: true], shows no notification, and the buffer of every
    document is the one its batch produced. *)
Theorem accepted_batches_are_all_applied (edits : list Lsp.TextDocumentEdit)
    (schedule : list Event) (ws : Workspace) :
  NoDup (batchPath uriToPath <$> edits) →
  (∀ edit, edit ∈ edits →
     ∃ checkpoint,
       snd (handleTextDocumentEdit (openBuffer ws (batchPath uriToPath edit)) edit)
       = Return checkpoint) →
  let out :=
    handleDocumentChanges uriToPath (Lsp.TextDocumentEditChange <$> edits)
      schedule ws in
  snd out = true
  ∧ (fst out).(notifications) = ws.(notifications)
  ∧ ∀ edit, edit ∈ edits →
      openBuffer (fst out) (batchPath uriToPath edit)
      = fst (handleTextDocumentEdit (openBuffer ws (batchPath uriToPath edit)) edit).
Proof.
  intros Hnodup Hok. simpl.
  unfold handleDocumentChanges.
  rewrite (launch_text_only _ _ (text_changes_only edits)).
  set (call0 := {| workspace := ws; checkpoints := []; resumed := [];
                   rejection := None; applied := None |}).
  assert (committing uriToPath edits ws call0) as Hcall0.
  { split; [done|]. split; [done|]. split; [done|]. by intros task edit _. }
  destruct (committing_run edits ws schedule Hnodup Hok _ Hcall0) as (Hcall1 & _ & _).
  destruct (committing_run edits ws
              (Resume <$> seq 0 (length (Lsp.TextDocumentEditChange <$> edits)))
              Hnodup Hok _ Hcall1) as ((Hrej & Happ & Hnote & Hbuf) & _ & Hall).
  simpl in Hall.
  set (call := fold_left _ (Resume <$> _) _) in *.
  assert (finish call = (workspace call, true)) as ->.
  { unfold finish, react. by rewrite Happ, Hrej, Happ. }
  simpl. split; [done|]. split; [done|].
  intros edit [task Hl]%list_elem_of_lookup_1.
  specialize (Hbuf task edit Hl). simpl in Hbuf.
  rewrite bool_decide_eq_true_2 in Hbuf.
  - unfold openBuffer at 1. by rewrite Hbuf.
  - apply lookup_lt_Some in Hl. apply Hall; [|done].
    apply list_elem_of_fmap. exists task. split; [done|].
    apply elem_of_seq. rewrite length_fmap. lia.
Qed.

(** A call of one text-document batch settles in the same way under
    every schedule. *)
Lemma single_batch_settles (edit : Lsp.TextDocumentEdit) (schedule : list Event)
    (ws : Workspace) :
  let path := batchPath uriToPath edit in
  let out := handleTextDocumentEdit (openBuffer ws path) edit in
  handleDocumentChanges uriToPath [Lsp.TextDocumentEditChange edit] schedule ws
  = match snd out with
    | Return _ => (setBuffer ws path (fst out), true)
    | Throw err =>
        (addError (setBuffer ws path (fst out)) (failureNotification err), false)
    end.
Proof.
  simpl. unfold handleDocumentChanges. simpl.
  set (changes := [Lsp.TextDocumentEditChange edit]).
  set (call0 := {| workspace := ws; checkpoints := []; resumed := [];
                   rejection := None; applied := None |}).
  change (launch uriToPath changes ws) with call0.
  set (call1 := resume uriToPath changes 0 call0).
  assert (resumed call1 = [0]) as Hres.
  { unfold call1, resume. simpl.
    destruct (handleTextDocumentEdit _ edit) as [buffer [checkpoint|err]]; done. }
  assert (resumed (react call1) = [0]) as Hres'.
  { unfold react. destruct (applied call1); [done|].
    by destruct (rejection call1). }
  assert (react (react call1) = react call1) as Hidem.
  { unfold react at 1. destruct (applied (react call1)) eqn:Happ; [done|].
    revert Happ. unfold react. destruct (applied call1) eqn:Happ1.
    - by rewrite Happ1.
    - destruct (rejection call1) eqn:Hrej1; [done|]. by rewrite Hrej1. }
  assert (∀ task call, resumed call = [0] →
            resume uriToPath changes task call = call) as Hdone.
  { intros task call Hcall. unfold resume. rewrite Hcall.
    case_bool_decide as Hin; [done|].
    destruct task as [|task]; [|done]. exfalso. apply Hin. by left. }
  assert (∀ events call,
            call = call0 ∨ call = call1 ∨ call = react call1 →
            let call' := fold_left (step uriToPath changes) events call in
            call' = call0 ∨ call' = call1 ∨ call' = react call1) as Hclosed.
  { induction events as [|event events IH]; intros call Hcall; simpl; [done|].
    apply IH. destruct event as [task|]; simpl.
    - destruct Hcall as [->|[->| ->]].
      + destruct task as [|task]; [by right; left|by left].
      + right. left. by apply Hdone.
      + right. right. by apply Hdone.
    - destruct Hcall as [->|[->| ->]]; [by left|by right; right|].
      right. right. done. }
  assert (finish (react call1) = finish call1) as Hfinish.
  { unfold finish. rewrite Hidem.
    destruct (applied (react call1)) eqn:Happ; [done|].
    revert Happ. unfold react. destruct (applied call1) eqn:Happ1; [done|].
    by destruct (rejection call1) eqn:Hrej1. }
  assert (finish (resume uriToPath changes 0
                    (fold_left (step uriToPath changes) schedule call0))
          = finish call1) as ->.
  { destruct (Hclosed schedule call0 (or_introl eq_refl)) as [->|[->| ->]];
      [done|by rewrite Hdone|by rewrite Hdone]. }
  unfold call1, resume, batchPath. simpl.
  by destruct (handleTextDocumentEdit _ edit) as [buffer [checkpoint|err]].
Qed.

(** X10. A call of one text-document batch does the same under every
    schedule.  Either the document accepts the batch: the call answers
    [applied: true], the buffer is the one the applier produced and no
    notification is shown.  Or the batch throws: the call answers
    [applied: false], the text of the document is the one of before the
    call and the error is notified. *)
Theorem single_batch_call (edit : Lsp.TextDocumentEdit) (schedule : list Event)
    (ws : Workspace) :
  let path := batchPath uriToPath edit in
  let out := handleTextDocumentEdit (openBuffer ws path) edit in
  let result :=
    handleDocumentChanges uriToPath [Lsp.TextDocumentEditChange edit] schedule ws in
  match snd out with
  | Return _ =>
      snd result = true
      ∧ openBuffer (fst result) path = fst out
      ∧ (fst result).(notifications) = ws.(notifications)
  | Throw err =>
      snd result = false
      ∧ textOf (fst result) path = textOf ws path
      ∧ (fst result).(notifications)
        = ws.(notifications) ++ [failureNotification err]
  end.
Proof.
  simpl. rewrite single_batch_settles. simpl.
  destruct (handleTextDocumentEdit _ edit) as [buffer [checkpoint|err]] eqn:Hout;
    simpl.
  - split; [done|]. split; [|done]. by rewrite openBuffer_setBuffer.
  - split; [done|]. split; [|done].
    unfold textOf.
    change (openBuffer (addError (setBuffer ws (batchPath uriToPath edit) buffer)
                          (failureNotification err)) (batchPath uriToPath edit))
      with (openBuffer (setBuffer ws (batchPath uriToPath edit) buffer)
              (batchPath uriToPath edit)).
    rewrite openBuffer_setBuffer.
    pose proof (handleTextDocumentEdit_throw
                  (openBuffer ws (batchPath uriToPath edit)) edit err) as Hthrow.
    rewrite Hout in Hthrow. simpl in Hthrow. by rewrite Hthrow.
Qed.

(** X11. A workspace edit that normalizes to no operation (neither key,
    [documentChanges] empty or undefined, [changes] empty or undefined) is
    applied successfully under every schedule, and nothing changes. *)
Theorem nothing_to_apply (workspaceEdit : Lsp.WorkspaceEdit) (schedule : list Event)
    (ws : Workspace) :
  normalizeChanges workspaceEdit = [] →
  handle uriToPath workspaceEdit schedule ws = (ws, true).
Proof.
  intros Hnone. unfold handle, handleDocumentChanges. rewrite Hnone. simpl.
  set (call0 := {| workspace := ws; checkpoints := []; resumed := [];
                   rejection := None; applied := None |}).
  assert (∀ events, fold_left (step uriToPath []) events call0 = call0) as ->; [|done].
  induction events as [|event events IH]; simpl; [done|].
  by destruct event as [task|].
Qed.

End CallFacts.

Lemma unnamed_documents_untouched_witness :
  ("/b" ∉ batchPaths fileUriToPath [batchA])
  ∧ (fst (handleDocumentChanges fileUriToPath [batchA] [React; Resume 0]
            twoDocuments)).(buffers) !! "/b"
    = Some (newTextBuffer (Some "/b") "world").
Proof.
  assert ("/b" ∉ batchPaths fileUriToPath [batchA]) as Hout.
  { apply (bool_decide_unpack _). vm_compute. exact I. }
  split; [exact Hout|].
  rewrite (unnamed_documents_untouched fileUriToPath [batchA] [React; Resume 0]
             twoDocuments "/b" Hout).
  reflexivity.
Defined.

Lemma text_batches_write_no_file_witness :
  forallb isTextDocumentEdit [batchA; batchB] = true
  ∧ (fst (handleDocumentChanges fileUriToPath [batchA; batchB] [Resume 1; React]
            twoDocuments)).(files) = ∅.
Proof.
  split; [reflexivity|].
  apply (text_batches_write_no_file fileUriToPath [batchA; batchB] [Resume 1; React]
           twoDocuments).
  reflexivity.
Defined.

Lemma accepted_batches_are_all_applied_witness :
  snd (handleDocumentChanges fileUriToPath
         (Lsp.TextDocumentEditChange
            <$> [editA; batch "file:///b" [lsEdit 0 0 0 5 "WORLD"]])
         [Resume 1; React; Resume 0] twoDocuments) = true.
Proof.
  apply (accepted_batches_are_all_applied fileUriToPath
           [editA; batch "file:///b" [lsEdit 0 0 0 5 "WORLD"]]
           [Resume 1; React; Resume 0] twoDocuments).
  - apply (bool_decide_unpack _). vm_compute. exact I.
  - intros edit [->|[->|[]%elem_of_nil]%elem_of_cons]%elem_of_cons;
      exists 1; reflexivity.
Defined.

Lemma nothing_to_apply_witness :
  normalizeChanges (Lsp.mkWorkspaceEdit NoProperty UndefinedValue) = []
  ∧ handle fileUriToPath (Lsp.mkWorkspaceEdit NoProperty UndefinedValue)
      [React; Resume 0] twoDocuments
    = (twoDocuments, true).
Proof.
  split; [reflexivity|].
  apply (nothing_to_apply fileUriToPath (Lsp.mkWorkspaceEdit NoProperty UndefinedValue)
           [React; Resume 0] twoDocuments).
  reflexivity.
Defined.

(** * The diagnostics adapter *)

Section LinterFacts.

Context (uriToPath : string → string).
Context (getCodeKey : Range.t → string → string).

Import LinterPushV2Adapter.

Lemma messagesOf_setMessages (indie other : nat) (path : string)
    (messages : list Linter.Message) (delegates : Linter.Delegates) :
  Linter.messagesOf (Linter.setMessages indie path messages delegates) other
  = if bool_decide (other = indie)
    then <[path := messages]> (Linter.messagesOf delegates indie)
    else Linter.messagesOf delegates other.
Proof.
  unfold Linter.messagesOf, Linter.setMessages. case_bool_decide as Heq.
  - subst. by rewrite lookup_insert_eq.
  - by rewrite lookup_insert_ne.
Qed.

Lemma messagesOf_sent (indies : list nat) (path : string)
    (messages : list Linter.Message) (other : nat) :
  ∀ delegates,
    Linter.messagesOf
      (fold_left (λ delegates i, Linter.setMessages i path messages delegates)
         indies delegates) other
    = if bool_decide (other ∈ indies)
      then <[path := messages]> (Linter.messagesOf delegates other)
      else Linter.messagesOf delegates other.
Proof.
  induction indies as [|i indies IH]; intros delegates; simpl; [done|].
  rewrite IH, messagesOf_setMessages.
  destruct (decide (other = i)) as [->|Hne].
  - rewrite (bool_decide_eq_true_2 (i = i)) by done.
    rewrite (bool_decide_eq_true_2 (i ∈ i :: indies)) by by left.
    case_bool_decide; [|done]. by rewrite insert_insert_eq.
  - rewrite (bool_decide_eq_false_2 (other = i)) by done.
    case_bool_decide as Hin.
    + rewrite bool_decide_eq_true_2; [done|by right].
    + rewrite bool_decide_eq_false_2; [done|].
      intros [?|?]%elem_of_cons; done.
Qed.

Lemma messagesOf_clearMessages (indie other : nat) (delegates : Linter.Delegates) :
  Linter.messagesOf (Linter.clearMessages indie delegates) other
  = if bool_decide (other = indie) then ∅ else Linter.messagesOf delegates other.
Proof.
  unfold Linter.messagesOf, Linter.clearMessages. case_bool_decide as Heq.
  - subst. by rewrite lookup_insert_eq.
  - by rewrite lookup_insert_ne.
Qed.

Lemma messagesOf_cleared (indies : list nat) (other : nat) :
  ∀ delegates,
    Linter.messagesOf
      (fold_left (λ delegates i, Linter.clearMessages i delegates) indies delegates)
      other
    = if bool_decide (other ∈ indies) then ∅ else Linter.messagesOf delegates other.
Proof.
  induction indies as [|i indies IH]; intros delegates; simpl; [done|].
  rewrite IH, messagesOf_clearMessages.
  destruct (decide (other = i)) as [->|Hne].
  - rewrite (bool_decide_eq_true_2 (i = i)) by done.
    rewrite (bool_decide_eq_true_2 (i ∈ i :: indies)) by by left.
    by case_bool_decide.
  - rewrite (bool_decide_eq_false_2 (other = i)) by done.
    case_bool_decide as Hin.
    + rewrite bool_decide_eq_true_2; [done|by right].
    + rewrite bool_decide_eq_false_2; [done|].
      intros [?|?]%elem_of_cons; done.
Qed.

Lemma messagesOf_replayed (indie other : nat) (recorded : Linter.Messages)
    (delegates : Linter.Delegates) :
  Linter.messagesOf
    (map_fold (λ key value delegates, Linter.setMessages indie key value delegates)
       delegates recorded) other
  = if bool_decide (other = indie)
    then recorded ∪ Linter.messagesOf delegates indie
    else Linter.messagesOf delegates other.
Proof.
  apply (map_fold_weak_ind
    (λ result (m : Linter.Messages),
       Linter.messagesOf result other
       = if bool_decide (other = indie)
         then m ∪ Linter.messagesOf delegates indie
         else Linter.messagesOf delegates other)).
  - case_bool_decide; [subst|done]. by rewrite (left_id_L ∅ (∪)).
  - intros key value m result Hnone IH.
    rewrite messagesOf_setMessages. case_bool_decide as Heq; [|done].
    subst other. by rewrite IH, insert_union_l.
Qed.

Lemma run_snoc (operations : list Operation) (operation : Operation) (s : State) :
  run uriToPath getCodeKey (operations ++ [operation]) s
  = perform uriToPath getCodeKey (run uriToPath getCodeKey operations s) operation.
Proof. unfold run. by rewrite fold_left_app. Qed.

Lemma published_snoc (operations : list Operation) (operation : Operation) :
  published uriToPath (operations ++ [operation])
  = match operation with
    | Capture params =>
        <[uriToPath params.(Diagnostics.uri) := params.(Diagnostics.diagnostics)]>
          (published uriToPath operations)
    | _ => published uriToPath operations
    end.
Proof. unfold published. by rewrite fold_left_app. Qed.

Lemma run_recorded (operations : list Operation) (delegates : Linter.Delegates) :
  let s := run uriToPath getCodeKey operations (new delegates) in
  inSync s
  ∧ ∀ path,
      s.(_diagnosticMap) !! path
      = map (diagnosticToV2Message path) <$> published uriToPath operations !! path.
Proof.
  induction operations as [|operation operations IH] using rev_ind; simpl.
  { split; [by intros indie path messages Hin%elem_of_nil|].
    intros path. unfold published. simpl. by rewrite !lookup_empty. }
  rewrite run_snoc, published_snoc.
  destruct IH as [Hsync Hmap].
  set (s := run uriToPath getCodeKey operations (new delegates)) in *.
  destruct operation as [indie| |params|indie]; simpl.
  - split; [|done]. intros other path messages Hin Hl. simpl in *.
    rewrite messagesOf_replayed.
    destruct (decide (other = indie)) as [->|Hne].
    + rewrite bool_decide_eq_true_2 by done. by apply lookup_union_Some_l.
    + rewrite bool_decide_eq_false_2 by done. apply Hsync; [|done].
      revert Hin. case_bool_decide; [done|].
      intros [?|?%list_elem_of_singleton]%elem_of_app; done.
  - split; [|done]. by intros other path messages Hin%elem_of_nil.
  - split.
    + intros other path messages Hin Hl. simpl in *.
      rewrite messagesOf_sent, bool_decide_eq_true_2 by done.
      destruct (decide (path = uriToPath (Diagnostics.uri params))) as [->|Hne].
      * rewrite lookup_insert_eq in Hl. by rewrite lookup_insert_eq.
      * rewrite lookup_insert_ne in Hl by done. rewrite lookup_insert_ne by done.
        by apply Hsync.
    + intros path.
      destruct (decide (path = uriToPath (Diagnostics.uri params))) as [->|Hne].
      * by rewrite !lookup_insert_eq.
      * by rewrite !lookup_insert_ne.
  - split; [|done]. intros other path messages Hin Hl. simpl in *.
    apply Hsync; [|done]. by apply list_elem_of_filter in Hin as [_ ?].
Qed.

(** X12. Whatever the adapter has been asked to do since it was created,
    a delegate that is attached shows for every path the messages of the
    diagnostics published last for that path, whether it was attached
    before or after they were published. *)
Theorem attached_delegate_shows_the_latest_diagnostics
    (operations : list Operation) (delegates : Linter.Delegates) (indie : nat)
    (path : string) (diagnostics : list Diagnostics.Diagnostic) :
  let s := run uriToPath getCodeKey operations (new delegates) in
  indie ∈ s.(_indies) →
  published uriToPath operations !! path = Some diagnostics →
  Linter.messagesOf s.(LinterPushV2Adapter.delegates) indie !! path
  = Some (map (diagnosticToV2Message path) diagnostics).
Proof.
  simpl. intros Hin Hpub.
  destruct (run_recorded operations delegates) as [Hsync Hmap].
  apply Hsync; [done|]. by rewrite Hmap, Hpub.
Qed.

(** X13. A delegate that has been detached shows nothing, and nothing
    is sent to it, until it is attached again. *)
Theorem detached_delegate_stays_cleared (s : State) (indie : nat)
    (operations : list Operation) :
  indie ∈ s.(_indies) →
  (Attach indie ∉ operations) →
  let s' := run uriToPath getCodeKey operations (detachAll s) in
  (indie ∉ s'.(_indies))
  ∧ Linter.messagesOf s'.(LinterPushV2Adapter.delegates) indie = ∅.
Proof.
  intros Hin Hops. simpl.
  induction operations as [|operation operations IH] using rev_ind.
  { split; [apply not_elem_of_nil|]. simpl.
    by rewrite messagesOf_cleared, bool_decide_eq_true_2. }
  rewrite run_snoc.
  destruct IH as [Hout Hnone].
  { intros Hop. apply Hops, elem_of_app. by left. }
  set (s' := run uriToPath getCodeKey operations (detachAll s)) in *.
  destruct operation as [other| |params|other]; simpl.
  - assert (indie ≠ other) as Hne.
    { intros ->. apply Hops, elem_of_app. right. by left. }
    split.
    + case_bool_decide; [done|].
      intros [?|?%list_elem_of_singleton]%elem_of_app; done.
    + by rewrite messagesOf_replayed, bool_decide_eq_false_2.
  - split; [apply not_elem_of_nil|].
    by rewrite messagesOf_cleared, bool_decide_eq_false_2.
  - split; [done|]. by rewrite messagesOf_sent, bool_decide_eq_false_2.
  - split; [|done]. by intros [_ ?]%list_elem_of_filter.
Qed.

Lemma codes_recorded (path : string) (d : Diagnostics.Diagnostic)
    (after : list Diagnostics.Diagnostic) :
  (∀ d', d' ∈ after → codeKey getCodeKey path d' ≠ codeKey getCodeKey path d) →
  ∀ codeMap : gmap string (option Diagnostics.DiagnosticCode),
    codeMap !! codeKey getCodeKey path d = Some d.(Diagnostics.code) →
    fold_left
      (λ codeMap d, <[codeKey getCodeKey path d := d.(Diagnostics.code)]> codeMap)
      after codeMap !! codeKey getCodeKey path d
    = Some d.(Diagnostics.code).
Proof.
  induction after as [|d' after IH]; intros Hafter codeMap Hl; simpl; [done|].
  apply IH; [by intros d'' ?; apply Hafter; right|].
  rewrite lookup_insert_ne; [done|]. apply Hafter. by left.
Qed.

Lemma codes_not_recorded (path key : string) (diagnostics : list Diagnostics.Diagnostic) :
  (∀ d, d ∈ diagnostics → codeKey getCodeKey path d ≠ key) →
  ∀ codeMap : gmap string (option Diagnostics.DiagnosticCode),
    fold_left
      (λ codeMap d, <[codeKey getCodeKey path d := d.(Diagnostics.code)]> codeMap)
      diagnostics codeMap !! key
    = codeMap !! key.
Proof.
  induction diagnostics as [|d diagnostics IH]; intros Hall codeMap; simpl; [done|].
  rewrite IH by (intros d' ?; apply Hall; by right).
  apply lookup_insert_ne, Hall. by left.
Qed.

(** X14. After diagnostics have been captured for a path, the code
    recorded for the range and the message of one of them is the code of
    the last diagnostic captured with that range and message; a code that
    is missing, zero or the empty string is given back as [null]. *)
Theorem captured_code_is_given_back (params : Diagnostics.PublishDiagnosticsParams)
    (s : State) (before after : list Diagnostics.Diagnostic)
    (d : Diagnostics.Diagnostic) :
  let path := uriToPath params.(Diagnostics.uri) in
  params.(Diagnostics.diagnostics) = before ++ d :: after →
  (∀ d', d' ∈ after → codeKey getCodeKey path d' ≠ codeKey getCodeKey path d) →
  getDiagnosticCode getCodeKey (Some path)
    (Convert.lsRangeToAtomRange d.(Diagnostics.range)) d.(Diagnostics.message)
    (captureDiagnostics uriToPath getCodeKey params s)
  = match d.(Diagnostics.code) with
    | Some code => if truthy code then Some code else None
    | None => None
    end.
Proof.
  simpl. intros Hsplit Hafter.
  unfold getDiagnosticCode, captureDiagnostics. simpl.
  rewrite lookup_insert_eq, Hsplit, fold_left_app. simpl.
  change (getCodeKey (Convert.lsRangeToAtomRange (Diagnostics.range d))
            (Diagnostics.message d))
    with (codeKey getCodeKey (uriToPath (Diagnostics.uri params)) d).
  rewrite codes_recorded; [done|done|]. by rewrite lookup_insert_eq.
Qed.

(** X15. Capturing diagnostics for a path forgets every code recorded
    for that path before: a range and message that none of the captured
    diagnostics has gets [null]. *)
Theorem captured_codes_replace_the_old (params : Diagnostics.PublishDiagnosticsParams)
    (s : State) (range : Range.t) (text : string) :
  let path := uriToPath params.(Diagnostics.uri) in
  (∀ d, d ∈ params.(Diagnostics.diagnostics) →
        codeKey getCodeKey path d ≠ getCodeKey range text) →
  getDiagnosticCode getCodeKey (Some path) range text
    (captureDiagnostics uriToPath getCodeKey params s)
  = None.
Proof.
  simpl. intros Hall.
  unfold getDiagnosticCode, captureDiagnostics. simpl.
  rewrite lookup_insert_eq, codes_not_recorded by done.
  by rewrite lookup_empty.
Qed.

End LinterFacts.

Lemma attached_delegate_shows_the_latest_diagnostics_witness :
  Linter.messagesOf
    (LinterPushV2Adapter.run fileUriToPath commaKey
       [LinterPushV2Adapter.Capture publishedForA; LinterPushV2Adapter.Attach 7;
        LinterPushV2Adapter.Capture publishedForB]
       (LinterPushV2Adapter.new ∅)).(LinterPushV2Adapter.delegates) 7 !! "/a"
  = Some (map (LinterPushV2Adapter.diagnosticToV2Message "/a")
            [unusedFirst; unusedSecond; zeroCode]).
Proof.
  apply (attached_delegate_shows_the_latest_diagnostics fileUriToPath commaKey
           [LinterPushV2Adapter.Capture publishedForA; LinterPushV2Adapter.Attach 7;
            LinterPushV2Adapter.Capture publishedForB] ∅ 7 "/a").
  - apply (bool_decide_unpack _). vm_compute. exact I.
  - vm_compute. reflexivity.
Defined.

Lemma detached_delegate_stays_cleared_witness :
  Linter.messagesOf
    (LinterPushV2Adapter.run fileUriToPath commaKey
       [LinterPushV2Adapter.Capture publishedForB; LinterPushV2Adapter.Attach 8]
       (LinterPushV2Adapter.detachAll
          (LinterPushV2Adapter.run fileUriToPath commaKey
             [LinterPushV2Adapter.Attach 7; LinterPushV2Adapter.Capture publishedForA]
             (LinterPushV2Adapter.new ∅)))).(LinterPushV2Adapter.delegates) 7
  = ∅.
Proof.
  apply (detached_delegate_stays_cleared fileUriToPath commaKey
           (LinterPushV2Adapter.run fileUriToPath commaKey
              [LinterPushV2Adapter.Attach 7; LinterPushV2Adapter.Capture publishedForA]
              (LinterPushV2Adapter.new ∅))
           7 [LinterPushV2Adapter.Capture publishedForB; LinterPushV2Adapter.Attach 8]).
  - apply (bool_decide_unpack _). vm_compute. exact I.
  - intros [?|[?|[]%elem_of_nil]%elem_of_cons]%elem_of_cons; discriminate.
Defined.

Lemma captured_code_is_given_back_witness :
  LinterPushV2Adapter.getDiagnosticCode commaKey (Some "/a")
    (Range.mk (Point.mk 0 0) (Point.mk 0 5)) "unused"
    (LinterPushV2Adapter.captureDiagnostics fileUriToPath commaKey publishedForA
       (LinterPushV2Adapter.new ∅))
  = Some (Diagnostics.StringCode "E7").
Proof.
  apply (captured_code_is_given_back fileUriToPath commaKey publishedForA
           (LinterPushV2Adapter.new ∅) [unusedFirst] [zeroCode] unusedSecond).
  - reflexivity.
  - intros d' [->|[]%elem_of_nil]%elem_of_cons Hkey. vm_compute in Hkey. discriminate.
Defined.

Lemma captured_codes_replace_the_old_witness :
  LinterPushV2Adapter.getDiagnosticCode commaKey (Some "/b")
    (Range.mk (Point.mk 1 0) (Point.mk 1 2)) "odd"
    (LinterPushV2Adapter.captureDiagnostics fileUriToPath commaKey
       (Diagnostics.mkPublishDiagnosticsParams "file:///b" [unusedFirst])
       (LinterPushV2Adapter.captureDiagnostics fileUriToPath commaKey
          (Diagnostics.mkPublishDiagnosticsParams "file:///b"
             [Diagnostics.mkDiagnostic
                (Lsp.mkRange (Lsp.mkPosition 1 0) (Lsp.mkPosition 1 2))
                None (Some (Diagnostics.NumberCode 3)) None "odd"])
          (LinterPushV2Adapter.new ∅)))
  = None.
Proof.
  apply (captured_codes_replace_the_old fileUriToPath commaKey
           (Diagnostics.mkPublishDiagnosticsParams "file:///b" [unusedFirst])).
  intros d [->|[]%elem_of_nil]%elem_of_cons Hkey. vm_compute in Hkey. discriminate.
Defined.

(** * The rename adapter and the rename prompt *)

Section RenameFacts.

Context (uriToPath : string → string).
Context (convertLsTextEdits : list Lsp.TextEdit → list AtomIde.TextEdit).

(** X16. When the answer of the server carries [documentChanges],
    [getRename] returns an empty map, whatever they are: it hands the
    array to [convertDocumentChanges], which looks for a
    [documentChanges] property on it and finds none. *)
Theorem getRename_drops_documentChanges
    (documentChanges : list Lsp.DocumentChange)
    (changes : Property (JsObject (list Lsp.TextEdit))) :
  RenameMapAdapter.getRename uriToPath convertLsTextEdits
    (Some (Lsp.mkWorkspaceEdit (Value documentChanges) changes))
  = RenameMapAdapter.Returns (Some ∅).
Proof. reflexivity. Qed.

Lemma setEach_last (edits : list Lsp.TextDocumentEdit) (path : string) :
  ∀ result,
    ∃ final,
      RenameMapAdapter.setEach uriToPath convertLsTextEdits
        (Lsp.TextDocumentEditChange <$> edits) result
      = RenameMapAdapter.Returns final
      ∧ final !! path
        = match last (filter (λ edit, batchPath uriToPath edit = path) edits) with
          | Some edit => Some (convertLsTextEdits edit.(Lsp.edits))
          | None => result !! path
          end.
Proof.
  induction edits as [|edit edits IH]; intros result.
  { by exists result. }
  rewrite fmap_cons. cbn [RenameMapAdapter.setEach].
  destruct (IH (<[uriToPath (Lsp.uri (Lsp.textDocument edit))
                  := convertLsTextEdits (Lsp.edits edit)]> result))
    as (final & -> & Hfinal).
  exists final. split; [done|]. rewrite Hfinal.
  rewrite filter_cons. fold (batchPath uriToPath edit).
  destruct (decide (batchPath uriToPath edit = path)) as [Heq|Hne].
  - rewrite last_cons. destruct (last (filter _ edits)); [done|].
    by rewrite <- Heq, lookup_insert_eq.
  - destruct (last (filter _ edits)); [done|]. by rewrite lookup_insert_ne.
Qed.

(** X17. Handed a workspace edit whose [documentChanges] are
    text-document edits, [convertDocumentChanges] returns a map that
    holds, for a path, the converted edits of the last batch that resolves
    to that path: an earlier batch for the same document is lost. *)
Theorem convertDocumentChanges_keeps_the_last_batch
    (edits : list Lsp.TextDocumentEdit)
    (changes : Property (JsObject (list Lsp.TextEdit))) (path : string) :
  ∃ result,
    RenameMapAdapter.convertDocumentChanges uriToPath convertLsTextEdits
      (RenameMapAdapter.EditObject
         (Lsp.mkWorkspaceEdit (Value (Lsp.TextDocumentEditChange <$> edits)) changes))
    = RenameMapAdapter.Returns result
    ∧ result !! path
      = (λ edit, convertLsTextEdits edit.(Lsp.edits))
        <$> last (filter (λ edit, batchPath uriToPath edit = path) edits).
Proof.
  unfold RenameMapAdapter.convertDocumentChanges. simpl.
  destruct (setEach_last edits path ∅) as (final & -> & Hfinal).
  exists final. split; [done|]. rewrite Hfinal.
  destruct (last (filter _ edits)); [done|]. by rewrite lookup_empty.
Qed.

(** X18. Confirming the prompt sends the name that was typed: one
    request, for the active editor at its cursor, unless no editor is
    active or the name is empty, in which case nothing is sent.  The
    panel is hidden afterwards, and the mini editor of a panel that was
    visible is empty. *)
Theorem confirm_sends_the_typed_name (s : RenameView.State) :
  let s' := RenameView.confirm s in
  s'.(RenameView.panelVisible) = false
  ∧ (s.(RenameView.panelVisible) = true → s'.(RenameView.miniEditorText) = "")
  ∧ s'.(RenameView.requests)
    = s.(RenameView.requests)
      ++ match s.(RenameView.activeTextEditor) with
         | Some editor =>
             if String.length s.(RenameView.miniEditorText) =? 0 then []
             else [RenameView.mkRequest editor
                     editor.(RenameView.cursorBufferPosition)
                     s.(RenameView.miniEditorText)]
         | None => []
         end.
Proof.
  assert (∀ t, (RenameView.close t).(RenameView.panelVisible) = false
               ∧ (t.(RenameView.panelVisible) = true →
                  (RenameView.close t).(RenameView.miniEditorText) = "")
               ∧ (RenameView.close t).(RenameView.requests) = t.(RenameView.requests))
    as Hclose.
  { intros t. unfold RenameView.close.
    destruct (RenameView.panelVisible t) eqn:Hvisible; simpl; [|done].
    unfold RenameView.hasFocus, RenameView.restoreFocus. simpl.
    destruct (RenameView.activeElement t) as [[| |other]|]; simpl; try done.
    destruct (RenameView._previouslyFocusedElement t) as [element|]; simpl; [|done].
    by destruct (RenameView.attached t element). }
  simpl. unfold RenameView.confirm.
  destruct (Hclose (RenameView.rename s)) as (Hvisible & Htext & Hrequests).
  split; [done|]. rewrite Hrequests. unfold RenameView.rename in *.
  destruct (RenameView.activeTextEditor s) as [editor|].
  - destruct (String.length (RenameView.miniEditorText s) =? 0); simpl in *.
    + split; [done|]. by rewrite app_nil_r.
    + done.
  - split; [done|]. by rewrite app_nil_r.
Qed.

(** X19. Toggling the prompt of a hidden panel twice, with an active
    editor, leaves the panel hidden, the mini editor empty, no request
    sent, and the focus on the element that had it, or on the view of the
    workspace when that element has left the document or nothing had the
    focus. *)
Theorem toggle_twice_gives_the_focus_back (s : RenameView.State)
    (editor : RenameView.TextEditor) :
  s.(RenameView.panelVisible) = false →
  s.(RenameView.activeTextEditor) = Some editor →
  let s' := RenameView.toggle (RenameView.toggle s) in
  s'.(RenameView.panelVisible) = false
  ∧ s'.(RenameView.miniEditorText) = ""
  ∧ s'.(RenameView.requests) = s.(RenameView.requests)
  ∧ s'.(RenameView.activeElement)
    = Some match s.(RenameView.activeElement) with
           | Some element =>
               if s.(RenameView.attached) element then element
               else RenameView.WorkspaceView
           | None => RenameView.WorkspaceView
           end.
Proof.
  intros Hhidden Heditor. simpl.
  assert (RenameView.toggle s
          = RenameView.focus RenameView.MiniEditorElement
              (RenameView.setVisible true (RenameView.storeFocusedElement s)))
    as ->.
  { unfold RenameView.toggle, RenameView.open. by rewrite Hhidden, Heditor. }
  unfold RenameView.toggle, RenameView.close. simpl.
  unfold RenameView.restoreFocus. simpl.
  destruct (RenameView.activeElement s) as [element|]; simpl; [|done].
  by destruct (RenameView.attached s element).
Qed.

(** X20. The answer to a rename request that carries, in the legacy
    shape, the edits of one document is applied to that document under
    every schedule: its buffer is the one the applier produced and nothing
    is notified; or, when the document rejects the edits, its text stays
    and the error is notified.  A [null] answer changes nothing. *)
Theorem rename_answer_for_one_document (uri : string) (edits : list Lsp.TextEdit)
    (schedule : list Event) (ws : Workspace) :
  let path := uriToPath uri in
  let out :=
    handleTextDocumentEdit (openBuffer ws path)
      (Lsp.mkTextDocumentEdit (Lsp.mkTextDocument uri None) edits) in
  let ws' :=
    RenameView.renamed uriToPath
      (Some (Lsp.mkWorkspaceEdit NoProperty (Value [(uri, edits)]))) schedule ws in
  RenameView.renamed uriToPath None schedule ws = ws
  ∧ match snd out with
    | Return _ =>
        openBuffer ws' path = fst out
        ∧ ws'.(notifications) = ws.(notifications)
    | Throw err =>
        textOf ws' path = textOf ws path
        ∧ ws'.(notifications) = ws.(notifications) ++ [failureNotification err]
    end.
Proof.
  simpl. split; [done|].
  unfold handle, normalizeChanges. simpl. rewrite String.eqb_refl. simpl.
  rewrite single_batch_settles. unfold batchPath. simpl.
  destruct (handleTextDocumentEdit _ _) as [buffer [checkpoint|err]] eqn:Hout; simpl.
  - split; [|done]. by rewrite openBuffer_setBuffer.
  - split; [|done]. unfold textOf.
    change (openBuffer (addError (setBuffer ws (uriToPath uri) buffer)
                          (failureNotification err)) (uriToPath uri))
      with (openBuffer (setBuffer ws (uriToPath uri) buffer) (uriToPath uri)).
    rewrite openBuffer_setBuffer.
    pose proof (handleTextDocumentEdit_throw (openBuffer ws (uriToPath uri))
                  (Lsp.mkTextDocumentEdit (Lsp.mkTextDocument uri None) edits) err)
      as Hthrow.
    rewrite Hout in Hthrow. simpl in Hthrow. by rewrite Hthrow.
Qed.

End RenameFacts.

Lemma toggle_twice_gives_the_focus_back_witness :
  (RenameView.toggle
     (RenameView.toggle
        (RenameView.mkState false "" None (Some (RenameView.OtherElement 3))
           (λ _, true)
           (Some (RenameView.mkTextEditor 1 (Point.mk 4 2))) []))).(RenameView.activeElement)
  = Some (RenameView.OtherElement 3).
Proof.
  apply (toggle_twice_gives_the_focus_back
           (RenameView.mkState false "" None (Some (RenameView.OtherElement 3))
              (λ _, true)
              (Some (RenameView.mkTextEditor 1 (Point.mk 4 2))) [])
           (RenameView.mkTextEditor 1 (Point.mk 4 2))); reflexivity.
Defined.

(** * The text an applied batch leaves *)

Lemma append_nil_r (s : string) : s +:+ "" = s.
Proof.
  induction s as [|c s IH]; [done|].
  unfold String.append; fold String.append. by rewrite IH.
Qed.

Lemma substring_takeString (n : nat) (s : string) :
  String.substring 0 n s = takeString n s.
Proof.
  revert s. induction n as [|n IH]; intros [|c s]; simpl; try done. by rewrite IH.
Qed.

Lemma substring_dropString (n : nat) (s : string) :
  String.substring n (String.length s - n) s = dropString n s.
Proof.
  revert s. induction n as [|n IH]; intros [|c s]; simpl; try done.
  - f_equal. clear. induction s as [|c' s IH]; simpl; [done|]. by rewrite IH.
Qed.

Lemma takeString_all (s : string) : takeString (String.length s) s = s.
Proof. induction s as [|c s IH]; simpl; [done|]. by rewrite IH. Qed.

Lemma length_takeString (n : nat) (s : string) :
  n ≤ String.length s → String.length (takeString n s) = n.
Proof.
  revert s. induction n as [|n IH]; intros [|c s] Hn; simpl in *; try done; try lia.
  rewrite IH; lia.
Qed.

Lemma takeString_append (n : nat) (s1 s2 : string) :
  n ≤ String.length s1 → takeString n (s1 +:+ s2) = takeString n s1.
Proof.
  revert s1. induction n as [|n IH]; intros [|c s1] Hn; simpl in *; try done; try lia.
  unfold String.append; fold String.append. simpl. rewrite IH; [done|lia].
Qed.

Lemma takeString_append_r (n : nat) (s1 s2 : string) :
  takeString (String.length s1 + n) (s1 +:+ s2) = s1 +:+ takeString n s2.
Proof.
  induction s1 as [|c s1 IH]; [done|].
  unfold String.append; fold String.append. simpl. by rewrite IH.
Qed.

Lemma dropString_append (n : nat) (s1 s2 : string) :
  n ≤ String.length s1 → dropString n (s1 +:+ s2) = dropString n s1 +:+ s2.
Proof.
  revert s1. induction n as [|n IH]; intros [|c s1] Hn; simpl in *; try done; try lia.
  unfold String.append; fold String.append. simpl. rewrite IH; [done|lia].
Qed.

Lemma dropString_append_r (n : nat) (s1 s2 : string) :
  dropString (String.length s1 + n) (s1 +:+ s2) = dropString n s2.
Proof.
  induction s1 as [|c s1 IH]; [done|].
  unfold String.append; fold String.append. simpl. by rewrite IH.
Qed.

Lemma takeString_takeString (n m : nat) (s : string) :
  n ≤ m → takeString n (takeString m s) = takeString n s.
Proof.
  revert m s. induction n as [|n IH]; intros [|m] [|c s] Hn; simpl; try done; try lia.
  rewrite IH; [done|lia].
Qed.

Lemma dropString_takeString (n m : nat) (s : string) :
  dropString n (takeString (n + m) s) = takeString m (dropString n s).
Proof.
  revert s. induction n as [|n IH]; intros [|c s]; simpl; try done.
  by destruct m.
Qed.

Lemma length_leading (ls : list string) :
  String.length (leading ls) = sum_list_with (λ l, S (String.length l)) ls.
Proof.
  induction ls as [|l ls IH]; [done|].
  cbn [leading sum_list_with].
  rewrite length_append. cbn [String.length]. rewrite IH. lia.
Qed.

Lemma append_cons (c : ascii) (s1 s2 : string) :
  String c s1 +:+ s2 = String c (s1 +:+ s2).
Proof. reflexivity. Qed.

Lemma joinLines_cons (l : string) (ls : list string) :
  ls ≠ [] → joinLines (l :: ls) = l +:+ String LF (joinLines ls).
Proof. by destruct ls. Qed.

Lemma joinLines_leading (above ls : list string) :
  ls ≠ [] → joinLines (above ++ ls) = leading above +:+ joinLines ls.
Proof.
  intros Hne. induction above as [|l above IH]; [done|].
  change ((l :: above) ++ ls) with (l :: (above ++ ls)).
  rewrite joinLines_cons by (by intros [_ ?]%app_eq_nil).
  rewrite IH. cbn [leading]. by rewrite append_assoc, append_cons.
Qed.

Lemma trailing_cons (l : string) (ls : list string) :
  trailing (l :: ls) = String LF (l +:+ trailing ls).
Proof. reflexivity. Qed.

Lemma joinLines_one_trailing (l : string) (below : list string) :
  joinLines (l :: below) = l +:+ trailing below.
Proof.
  revert l. induction below as [|l' below IH]; intros l.
  - cbn [trailing joinLines]. by rewrite append_nil_r.
  - rewrite joinLines_cons by done. by rewrite IH, trailing_cons.
Qed.

Lemma joinLines_trailing (ls below : list string) :
  ls ≠ [] → joinLines (ls ++ below) = joinLines ls +:+ trailing below.
Proof.
  induction ls as [|l ls IH]; intros Hne; [done|].
  destruct ls as [|l' ls]; [apply joinLines_one_trailing|].
  change ((l :: l' :: ls) ++ below) with (l :: (l' :: ls) ++ below).
  rewrite !joinLines_cons by done. rewrite IH by done.
  by rewrite append_assoc, append_cons.
Qed.

Lemma prependToFirst_nonempty (prefix : string) (ls : list string) :
  prependToFirst prefix ls ≠ [].
Proof. by destruct ls. Qed.

Lemma appendToLast_nonempty (ls : list string) (suffix : string) :
  appendToLast ls suffix ≠ [].
Proof. by destruct ls as [|l [|l' ls]]. Qed.

Lemma joinLines_appendToLast (ls : list string) (suffix : string) :
  ls ≠ [] → joinLines (appendToLast ls suffix) = joinLines ls +:+ suffix.
Proof.
  induction ls as [|l ls IH]; intros Hne; [done|].
  destruct ls as [|l' ls]; [reflexivity|].
  change (appendToLast (l :: l' :: ls) suffix)
    with (l :: appendToLast (l' :: ls) suffix).
  rewrite (joinLines_cons l (appendToLast _ _)) by apply appendToLast_nonempty.
  rewrite (joinLines_cons l (l' :: ls)) by done.
  rewrite IH by done. by rewrite append_assoc, append_cons.
Qed.

Lemma joinLines_prependToFirst (prefix : string) (ls : list string) :
  ls ≠ [] → joinLines (prependToFirst prefix ls) = prefix +:+ joinLines ls.
Proof.
  destruct ls as [|l [|l' ls]]; intros Hne; [done|reflexivity|].
  change (prependToFirst prefix (l :: l' :: ls)) with ((prefix +:+ l) :: l' :: ls).
  rewrite !joinLines_cons by done. by rewrite append_assoc.
Qed.


Lemma text_around (ls : list string) (p : Point.t) :
  positionInRange ls p = true →
  takeString (offsetOf ls p) (joinLines ls)
  = leading (take p.(Point.row) ls)
    +:+ takeString p.(Point.column) (lineForRow ls p.(Point.row))
  ∧ dropString (offsetOf ls p) (joinLines ls)
    = dropString p.(Point.column) (lineForRow ls p.(Point.row))
      +:+ trailing (drop (S p.(Point.row)) ls).
Proof.
  intros (l & Hl & Hc)%positionInRange_spec.
  unfold offsetOf, lineForRow. rewrite Hl. simpl.
  rewrite <- length_leading.
  assert (joinLines ls
          = leading (take (Point.row p) ls)
            +:+ (l +:+ trailing (drop (S (Point.row p)) ls))) as ->.
  { rewrite <- (take_drop_middle ls _ l Hl) at 1.
    rewrite joinLines_leading by done. by rewrite joinLines_one_trailing. }
  rewrite takeString_append_r, dropString_append_r.
  by rewrite takeString_append, dropString_append.
Qed.

Lemma clipPosition_valid (ls : list string) (p : Point.t) :
  ls ≠ [] → positionInRange ls (clipPosition ls p) = true.
Proof.
  intros Hne. apply positionInRange_spec. unfold clipPosition, lineForRow.
  assert (is_Some (ls !! pred (length ls))) as [l Hl].
  { apply lookup_lt_is_Some. destruct ls; [done|]. simpl. lia. }
  destruct (Nat.ltb_spec (pred (length ls)) (Point.row p)); simpl.
  - rewrite Hl. by exists l.
  - assert (is_Some (ls !! Point.row p)) as [l' Hl'].
    { apply lookup_lt_is_Some. destruct ls; [done|]. simpl in *. lia. }
    rewrite Hl'. simpl.
    destruct (Nat.ltb_spec (String.length l') (Point.column p)); simpl;
      rewrite Hl'; exists l'; (split; [done|lia]).
Qed.

Lemma clipRange_end (ls : list string) (r : Range.t) :
  positionInRange ls r.(Range.start) = true →
  Point.le r.(Range.start) r.(Range.end_) →
  (clipRange ls r).(Range.end_) = clipPosition ls r.(Range.end_).
Proof.
  intros Hs Hle. unfold clipRange.
  rewrite (clipPosition_inRange _ _ Hs).
  pose proof (clipPosition_le ls _ _ Hs Hle) as Hc.
  assert (Range.end_ (Range.new (Range.start r) (clipPosition ls (Range.end_ r)))
          = clipPosition ls (Range.end_ r)) as Hnew.
  { unfold Range.new, Point.isLessThanOrEqual.
    destruct (Z.leb_spec (Point.compare (Range.start r) (clipPosition ls (Range.end_ r))) 0)
      as [?|Hgt]; [done|].
    exfalso. apply Point_compare_le in Hc. apply Z.ltb_ge in Hc. lia. }
  destruct (bool_decide (Range.start r = Range.start r)); simpl; [|done].
  destruct (bool_decide (Range.end_ r = clipPosition ls (Range.end_ r))) eqn:Hend;
    [|done].
  by apply bool_decide_eq_true in Hend.
Qed.

(** The text after a substitution: what was before the start, the new
    text, and what was after the end. *)
Lemma replaceInLines_text (ls : list string) (r : Range.t) (newText : string) :
  positionInRange ls r.(Range.start) = true →
  Point.le r.(Range.start) r.(Range.end_) →
  joinLines (replaceInLines ls r newText)
  = takeString (offsetOf ls r.(Range.start)) (joinLines ls)
    +:+ newText
    +:+ dropString (offsetOf ls (clipPosition ls r.(Range.end_))) (joinLines ls).
Proof.
  intros Hs Hle.
  assert (ls ≠ []) as Hne.
  { apply positionInRange_spec in Hs as (l & Hl & _). by destruct ls. }
  destruct (text_around ls _ Hs) as [-> _].
  destruct (text_around ls _ (clipPosition_valid ls r.(Range.end_) Hne)) as [_ ->].
  unfold replaceInLines.
  rewrite clipRange_start, clipRange_end by done.
  rewrite substring_takeString, substring_dropString.
  rewrite joinLines_leading
    by (intros [? _]%app_eq_nil; by eapply appendToLast_nonempty).
  rewrite joinLines_trailing by apply appendToLast_nonempty.
  rewrite joinLines_appendToLast by apply prependToFirst_nonempty.
  rewrite joinLines_prependToFirst by apply splitLines_nonempty.
  rewrite joinLines_splitLines.
  by rewrite !append_assoc.
Qed.

Lemma joinLines_at (ls : list string) (row : nat) (l : string) :
  ls !! row = Some l →
  joinLines ls = leading (take row ls) +:+ (l +:+ trailing (drop (S row) ls)).
Proof.
  intros Hl. rewrite <- (take_drop_middle ls _ l Hl) at 1.
  rewrite joinLines_leading by done. by rewrite joinLines_one_trailing.
Qed.

Lemma offsetOf_le_length (ls : list string) (p : Point.t) :
  positionInRange ls p = true → offsetOf ls p ≤ String.length (joinLines ls).
Proof.
  intros (l & Hl & Hc)%positionInRange_spec.
  rewrite (joinLines_at ls _ l Hl), !length_append, length_leading.
  unfold offsetOf. lia.
Qed.

Lemma take_agree (ls ls0 : list string) (n : nat) :
  (∀ row, row < n → ls !! row = ls0 !! row) → take n ls = take n ls0.
Proof.
  intros Hagree. apply list_eq. intros i.
  destruct (decide (i < n)) as [Hlt|Hge].
  - rewrite !lookup_take_lt by done. by apply Hagree.
  - by rewrite !lookup_take_ge by lia.
Qed.

Lemma offsetOf_agree (ls ls0 : list string) (p : Point.t) :
  (∀ row, row < p.(Point.row) → ls !! row = ls0 !! row) →
  offsetOf ls p = offsetOf ls0 p.
Proof. intros Hagree. unfold offsetOf. by rewrite (take_agree ls ls0). Qed.

Lemma offsetOf_mono (ls : list string) (p q : Point.t) :
  positionInRange ls p = true → Point.le p q → offsetOf ls p ≤ offsetOf ls q.
Proof.
  intros (l & Hl & Hc)%positionInRange_spec [Hrow|[Hrow Hcol]]; unfold offsetOf.
  - replace (Point.row q) with (Point.row p + S (Point.row q - S (Point.row p)))
      by lia.
    rewrite <- take_take_drop, sum_list_with_app.
    rewrite (drop_S _ _ _ Hl). simpl. lia.
  - rewrite Hrow. lia.
Qed.

Lemma clipPosition_before (ls : list string) (p : Point.t) :
  ls ≠ [] → Point.le (clipPosition ls p) p.
Proof.
  intros Hne. unfold clipPosition, Point.le.
  destruct (Nat.ltb_spec (pred (length ls)) (Point.row p)); simpl; [lia|].
  destruct (Nat.ltb_spec (String.length (lineForRow ls (Point.row p)))
              (Point.column p)); simpl; lia.
Qed.

Lemma clipPosition_agree (ls ls0 : list string) (s e : Point.t) :
  (∀ row, row < s.(Point.row) → ls !! row = ls0 !! row) →
  positionInRange ls s = true → positionInRange ls0 s = true →
  Point.le e s →
  clipPosition ls e = clipPosition ls0 e.
Proof.
  intros Hagree (l & Hl & Hc)%positionInRange_spec
    (l0 & Hl0 & Hc0)%positionInRange_spec Hle.
  pose proof (lookup_lt_Some _ _ _ Hl). pose proof (lookup_lt_Some _ _ _ Hl0).
  unfold clipPosition, lineForRow.
  destruct (Nat.ltb_spec (pred (length ls)) (Point.row e)); [destruct Hle; lia|].
  destruct (Nat.ltb_spec (pred (length ls0)) (Point.row e)); [destruct Hle; lia|].
  destruct Hle as [Hrow|[Hrow Hcol]].
  - by rewrite Hagree.
  - rewrite Hrow, Hl, Hl0. simpl.
    destruct (Nat.ltb_spec (String.length l) (Point.column e)); [lia|].
    by destruct (Nat.ltb_spec (String.length l0) (Point.column e)); [lia|].
Qed.

Lemma reduceEdits_splice (ls0 : list string) (es : list AtomIde.TextEdit) :
  Forall ordered es →
  ∀ b prev limit rest b' last,
    tracks (lines b) ls0 prev →
    match prev with
    | Some p => limit = offsetOf ls0 p.(AtomIde.oldRange).(Range.start)
    | None => limit = String.length (joinLines ls0)
    end →
    joinLines (lines b) = takeString limit (joinLines ls0) +:+ rest →
    reduceEdits b prev es = (b', Return last) →
    joinLines (lines b') = splice (joinLines ls0) ls0 es limit +:+ rest.
Proof.
  induction 1 as [|cur es Hord Hes IH];
    intros b prev limit rest b' last Htr Hlimit Htext Hreduce; simpl in Hreduce.
  { by injection Hreduce as <- _. }
  rewrite validateEdit_cases in Hreduce.
  destruct (endsAfterStartOf cur prev) eqn:Hend; [done|].
  destruct (startInRange (b) cur) eqn:Hin; [|done].
  unfold startInRange in Hin.
  pose proof (tracks_startInRange _ _ _ _ Htr Hord Hend) as Hin0.
  rewrite Hin in Hin0. symmetry in Hin0.
  pose proof (tracks_step _ _ _ _ Htr Hord Hend Hin) as Htr'.
  assert (lines b ≠ []) as Hne.
  { apply positionInRange_spec in Hin as (l & Hl & _). by destruct (lines b). }
  assert (ls0 ≠ []) as Hne0.
  { apply positionInRange_spec in Hin0 as (l & Hl & _). by destruct ls0. }
  set (s := Range.start (AtomIde.oldRange cur)) in *.
  set (e := Range.end_ (AtomIde.oldRange cur)) in *.
  pose proof (clipPosition_le ls0 s e Hin0 Hord) as Hse.
  pose proof (clipPosition_before ls0 e Hne0) as Hee.
  pose proof (clipPosition_valid ls0 e Hne0) as Hvalid.
  assert (clipPosition (lines b) e = clipPosition ls0 e
          ∧ offsetOf (lines b) s = offsetOf ls0 s
          ∧ offsetOf (lines b) (clipPosition ls0 e) = offsetOf ls0 (clipPosition ls0 e)
          ∧ offsetOf ls0 (clipPosition ls0 e) ≤ limit
          ∧ limit ≤ String.length (joinLines ls0))
    as (Hclip & Hos & Hoe & Hbound & Hlength).
  { destruct prev as [p|]; simpl in Htr.
    - destruct Htr as (Habove & Hp & Hp0). apply Point_compare_le in Hend.
      fold e in Hend.
      pose proof (Point_le_trans _ _ _ Hee Hend) as Hep.
      pose proof (Point_le_trans _ _ _ Hse Hep) as Hsp.
      split; [by apply (clipPosition_agree _ _ _ _ Habove)|].
      split; [apply offsetOf_agree; intros row Hrow; apply Habove;
              destruct Hsp as [?|[? _]]; lia|].
      split; [apply offsetOf_agree; intros row Hrow; apply Habove;
              destruct Hep as [?|[? _]]; lia|].
      subst limit. split; [by apply offsetOf_mono|by apply offsetOf_le_length].
    - subst limit. rewrite Htr. repeat split; try done.
      by apply offsetOf_le_length. }
  pose proof (offsetOf_mono ls0 s _ Hin0 Hse) as Hmono.
  assert (joinLines (lines (setTextInRange b (AtomIde.oldRange cur)
                              (AtomIde.newText cur)))
          = takeString (offsetOf ls0 s) (joinLines ls0)
            +:+ (AtomIde.newText cur
                 +:+ (takeString (limit - offsetOf ls0 (clipPosition ls0 e))
                        (dropString (offsetOf ls0 (clipPosition ls0 e))
                           (joinLines ls0))
                      +:+ rest))) as Htext'.
  { cbn [setTextInRange lines].
    rewrite replaceInLines_text by done. fold s e.
    rewrite Hclip, Hos, Hoe, Htext.
    rewrite takeString_append by (rewrite length_takeString; lia).
    rewrite takeString_takeString by lia.
    rewrite dropString_append by (rewrite length_takeString; lia).
    replace limit with (offsetOf ls0 (clipPosition ls0 e)
                        + (limit - offsetOf ls0 (clipPosition ls0 e))) at 1 by lia.
    by rewrite dropString_takeString, ?append_assoc. }
  rewrite (IH (setTextInRange b (AtomIde.oldRange cur) (AtomIde.newText cur))
             (Some cur) _ _ b' last Htr' eq_refl Htext' Hreduce).
  cbn [splice]. fold s e. by rewrite ?append_assoc.
Qed.

(** X21. The text of a document after a batch has been applied is the
    text of before with every edit's range replaced by the edit's new
    text, every range being read on the document of before the batch (the
    end of a range clipped to that document). *)
Theorem applied_batch_replaces_every_range (b : TextBuffer)
    (edit : Lsp.TextDocumentEdit) (checkpoint : nat) :
  snd (handleTextDocumentEdit b edit) = Return checkpoint →
  getText (fst (handleTextDocumentEdit b edit))
  = splice (getText b) (lines b)
      (sort reverseRangeOrder (atomEditsOf edit.(Lsp.edits)))
      (String.length (getText b)).
Proof.
  unfold handleTextDocumentEdit, getText, atomEditsOf. simpl.
  set (b0 := {| path := path b; lines := lines b;
                undoStack := Checkpoint (nextCheckpointId b) :: undoStack b;
                nextCheckpointId := S (nextCheckpointId b) |}).
  set (es := sort reverseRangeOrder (map Convert.convertLsTextEdit (Lsp.edits edit))).
  assert (Forall ordered es) as Hord.
  { unfold es. rewrite sort_perm. apply atomEditsOf_ordered. }
  pose proof (reduceEdits_splice (lines b) es Hord b0 None
                (String.length (joinLines (lines b))) "") as Hsplice.
  destruct (reduceEdits b0 None es) as [b' [last|err]]; simpl; [|done].
  intros _.
  rewrite <- (append_nil_r (splice _ _ _ _)).
  rewrite <- (Hsplice b' last); try done.
  - unfold groupChangesSinceCheckpoint. by destruct (unwindTo _ _ _) as [[? ?]|].
  - by rewrite takeString_all, append_nil_r.
Qed.

Lemma applied_batch_replaces_every_range_witness :
  getText (fst (handleTextDocumentEdit twoRows
                  (batch "file:///a"
                     [lsEdit 0 1 1 1 "X"; lsEdit 1 2 9 9 "!"; lsEdit 0 0 0 0 ">"])))
  = ">aXd!".
Proof.
  rewrite (applied_batch_replaces_every_range twoRows
             (batch "file:///a"
                [lsEdit 0 1 1 1 "X"; lsEdit 1 2 9 9 "!"; lsEdit 0 0 0 0 ">"]) 1);
    reflexivity.
Defined.

(** * The transaction coordinator: rolling back *)

Section RollbackFacts.

Context (uriToPath : string → string).

Lemma settling_resume (edits : list Lsp.TextDocumentEdit) (ws : Workspace)
    (task : nat) (call : Call) :
  NoDup (batchPath uriToPath <$> edits) →
  settling uriToPath edits ws call →
  let call' := resume uriToPath (Lsp.TextDocumentEditChange <$> edits) task call in
  settling uriToPath edits ws call'
  ∧ (∀ t, t ∈ call.(resumed) → t ∈ call'.(resumed))
  ∧ (task < length edits → task ∈ call'.(resumed)).
Proof.
  intros Hnodup Hcall. pose proof Hcall as (Happ & Hcps & Hrec & Hbuf). simpl.
  unfold resume. case_bool_decide as Hin; [done|].
  rewrite list_lookup_fmap.
  destruct (edits !! task) as [edit|] eqn:Hl; simpl.
  2:{ split; [done|]. split; [done|]. intros Hlt.
      apply lookup_ge_None in Hl. lia. }
  pose proof (Hbuf task edit Hl) as Hopen. simpl in Hopen.
  rewrite bool_decide_eq_false_2 in Hopen by done.
  destruct Hopen as [Hopen Hfresh].
  fold (batchPath uriToPath edit). rewrite Hopen.
  assert (∀ task' edit', edits !! task' = Some edit' → task' ≠ task →
            batchPath uriToPath edit ≠ batchPath uriToPath edit') as Hpaths.
  { intros task' edit' Hl' Hne Heq. apply Hne.
    eapply NoDup_lookup; [exact Hnodup| |].
    - by rewrite list_lookup_fmap, Hl'.
    - rewrite list_lookup_fmap, Hl. simpl. by rewrite Heq. }
  destruct (handleTextDocumentEdit (openBuffer ws (batchPath uriToPath edit)) edit)
    as [buffer [checkpoint|err]] eqn:Hout; simpl.
  - split; [|split; [intros t Ht; by right|intros _; by left]].
    split; [done|]. simpl. split; [|split].
    + rewrite fmap_app. apply NoDup_app. split; [done|].
      split; [|apply NoDup_singleton].
      intros path Hpath ->%list_elem_of_singleton. done.
    + intros path cp [Hcp|[= -> ->]%list_elem_of_singleton]%elem_of_app.
      * by apply Hrec.
      * exists edit. split; [by apply list_elem_of_lookup_2 in Hl|].
        split; [done|]. by rewrite Hout.
    + intros task' edit' Hl'.
      destruct (decide (task' = task)) as [->|Hne].
      * assert (edit' = edit) as -> by congruence.
        rewrite bool_decide_eq_true_2 by by left.
        rewrite lookup_insert_eq, Hout. simpl. split; [done|].
        apply elem_of_app. right. by left.
      * pose proof (Hpaths task' edit' Hl' Hne) as Hpath.
        specialize (Hbuf task' edit' Hl'). simpl in Hbuf.
        case_bool_decide as Hin'.
        -- rewrite bool_decide_eq_true_2 by by right.
           rewrite lookup_insert_ne by done. destruct Hbuf as [-> Hbuf].
           split; [done|].
           destruct (snd _); [|done]. apply elem_of_app. by left.
        -- rewrite bool_decide_eq_false_2
             by (intros [?|?]%elem_of_cons; done).
           destruct Hbuf as [Hbuf Hnew]. split.
           ++ change (openBuffer
                        (setBuffer (workspace call) (batchPath uriToPath edit) buffer)
                        (batchPath uriToPath edit')
                      = openBuffer ws (batchPath uriToPath edit')).
              by rewrite openBuffer_setBuffer_ne.
           ++ rewrite fmap_app. intros [?|?%list_elem_of_singleton]%elem_of_app;
                [done|]. simpl in *. congruence.
  - split; [|split; [intros t Ht; by right|intros _; by left]].
    split; [done|]. simpl. split; [done|]. split; [done|].
    intros task' edit' Hl'.
    destruct (decide (task' = task)) as [->|Hne].
    + assert (edit' = edit) as -> by congruence.
      rewrite bool_decide_eq_true_2 by by left.
      rewrite lookup_insert_eq, Hout. simpl. split; [done|].
      by destruct (rejection call).
    + pose proof (Hpaths task' edit' Hl' Hne) as Hpath.
      specialize (Hbuf task' edit' Hl'). simpl in Hbuf.
      case_bool_decide as Hin'.
      * rewrite bool_decide_eq_true_2 by by right.
        rewrite lookup_insert_ne by done. destruct Hbuf as [-> Hbuf].
        split; [done|].
        destruct (snd _); [done|]. by destruct (rejection call).
      * rewrite bool_decide_eq_false_2
          by (intros [?|?]%elem_of_cons; done).
        destruct Hbuf as [Hbuf Hnew]. split; [|done].
        change (openBuffer
                  (setBuffer (workspace call) (batchPath uriToPath edit) buffer)
                  (batchPath uriToPath edit')
                = openBuffer ws (batchPath uriToPath edit')).
        by rewrite openBuffer_setBuffer_ne.
Qed.

Lemma settling_run (edits : list Lsp.TextDocumentEdit) (ws : Workspace)
    (events : list Event) :
  NoDup (batchPath uriToPath <$> edits) →
  (React ∉ events) →
  ∀ call,
    settling uriToPath edits ws call →
    let call' :=
      fold_left (step uriToPath (Lsp.TextDocumentEditChange <$> edits)) events call in
    settling uriToPath edits ws call'
    ∧ (∀ t, t ∈ call.(resumed) → t ∈ call'.(resumed))
    ∧ (∀ t, Resume t ∈ events → t < length edits → t ∈ call'.(resumed)).
Proof.
  intros Hnodup.
  induction events as [|event events IH]; intros Hevents call Hcall; simpl.
  { split; [done|]. split; [done|]. intros t Ht. by apply elem_of_nil in Ht. }
  destruct event as [task|]; [|exfalso; apply Hevents; by left]. simpl.
  destruct (settling_resume edits ws task call Hnodup Hcall)
    as (Hcall' & Hmono & Htask).
  destruct (IH (λ H, Hevents (list_elem_of_further _ _ _ H)) _ Hcall')
    as (Hend & Hmono' & Hall).
  split; [done|]. split; [by intros t Ht; apply Hmono', Hmono|].
  intros t [[= ->]|Ht]%elem_of_cons Hlt; [by apply Hmono', Htask|by apply Hall].
Qed.

Lemma revertRecorded_each (entries : list (string * nat)) :
  NoDup (entries.*1) →
  ∀ ws path checkpoint,
    (path, checkpoint) ∈ entries →
    openBuffer (fold_left revertRecorded entries ws) path
    = fst (revertToCheckpoint (openBuffer ws path) checkpoint).
Proof.
  induction entries as [|[p cp] entries IH]; intros Hnodup ws path checkpoint Hin.
  { by apply elem_of_nil in Hin. }
  rewrite fmap_cons in Hnodup. apply NoDup_cons in Hnodup as [Hp Hnodup].
  simpl. apply elem_of_cons in Hin as [[= -> ->]|Hin].
  - destruct (revertRecorded_frame entries
                (setBuffer ws p (fst (revertToCheckpoint (openBuffer ws p) cp))))
      as (Hf & _ & Hb).
    unfold openBuffer at 1. rewrite Hb, Hf.
    + simpl. by rewrite lookup_insert_eq.
    + intros entry He <-. apply Hp. apply list_elem_of_fmap. by exists entry.
  - rewrite (IH Hnodup _ _ _ Hin). rewrite openBuffer_setBuffer_ne; [done|].
    intros ->. apply Hp. apply list_elem_of_fmap. by exists (path, checkpoint).
Qed.

(** X22. When the batches of a call name different documents, one of
    them throws, and the rejection is handled after every closure has
    resumed, the call answers [applied: false] and the text of every
    document is the one of before the call: the batches that had been
    applied are reverted. *)
Theorem failed_call_rolls_back_when_handled_last
    (edits : list Lsp.TextDocumentEdit) (schedule : list Event) (ws : Workspace) :
  NoDup (batchPath uriToPath <$> edits) →
  (React ∉ schedule) →
  (∃ edit err,
     edit ∈ edits
     ∧ snd (handleTextDocumentEdit (openBuffer ws (batchPath uriToPath edit)) edit)
       = Throw err) →
  let out :=
    handleDocumentChanges uriToPath (Lsp.TextDocumentEditChange <$> edits)
      schedule ws in
  snd out = false
  ∧ ∀ edit, edit ∈ edits →
      textOf (fst out) (batchPath uriToPath edit)
      = textOf ws (batchPath uriToPath edit).
Proof.
  intros Hnodup Hschedule (failing & err & Hfailing & Hthrow). simpl.
  unfold handleDocumentChanges.
  rewrite (launch_text_only _ _ _ (text_changes_only edits)).
  set (call0 := {| workspace := ws; checkpoints := []; resumed := [];
                   rejection := None; applied := None |}).
  assert (settling uriToPath edits ws call0) as Hcall0.
  { split; [done|]. split; [constructor|]. split.
    - by intros path checkpoint Hin%elem_of_nil.
    - intros task edit _. simpl. split; [done|]. apply not_elem_of_nil. }
  destruct (settling_run edits ws schedule Hnodup Hschedule _ Hcall0)
    as (Hcall1 & _ & _).
  destruct (settling_run edits ws
              (Resume <$> seq 0 (length (Lsp.TextDocumentEditChange <$> edits)))
              Hnodup) with (call := fold_left
                 (step uriToPath (Lsp.TextDocumentEditChange <$> edits)) schedule call0)
    as ((Happ & Hcps & Hrec & Hbuf) & _ & Hall); [|done|].
  { by intros (? & ? & _)%list_elem_of_fmap. }
  simpl in Hall.
  set (call := fold_left _ (Resume <$> _) _) in *.
  assert (∀ task edit, edits !! task = Some edit → task ∈ resumed call) as Hresumed.
  { intros task edit Hl. apply lookup_lt_Some in Hl. apply Hall; [|done].
    apply list_elem_of_fmap. exists task. split; [done|].
    apply elem_of_seq. rewrite length_fmap. lia. }
  assert (is_Some (rejection call)) as [first Hfirst].
  { apply list_elem_of_lookup_1 in Hfailing as [task Hl].
    pose proof (Hbuf task failing Hl) as Htask. simpl in Htask.
    rewrite bool_decide_eq_true_2 in Htask by by eapply Hresumed.
    rewrite Hthrow in Htask. by destruct Htask as [_ ?]. }
  unfold finish, react. rewrite Happ, Hfirst. simpl. split; [done|].
  intros edit [task Hl]%list_elem_of_lookup_1.
  pose proof (Hbuf task edit Hl) as Htask. simpl in Htask.
  rewrite bool_decide_eq_true_2 in Htask by by eapply Hresumed.
  destruct Htask as [Hbuffer Houtcome]. unfold textOf.
  set (noted := addError (workspace call) _).
  assert (openBuffer noted (batchPath uriToPath edit)
          = fst (handleTextDocumentEdit
                   (openBuffer ws (batchPath uriToPath edit)) edit)) as Hnoted.
  { unfold openBuffer at 1. simpl. by rewrite Hbuffer. }
  destruct (snd (handleTextDocumentEdit _ edit)) as [checkpoint|err'] eqn:Hout.
  - rewrite (revertRecorded_each _ Hcps noted _ checkpoint Houtcome), Hnoted.
    by apply revert_after_return.
  - destruct (revertRecorded_frame (checkpoints call) noted) as (Hf & _ & Hb).
    unfold openBuffer at 1. rewrite Hb.
    + simpl. rewrite Hbuffer.
      by rewrite (handleTextDocumentEdit_throw _ _ _ Hout).
    + intros [path checkpoint] Hin Heq. simpl in Heq. subst path.
      destruct (Hrec _ _ Hin) as (edit' & [task' Hl']%list_elem_of_lookup_1
                                   & Hpath & Hreturn).
      assert (task' = task) as ->.
      { eapply NoDup_lookup; [exact Hnodup| |].
        - by rewrite list_lookup_fmap, Hl'.
        - rewrite list_lookup_fmap, Hl. simpl. by rewrite Hpath. }
      assert (edit' = edit) as -> by congruence.
      congruence.
Qed.

End RollbackFacts.

Lemma failed_call_rolls_back_when_handled_last_witness :
  snd (handleDocumentChanges fileUriToPath
         (Lsp.TextDocumentEditChange <$> [editA; editB])
         [Resume 0; Resume 1] twoDocuments) = false
  ∧ textOf (fst (handleDocumentChanges fileUriToPath
                   (Lsp.TextDocumentEditChange <$> [editA; editB])
                   [Resume 0; Resume 1] twoDocuments)) "/a"
    = "hello".
Proof.
  destruct (failed_call_rolls_back_when_handled_last fileUriToPath [editA; editB]
              [Resume 0; Resume 1] twoDocuments) as [Happlied Htext].
  - apply (bool_decide_unpack _). vm_compute. exact I.
  - intros [?|[?|[]%elem_of_nil]%elem_of_cons]%elem_of_cons; discriminate.
  - exists editB, (OutOfRangeError "/b" 10 1). split; [right; left|reflexivity].
  - split; [exact Happlied|]. apply (Htext editA). left.
Defined.
